(** * Ascendo: agent coordination substrate

    A shallow embedding of the scoring, review, dispute, shared-context and
    message-bus code of the conference lead pipeline, with the properties
    of the specification stated over it.

    Conventions of the embedding.
    - Python [int] is [Z]; [str] is [string], read as a sequence of ASCII
      characters ([str.lower] maps A-Z to a-z and leaves the rest).
    - A [dict] read with [.get(key, default)] is a record of [option]
      fields, the default applied where the source applies it.
    - [Optional[int]] is [option Z]; Python truthiness is written out
      ([None] and [0] are falsy, a model instance is truthy).
    - A call that may raise returns [option]; [None] is the exception. *)

From Stdlib Require Import Ascii String.
From stdpp Require Import gmap strings list fin_maps pretty.

Local Open Scope Z_scope.

(** ** Strings *)

Module Str.

(** [c.lower()] for one ASCII character. *)
Definition lower_ascii (c : ascii) : ascii :=
  let n := N_of_ascii c in
  if ((65 <=? n) && (n <=? 90))%N then ascii_of_N (n + 32) else c.

(** [s.lower()] *)
Fixpoint lower (s : string) : string :=
  match s with
  | EmptyString => EmptyString
  | String c s' => String (lower_ascii c) (lower s')
  end.

(** [needle in hay]: [needle] occurs as a contiguous substring. *)
Fixpoint contains (needle hay : string) : bool :=
  String.prefix needle hay ||
  match hay with
  | EmptyString => false
  | String _ hay' => contains needle hay'
  end.

(** [sep.join(parts)] *)
Definition join (sep : string) (parts : list string) : string :=
  String.concat sep parts.

(** [str(n)] for an integer, as an f-string renders it. *)
Definition of_Z (n : Z) : string := pretty n.

(** [str(len(l))] *)
Definition of_len {A} (l : list A) : string := pretty (length l).

End Str.

(** ** Control flow *)

(** [for x in xs: body] where the body may [break]: the body returns the
    new state and whether it broke out of the loop. *)
Fixpoint for_break {A S : Type} (xs : list A) (body : A → S → S * bool) (s : S) : S :=
  match xs with
  | [] => s
  | x :: xs' =>
      let '(s', stop) := body x s in
      if stop then s' else for_break xs' body s'
  end.

(** [any(p(x) for x in xs)] *)
Definition any {A : Type} (p : A → bool) (xs : list A) : bool := existsb p xs.

(** ** Configuration (config.py) *)

(** The [score_weights] table; field [w_k] is the entry of key [k]. *)
Record ScoreWeights := {
  w_industry_match : Z;
  w_title_match : Z;
  w_department_match : Z;
  w_company_size : Z;
  w_speaker_bonus : Z;
}.

Record IcpCriteria := {
  target_industries : list string;
  target_titles : list string;
  target_departments : list string;
  min_company_size : Z;
  preferred_company_size : Z;
  score_weights : ScoreWeights;
}.

Record IcpThresholds := {
  high : Z;
  medium : Z;
  low : Z;
}.

Definition ICP_CRITERIA : IcpCriteria := {|
  target_industries :=
    ["Manufacturing"; "Industrial Equipment"; "Medical Devices";
     "Healthcare Technology"; "Field Service"; "HVAC"; "Utilities";
     "Telecommunications"; "Industrial Automation"; "Building Automation";
     "Elevator/Escalator"; "Energy"; "Oil & Gas"; "Aerospace"; "Defense"];
  target_titles :=
    ["VP"; "Vice President"; "SVP"; "Senior Vice President"; "EVP";
     "Executive Vice President"; "Director"; "Senior Director"; "Chief";
     "C-Level"; "COO"; "CTO"; "CIO"; "Head of"; "General Manager";
     "President"];
  target_departments :=
    ["Field Service"; "Service"; "Customer Service"; "Customer Support";
     "Technical Support"; "Operations"; "Service Operations"; "Aftermarket";
     "Service Delivery"; "Digital"; "Technology"; "IT"; "Innovation"];
  min_company_size := 500;
  preferred_company_size := 1000;
  score_weights := {|
    w_industry_match := 30;
    w_title_match := 25;
    w_department_match := 20;
    w_company_size := 15;
    w_speaker_bonus := 10;
  |};
|}.

Definition ICP_THRESHOLDS : IcpThresholds :=
  {| high := 75; medium := 50; low := 0 |}.

(** ** Records (models/schemas.py) *)

(** The [{"name": ..., "title": ...}] entries of a company's details. *)
Record Contact := {
  contact_name : option string;
  contact_title : option string;
}.

(** The [company_info] dict handed to scoring and review. *)
Record CompanyInfo := {
  info_name : string;
  info_industry : option string;
  info_speakers : option (list Contact);
  info_attendees : option (list Contact);
  info_size : option Z;
  info_employee_count : option Z;
}.

Record ICPResult := {
  company_name : string;
  score : Z;
  fit_level : string;
  reasoning : string;
  industry_score : Z;
  title_score : Z;
  department_score : Z;
  size_score : Z;
  speaker_bonus : Z;
  validated_by : string;
  disputed : bool;
  dispute_reason : string;
  final_score : option Z;
}.

#[global] Instance Contact_eq_dec : EqDecision Contact.
Proof. solve_decision. Defined.

#[global] Instance ICPResult_eq_dec : EqDecision ICPResult.
Proof. solve_decision. Defined.

(** [ICPResult(...)]: the constructor checks [score: int = Field(ge=0, le=100)]
    and raises a validation error otherwise.  Assignment to a field of an
    existing instance is not checked. *)
Definition ICPResult_new (r : ICPResult) : option ICPResult :=
  if decide (0 ≤ score r ≤ 100) then Some r else None.

Definition set_score (v : Z) (r : ICPResult) : ICPResult :=
  {| company_name := company_name r; score := v; fit_level := fit_level r;
     reasoning := reasoning r; industry_score := industry_score r;
     title_score := title_score r; department_score := department_score r;
     size_score := size_score r; speaker_bonus := speaker_bonus r;
     validated_by := validated_by r; disputed := disputed r;
     dispute_reason := dispute_reason r; final_score := final_score r |}.

Definition set_final_score (v : option Z) (r : ICPResult) : ICPResult :=
  {| company_name := company_name r; score := score r; fit_level := fit_level r;
     reasoning := reasoning r; industry_score := industry_score r;
     title_score := title_score r; department_score := department_score r;
     size_score := size_score r; speaker_bonus := speaker_bonus r;
     validated_by := validated_by r; disputed := disputed r;
     dispute_reason := dispute_reason r; final_score := v |}.

Definition set_fit_level (v : string) (r : ICPResult) : ICPResult :=
  {| company_name := company_name r; score := score r; fit_level := v;
     reasoning := reasoning r; industry_score := industry_score r;
     title_score := title_score r; department_score := department_score r;
     size_score := size_score r; speaker_bonus := speaker_bonus r;
     validated_by := validated_by r; disputed := disputed r;
     dispute_reason := dispute_reason r; final_score := final_score r |}.

Definition set_reasoning (v : string) (r : ICPResult) : ICPResult :=
  {| company_name := company_name r; score := score r; fit_level := fit_level r;
     reasoning := v; industry_score := industry_score r;
     title_score := title_score r; department_score := department_score r;
     size_score := size_score r; speaker_bonus := speaker_bonus r;
     validated_by := validated_by r; disputed := disputed r;
     dispute_reason := dispute_reason r; final_score := final_score r |}.

Definition set_industry_score (v : Z) (r : ICPResult) : ICPResult :=
  {| company_name := company_name r; score := score r; fit_level := fit_level r;
     reasoning := reasoning r; industry_score := v;
     title_score := title_score r; department_score := department_score r;
     size_score := size_score r; speaker_bonus := speaker_bonus r;
     validated_by := validated_by r; disputed := disputed r;
     dispute_reason := dispute_reason r; final_score := final_score r |}.

(** The score shown and exported: [final_score] if present, else [score]. *)
Definition effective_score (r : ICPResult) : Z :=
  match final_score r with
  | Some f => f
  | None => score r
  end.

(** Python truthiness of an [Optional[int]]. *)
Definition truthy (o : option Z) : bool :=
  match o with
  | Some v => negb (v =? 0)
  | None => false
  end.

(** [a or b] on [Optional[int]] values. *)
Definition py_or (a b : option Z) : option Z :=
  if truthy a then a else b.

(** ** ICP validator (agents/icp_validator_agent.py) *)

Module Validator.

(** The fit level of a score against the two ordered thresholds; the
    [if >= high / elif >= medium / else] ladder of the source. *)
Definition fit_of (thr : IcpThresholds) (s : Z) : string :=
  if high thr <=? s then "High"
  else if medium thr <=? s then "Medium"
  else "Low".

(** The answer of the oracle's [validate_icp], a JSON object read with
    [result.get(key, default)]. *)
Record OracleScore := {
  o_score : option Z;
  o_fit_level : option string;
  o_reasoning : option string;
  o_industry_score : option Z;
  o_title_score : option Z;
  o_department_score : option Z;
  o_size_score : option Z;
  o_speaker_bonus : option Z;
}.

(** The answer of the oracle's [resolve_dispute]. *)
Record OracleResolution := {
  o_final_score : option Z;
  o_final_fit_level : option string;
  o_explanation : option string;
}.

(** The oracle capability held in [self.gemini]; a call returning [None]
    is a call that raised. *)
Record Gemini := {
  validate_icp : CompanyInfo → IcpCriteria → option OracleScore;
  resolve_dispute : ICPResult → string → option Z → option OracleResolution;
}.

Section Agent.

Variable gemini : option Gemini.
Variable icp_criteria : IcpCriteria.
Variable thresholds : IcpThresholds.

Definition name : string := "ICPValidatorAgent".

(** The local variables a scoring block updates: the component score it
    sets and the list [reasoning_parts]. *)
Definition Acc : Type := Z * list string.

Definition speakers_of (company_info : CompanyInfo) : list Contact :=
  default [] (info_speakers company_info).

Definition title_of (speaker : Contact) : string :=
  default "" (contact_title speaker).

(** Lines 190-197: industry score. *)
Definition industry_block (company_info : CompanyInfo) (parts : list string) : Acc :=
  let industry := Str.lower (default "" (info_industry company_info)) in
  for_break (target_industries icp_criteria)
    (λ target_industry '(industry_score, parts),
       if Str.contains (Str.lower target_industry) industry
          || Str.contains industry (Str.lower target_industry)
       then ((w_industry_match (score_weights icp_criteria),
              parts ++ ["Industry match: " +:+ target_industry]), true)
       else ((industry_score, parts), false))
    (0, parts).

(** Lines 199-210: title score; the inner loop breaks on the first target
    title found, the outer loop once a title has scored. *)
Definition title_block (company_info : CompanyInfo) (parts : list string) : Acc :=
  for_break (speakers_of company_info)
    (λ speaker acc,
       let title := title_of speaker in
       let acc' :=
         for_break (target_titles icp_criteria)
           (λ target_title '(title_score, parts),
              if Str.contains (Str.lower target_title) (Str.lower title)
              then ((w_title_match (score_weights icp_criteria),
                     parts ++ ["Title match: " +:+ title]), true)
              else ((title_score, parts), false))
           acc in
       (acc', 0 <? fst acc'))
    (0, parts).

(** Lines 212-222: department score. *)
Definition department_block (company_info : CompanyInfo) (parts : list string) : Acc :=
  for_break (speakers_of company_info)
    (λ speaker acc,
       let title := title_of speaker in
       let acc' :=
         for_break (target_departments icp_criteria)
           (λ dept '(department_score, parts),
              if Str.contains (Str.lower dept) (Str.lower title)
              then ((w_department_match (score_weights icp_criteria),
                     parts ++ ["Department match: " +:+ dept]), true)
              else ((department_score, parts), false))
           acc in
       (acc', 0 <? fst acc'))
    (0, parts).

(** Lines 224-233: size score. *)
Definition size_block (company_info : CompanyInfo) (parts : list string) : Acc :=
  let company_size := py_or (info_size company_info) (info_employee_count company_info) in
  match company_size with
  | Some n =>
      if truthy company_size then
        if preferred_company_size icp_criteria <=? n then
          (w_company_size (score_weights icp_criteria),
           parts ++ ["Enterprise size: " +:+ Str.of_Z n +:+ "+ employees"])
        else if min_company_size icp_criteria <=? n then
          (w_company_size (score_weights icp_criteria) `div` 2,
           parts ++ ["Mid-market size: " +:+ Str.of_Z n +:+ " employees"])
        else (0, parts)
      else (0, parts)
  | None => (0, parts)
  end.

(** Lines 235-239: speaker bonus. *)
Definition speaker_block (company_info : CompanyInfo) (parts : list string) : Acc :=
  let speakers := speakers_of company_info in
  match speakers with
  | [] => (0, parts)
  | _ :: _ =>
      (w_speaker_bonus (score_weights icp_criteria),
       parts ++ ["Has " +:+ Str.of_len speakers +:+ " speaker(s) at conference"])
  end.

(** [_rule_based_validation] *)
Definition _rule_based_validation (company_name : string) (company_info : CompanyInfo)
  : option ICPResult :=
  let reasoning_parts := [] in
  let '(industry_score, reasoning_parts) := industry_block company_info reasoning_parts in
  let '(title_score, reasoning_parts) := title_block company_info reasoning_parts in
  let '(department_score, reasoning_parts) := department_block company_info reasoning_parts in
  let '(size_score, reasoning_parts) := size_block company_info reasoning_parts in
  let '(speaker_bonus, reasoning_parts) := speaker_block company_info reasoning_parts in
  let score := industry_score + title_score + department_score + size_score + speaker_bonus in
  let fit_level := fit_of thresholds score in
  let reasoning :=
    match reasoning_parts with
    | [] => "Insufficient data for scoring"
    | _ :: _ => Str.join "; " reasoning_parts
    end in
  ICPResult_new
    {| company_name := company_name; score := score; fit_level := fit_level;
       reasoning := reasoning; industry_score := industry_score;
       title_score := title_score; department_score := department_score;
       size_score := size_score; speaker_bonus := speaker_bonus;
       validated_by := name; disputed := false; dispute_reason := "";
       final_score := None |}.

(** The [try] block of [_validate_company]: [None] when the oracle call or
    the [ICPResult] constructor raised. *)
Definition oracle_validation (g : Gemini) (company_name : string) (company_info : CompanyInfo)
  : option ICPResult :=
  result ← validate_icp g company_info icp_criteria;
  ICPResult_new
    {| company_name := company_name;
       score := default 50 (o_score result);
       fit_level := default "Medium" (o_fit_level result);
       reasoning := default "" (o_reasoning result);
       industry_score := default 0 (o_industry_score result);
       title_score := default 0 (o_title_score result);
       department_score := default 0 (o_department_score result);
       size_score := default 0 (o_size_score result);
       speaker_bonus := default 0 (o_speaker_bonus result);
       validated_by := name; disputed := false; dispute_reason := "";
       final_score := None |}.

(** [_validate_company]: the oracle when there is one and it answers with
    a well-formed result, the rules otherwise. *)
Definition _validate_company (company_name : string) (company_info : CompanyInfo)
  : option ICPResult :=
  match gemini with
  | Some g =>
      match oracle_validation g company_name company_info with
      | Some result => Some result
      | None => _rule_based_validation company_name company_info
      end
  | None => _rule_based_validation company_name company_info
  end.

(** Lines 304-307 and 309-312: the bounded-delta acceptance of a suggested
    score, [if suggested_score and abs(suggested_score - original.score) <= 20]. *)
Definition within_delta (original : ICPResult) (s : Z) : bool :=
  Z.abs (s - score original) <=? 20.

Definition accepts (original : ICPResult) (suggested_score : option Z) : bool :=
  truthy suggested_score &&
  match suggested_score with
  | Some s => within_delta original s
  | None => false
  end.

Definition accept_if_reasonable (original : ICPResult) (suggested_score : option Z)
    (revised : ICPResult) : ICPResult :=
  match suggested_score with
  | Some s =>
      if accepts original suggested_score
      then set_final_score (Some s) (set_score s revised)
      else revised
  | None => revised
  end.

(** Lines 314-320. *)
Definition update_fit_level (revised : ICPResult) : ICPResult :=
  set_fit_level (fit_of thresholds (score revised)) revised.

(** [_handle_dispute]; the entry of [_pending_validations] it overwrites
    is the value it returns. *)
Definition _handle_dispute (original : ICPResult) (dispute_reason : string)
    (suggested_score : option Z) : option ICPResult :=
  revised ← ICPResult_new
    {| company_name := company_name original; score := score original;
       fit_level := fit_level original; reasoning := reasoning original;
       industry_score := industry_score original;
       title_score := title_score original;
       department_score := department_score original;
       size_score := size_score original;
       speaker_bonus := speaker_bonus original;
       validated_by := validated_by original; disputed := true;
       dispute_reason := dispute_reason; final_score := None |};
  let revised :=
    match gemini with
    | Some g =>
        match resolve_dispute g original dispute_reason suggested_score with
        | Some resolution =>
            let fs := default (score original) (o_final_score resolution) in
            let revised := set_final_score (Some fs) revised in
            let revised := set_score fs revised in
            let revised :=
              set_fit_level (default (fit_level original) (o_final_fit_level resolution))
                revised in
            set_reasoning
              (reasoning original +:+ " | Dispute resolved: "
               +:+ default "" (o_explanation resolution)) revised
        | None => accept_if_reasonable original suggested_score revised
        end
    | None => accept_if_reasonable original suggested_score revised
    end in
  Some (update_fit_level revised).

(** [_update_with_enrichment] applied to the pending result of a company;
    [industry] is [enrichment.get("industry", "")]. *)
Definition _update_with_enrichment (result : ICPResult) (industry : string) : ICPResult :=
  let result :=
    if negb (String.eqb industry "") && (industry_score result =? 0) then
      for_break (target_industries icp_criteria)
        (λ target result,
           if Str.contains (Str.lower target) (Str.lower industry) then
             let result :=
               set_industry_score (w_industry_match (score_weights icp_criteria)) result in
             let result := set_score (score result + industry_score result) result in
             let result :=
               set_reasoning (reasoning result +:+ "; Industry confirmed: " +:+ industry)
                 result in
             (result, true)
           else (result, false))
        result
    else result in
  if high thresholds <=? score result then set_fit_level "High" result
  else if medium thresholds <=? score result then set_fit_level "Medium" result
  else result.

End Agent.

End Validator.

(** ** Quality agent (agents/quality_agent.py) *)

Module Quality.

(** The [review] dict. *)
Record Review := {
  review_company_name : string;
  original_score : Z;
  should_dispute : bool;
  reason : string;
  suggested_score : option Z;
}.

(** The early-return discipline of [_review_score_data]: a rule either
    returns the review or lets control fall through to the next one. *)
Inductive Flow (A : Type) :=
  | Return (a : A)
  | Continue.
Arguments Return {A} a.
Arguments Continue {A}.

Definition or_else {A} (f : Flow A) (rest : A) : A :=
  match f with
  | Return a => a
  | Continue => rest
  end.

Definition senior_titles : list string :=
  ["SVP"; "VP"; "Chief"; "Director"; "President"; "Head of"].

Definition field_service_keywords : list string :=
  ["field service"; "service"; "aftermarket"; "support"].

Definition speakers_of (company_info : CompanyInfo) : list Contact :=
  default [] (info_speakers company_info).

Definition title_of (speaker : Contact) : string :=
  default "" (contact_title speaker).

(** Lines 167-172: the loop that sets [has_senior_speaker]. *)
Definition has_senior_speaker (speakers : list Contact) : bool :=
  for_break speakers
    (λ speaker (found : bool),
       let title := title_of speaker in
       if any (λ st, Str.contains (Str.lower st) (Str.lower title)) senior_titles
       then (true, true) else (found, false))
    false.

(** Lines 182-187: the loop that sets [has_fs_title]. *)
Definition has_fs_title (speakers : list Contact) : bool :=
  for_break speakers
    (λ speaker (found : bool),
       let title := title_of speaker in
       if any (λ kw, Str.contains kw (Str.lower title)) field_service_keywords
       then (true, true) else (found, false))
    false.

Definition dispute (review : Review) (why : string) (suggested : Z) : Review :=
  {| review_company_name := review_company_name review;
     original_score := original_score review;
     should_dispute := true; reason := why; suggested_score := Some suggested |}.

Section Agent.

(** [self.gemini] as far as review uses it: [_gemini_review], [None] when
    the call raised. *)
Variable gemini : option (ICPResult → CompanyInfo → option Review).

(** [_review_score_data] on the dump of a result. *)
Definition _review_score_data (result_data : ICPResult) (company_info : CompanyInfo)
  : Review :=
  let company_name := company_name result_data in
  let score := score result_data in
  let reasoning := reasoning result_data in
  let review :=
    {| review_company_name := company_name; original_score := score;
       should_dispute := false; reason := ""; suggested_score := None |} in
  let speakers := speakers_of company_info in
  let rule1 :=
    if negb (bool_decide (speakers = [])) && (score <? 60)
    then Return (dispute review
           ("Company has " +:+ Str.of_len speakers
            +:+ " speaker(s) but score is only " +:+ Str.of_Z score)
           (Z.min (score + 15) 85))
    else Continue in
  let rule2 :=
    if has_senior_speaker speakers && (score <? 70)
    then Return (dispute review
           ("Company has senior-level speaker but score is " +:+ Str.of_Z score)
           (Z.min (score + 20) 90))
    else Continue in
  let rule3 :=
    if has_fs_title speakers && (score <? 75)
    then Return (dispute review
           ("Company has Field Service leadership but score is " +:+ Str.of_Z score)
           (Z.min (score + 15) 92))
    else Continue in
  let rule4 :=
    if (80 <=? score) && bool_decide (speakers = []) && Str.contains "Unknown" reasoning
    then Return (dispute review
           ("High score (" +:+ Str.of_Z score +:+ ") with insufficient evidence")
           (Z.max (score - 15) 50))
    else Continue in
  let nuanced :=
    match gemini with
    | Some review_by_oracle =>
        if 50 <=? score then
          match review_by_oracle result_data company_info with
          | Some gemini_review =>
              if should_dispute gemini_review then Return gemini_review else Continue
          | None => Continue
          end
        else Continue
    | None => Continue
    end in
  or_else rule1 (or_else rule2 (or_else rule3 (or_else rule4 (or_else nuanced review)))).

End Agent.

End Quality.

(** ** Scraped data (models/schemas.py) *)

Module Schema.

Record Speaker := {
  speaker_name : string;
  speaker_title : string;
  speaker_company : string;
}.

Record Attendee := {
  attendee_name : string;
  attendee_title : string;
  attendee_company : string;
}.

Record Company := {
  name : string;
  industry : string;
  size : option Z;
}.

Record ConferenceData := {
  speakers : list Speaker;
  attendees : list Attendee;
  companies : list Company;
}.

End Schema.

(** ** Shared context, value level (communication/context.py)

    The operations that read or rebuild one list are given on the values
    the list holds; object identity and copying are the subject of the
    store model further down. *)

Module Context.

(** [next((r for r in icp_results if r.company_name == result.company_name), None)] *)
Definition existing_for (result : ICPResult) (icp_results : list ICPResult)
  : option ICPResult :=
  List.find (λ r, bool_decide (company_name r = company_name result)) icp_results.

(** [icp_results.index(existing)]: the first position holding a record
    equal to [existing]; [None] is the [ValueError] of an absent value. *)
Fixpoint index (existing : ICPResult) (icp_results : list ICPResult) : option nat :=
  match icp_results with
  | [] => None
  | r :: rest =>
      if decide (r = existing) then Some 0%nat
      else S <$> index existing rest
  end.

(** [add_icp_result] *)
Definition add_icp_result (result : ICPResult) (icp_results : list ICPResult)
  : option (list ICPResult) :=
  match existing_for result icp_results with
  | Some existing =>
      idx ← index existing icp_results;
      Some (<[idx := result]> icp_results)
  | None => Some (icp_results ++ [result])
  end.

(** [get_companies]; the source builds a [set] of [str] and returns
    [list(companies)], whose order Python leaves unspecified. *)
Definition company_set (conference_data : option Schema.ConferenceData) : gset string :=
  match conference_data with
  | None => ∅
  | Some data =>
      (* [seen] is the local set the source calls [companies] *)
      let seen : gset string := ∅ in
      let seen :=
        foldl (λ acc company, acc ∪ {[ Schema.name company ]}) seen (Schema.companies data) in
      let seen :=
        foldl (λ acc speaker,
                 if negb (String.eqb (Schema.speaker_company speaker) "")
                 then acc ∪ {[ Schema.speaker_company speaker ]} else acc)
          seen (Schema.speakers data) in
      let seen :=
        foldl (λ acc attendee,
                 if negb (String.eqb (Schema.attendee_company attendee) "")
                 then acc ∪ {[ Schema.attendee_company attendee ]} else acc)
          seen (Schema.attendees data) in
      seen
  end.

Definition get_companies (conference_data : option Schema.ConferenceData) : list string :=
  elements (company_set conference_data).

(** Two names denote one organisation when they differ only in letter
    case, the comparison [get_company_details] makes. *)
Definition same_organisation (a b : string) : bool :=
  String.eqb (Str.lower a) (Str.lower b).

End Context.

(** ** Object store

    Checkpoints are about object identity: which objects two states share.
    The store is a finite map from locations to objects; an object has a
    class name and slots (the items of a [list], the field values of a
    model instance in declaration order), and a slot holds an immutable
    scalar or a reference to another object. *)

Module Store.

Definition loc := positive.

Inductive pyval :=
  | VNone
  | VBool (b : bool)
  | VInt (z : Z)
  | VStr (s : string)
  | VRef (l : loc).

Record pyobj := PyObj {
  py_class : string;
  py_slots : list pyval;
}.

#[global] Instance pyval_eq_dec : EqDecision pyval.
Proof. solve_decision. Defined.

#[global] Instance pyobj_eq_dec : EqDecision pyobj.
Proof. solve_decision. Defined.

Abbreviation heap := (gmap loc pyobj).
Abbreviation memo := (gmap loc loc).

(** The value an object graph denotes, sharing forgotten. *)
#[local] Set Warnings "-register-all".
Inductive pytree :=
  | TNone
  | TBool (b : bool)
  | TInt (z : Z)
  | TStr (s : string)
  | TObj (cls : string) (slots : list pytree).

(** Reading the graph under [v] as a tree; [fuel] bounds its depth. *)
Fixpoint reify (fuel : nat) (h : heap) (v : pyval) : option pytree :=
  match fuel with
  | O => None
  | S fuel' =>
      match v with
      | VNone => Some TNone
      | VBool b => Some (TBool b)
      | VInt z => Some (TInt z)
      | VStr s => Some (TStr s)
      | VRef l =>
          o ← h !! l;
          slots ← mapM (reify fuel' h) (py_slots o);
          Some (TObj (py_class o) slots)
      end
  end.

(** [l'] is reachable from [l] by following references. *)
Inductive reach (h : heap) : loc → loc → Prop :=
  | reach_here l : reach h l l
  | reach_slot l o c l' :
      h !! l = Some o → VRef c ∈ py_slots o → reach h c l' → reach h l l'.

(** Copying the slots of an object left to right, threading the store
    and the memo table. *)
Fixpoint copy_all (copy : pyval → heap → memo → option (pyval * heap * memo))
    (xs : list pyval) (h : heap) (m : memo) : option (list pyval * heap * memo) :=
  match xs with
  | [] => Some ([], h, m)
  | x :: xs' =>
      '(y, h1, m1) ← copy x h m;
      '(ys, h2, m2) ← copy_all copy xs' h1 m1;
      Some (y :: ys, h2, m2)
  end.

(** [copy.deepcopy(x, memo)], which [model_copy(deep=True)] performs on a
    model instance: an immutable scalar is returned as it is; an object
    already copied is answered from the memo table; otherwise the slots
    are copied, a new object is allocated for them and recorded in the
    memo table.  [None] when [fuel] runs out or a reference dangles. *)
Fixpoint deepcopy (fuel : nat) (x : pyval) (h : heap) (m : memo)
  : option (pyval * heap * memo) :=
  match fuel with
  | O => None
  | S fuel' =>
      match x with
      | VRef l =>
          match m !! l with
          | Some l' => Some (VRef l', h, m)
          | None =>
              o ← h !! l;
              '(ys, h1, m1) ← copy_all (deepcopy fuel') (py_slots o) h m;
              let l' := fresh (dom h1) in
              Some (VRef l', <[l' := PyObj (py_class o) ys]> h1, <[l := l']> m1)
          end
      | _ => Some (x, h, m)
      end
  end.

(** *** The shared context as objects *)

(** [SharedContext]: the store, the reference held in [self.context] and
    the table [self._checkpoints]. *)
Record SharedContext := {
  store : gmap loc pyobj;
  context : loc;
  _checkpoints : gmap string loc;
}.

(** Slots of an [AgentContext] instance, in declaration order. *)
Definition attr_url : nat := 0.
Definition attr_conference_data : nat := 1.
Definition attr_icp_results : nat := 2.
Definition attr_messages : nat := 3.
Definition attr_errors : nat := 4.
Definition attr_status : nat := 5.
Definition attr_current_agent : nat := 6.
Definition attr_verbose : nat := 7.

Definition alloc (o : pyobj) (h : heap) : loc * heap :=
  let l := fresh (dom h) in (l, <[l := o]> h).

(** [SharedContext(url, verbose)] *)
Definition init (url : string) (verbose : bool) : SharedContext :=
  let '(icp_results, h) := alloc (PyObj "list" []) ∅ in
  let '(messages, h) := alloc (PyObj "list" []) h in
  let '(errors, h) := alloc (PyObj "list" []) h in
  let '(ctx, h) :=
    alloc (PyObj "AgentContext"
             [VStr url; VNone; VRef icp_results; VRef messages; VRef errors;
              VStr "initialized"; VStr ""; VBool verbose]) h in
  {| store := h; context := ctx; _checkpoints := ∅ |}.

(** [create_checkpoint]:
    [self._checkpoints[name] = self.context.model_copy(deep=True)] *)
Definition create_checkpoint (fuel : nat) (name : string) (self : SharedContext)
  : option SharedContext :=
  '(copy, h, _) ← deepcopy fuel (VRef (context self)) (store self) ∅;
  match copy with
  | VRef c =>
      Some {| store := h; context := context self;
              _checkpoints := <[name := c]> (_checkpoints self) |}
  | _ => None
  end.

(** [restore_checkpoint]: the returned boolean and the context after the
    call. *)
Definition restore_checkpoint (fuel : nat) (name : string) (self : SharedContext)
  : option (bool * SharedContext) :=
  match _checkpoints self !! name with
  | Some c =>
      '(copy, h, _) ← deepcopy fuel (VRef c) (store self) ∅;
      match copy with
      | VRef l =>
          Some (true, {| store := h; context := l;
                         _checkpoints := _checkpoints self |})
      | _ => None
      end
  | None => Some (false, self)
  end.

(** Reading and writing one attribute of the live [AgentContext]. *)
Definition getattr (self : SharedContext) (attr : nat) : option pyval :=
  o ← store self !! context self;
  py_slots o !! attr.

Definition setattr (self : SharedContext) (attr : nat) (v : pyval) : option SharedContext :=
  o ← store self !! context self;
  Some {| store := <[context self := PyObj (py_class o) (<[attr := v]> (py_slots o))]>
                     (store self);
          context := context self; _checkpoints := _checkpoints self |}.

(** [set_status] *)
Definition set_status (status : string) (self : SharedContext) : option SharedContext :=
  setattr self attr_status (VStr status).

(** [set_current_agent] *)
Definition set_current_agent (agent_name : string) (self : SharedContext)
  : option SharedContext :=
  setattr self attr_current_agent (VStr agent_name).

(** [lst.append(v)] on the list object a slot of the live context refers to. *)
Definition append_to (self : SharedContext) (attr : nat) (v : pyval) : option SharedContext :=
  r ← getattr self attr;
  match r with
  | VRef l =>
      o ← store self !! l;
      Some {| store := <[l := PyObj (py_class o) (py_slots o ++ [v])]> (store self);
              context := context self; _checkpoints := _checkpoints self |}
  | _ => None
  end.

(** [add_error] *)
Definition add_error (error : string) (self : SharedContext) : option SharedContext :=
  append_to self attr_errors (VStr error).

(** An [ICPResult] instance as an object. *)
Definition ICPResult_obj (r : ICPResult) : pyobj :=
  PyObj "ICPResult"
    [VStr (company_name r); VInt (score r); VStr (fit_level r); VStr (reasoning r);
     VInt (industry_score r); VInt (title_score r); VInt (department_score r);
     VInt (size_score r); VInt (speaker_bonus r); VStr (validated_by r);
     VBool (disputed r); VStr (dispute_reason r);
     match final_score r with Some f => VInt f | None => VNone end].

(** [r.company_name] of the object a list item refers to. *)
Definition company_name_at (h : heap) (item : pyval) : option pyval :=
  match item with
  | VRef l => o ← h !! l; py_slots o !! 0%nat
  | _ => None
  end.

(** The position of the first item whose object satisfies [p]. *)
Fixpoint first_index (p : pyval → bool) (items : list pyval) : option nat :=
  match items with
  | [] => None
  | item :: rest => if p item then Some 0%nat else S <$> first_index p rest
  end.

(** [add_icp_result(result)], [result] being a reference to an
    [ICPResult] instance: the first item of the same company name, if any,
    is looked up again by equality of instances (equal fields) and its
    position is overwritten with the reference; otherwise the reference
    is appended. *)
Definition add_icp_result (result : loc) (self : SharedContext) : option SharedContext :=
  r ← getattr self attr_icp_results;
  new ← store self !! result;
  match r with
  | VRef l =>
      lst ← store self !! l;
      let same_name item :=
        bool_decide (company_name_at (store self) item = py_slots new !! 0%nat) in
      match List.find same_name (py_slots lst) with
      | Some (VRef e) =>
          existing ← store self !! e;
          let equal item :=
            match item with
            | VRef i => bool_decide (store self !! i = Some existing)
            | _ => false
            end in
          idx ← first_index equal (py_slots lst);
          Some {| store := <[l := PyObj (py_class lst) (<[idx := VRef result]> (py_slots lst))]>
                             (store self);
                  context := context self; _checkpoints := _checkpoints self |}
      | Some _ => None
      | None => append_to self attr_icp_results (VRef result)
      end
  | _ => None
  end.

(** [len(self.icp_results)] *)
Definition icp_results_len (self : SharedContext) : option nat :=
  r ← getattr self attr_icp_results;
  match r with
  | VRef l => o ← store self !! l; Some (length (py_slots o))
  | _ => None
  end.

(** Code holding the context may change the objects reachable from the
    live [AgentContext] and allocate new ones; it has no reference to the
    copies kept in [_checkpoints], and does not rebind the table. *)
Definition mutates_live (before after : SharedContext) : Prop :=
  _checkpoints after = _checkpoints before ∧
  ∀ l, l ∈ dom (store before) →
       ¬ reach (store before) (context before) l →
       store after !! l = store before !! l.

(** The items of a list object refer to instances holding the records
    [rs], in order. *)
Definition represents (h : heap) (items : list pyval) (rs : list ICPResult) : Prop :=
  Forall2 (λ item r, ∃ i, item = VRef i ∧ h !! i = Some (ICPResult_obj r)) items rs.

(** *** Calls on the shared context *)

(** [add_icp_result(ICPResult(...))] with a newly built record. *)
Definition add_new_icp_result (r : ICPResult) (self : SharedContext) : option SharedContext :=
  let '(result, h) := alloc (ICPResult_obj r) (store self) in
  add_icp_result result
    {| store := h; context := context self; _checkpoints := _checkpoints self |}.

Inductive call :=
  | CreateCheckpoint (name : string)
  | RestoreCheckpoint (name : string)
  | SetStatus (status : string)
  | SetCurrentAgent (agent_name : string)
  | AddError (error : string)
  | AddIcpResult (r : ICPResult).

Definition perform (fuel : nat) (c : call) (self : SharedContext) : option SharedContext :=
  match c with
  | CreateCheckpoint name => create_checkpoint fuel name self
  | RestoreCheckpoint name => snd <$> restore_checkpoint fuel name self
  | SetStatus status => set_status status self
  | SetCurrentAgent agent_name => set_current_agent agent_name self
  | AddError error => add_error error self
  | AddIcpResult r => add_new_icp_result r self
  end.

(** A sequence of calls, each on the context the previous one left. *)
Fixpoint run (fuel : nat) (calls : list call) (self : SharedContext) : option SharedContext :=
  match calls with
  | [] => Some self
  | c :: rest => self' ← perform fuel c self; run fuel rest self'
  end.

(** *** Invariants of copying

    [h0] is the store when the copy started, [h] the store so far. *)

(** [y] reads in [h] as [x] read in [h0], at every depth. *)
Definition sim (h0 h : heap) (x y : pyval) : Prop :=
  ∀ k t, reify k h0 x = Some t → reify k h y = Some t.

(** A copied value refers, if at all, to an object allocated by the copy. *)
Definition is_new (h0 h : heap) (y : pyval) : Prop :=
  match y with
  | VRef l => l ∈ dom h ∧ l ∉ dom h0
  | _ => True
  end.

(** The objects allocated by the copy refer to such objects only. *)
Definition new_closed (h0 h : heap) : Prop :=
  ∀ l o c, h !! l = Some o → l ∉ dom h0 → VRef c ∈ py_slots o →
           c ∈ dom h ∧ c ∉ dom h0.

Definition copy_inv (h0 h : heap) (m : memo) : Prop :=
  h0 ⊆ h ∧ new_closed h0 h ∧
  ∀ l l', m !! l = Some l' →
          sim h0 h (VRef l) (VRef l') ∧ l' ∈ dom h ∧ l' ∉ dom h0.

End Store.

(** ** Message bus (communication/message_bus.py) *)

Module Bus.

Inductive MessageType := REQUEST | RESPONSE | DISPUTE | CONFIRM | ERROR | STATUS.

(** [AgentMessage]; the payload dict and the timestamp are carried as
    opaque text. *)
Record AgentMessage := {
  id : string;
  sender : string;
  recipient : string;
  message_type : MessageType;
  action : string;
  payload : list (string * string);
  requires_response : bool;
  conversation_id : string;
  timestamp : string;
}.

Section WithWorld.

(** What handlers act on besides the message: the state of the agents.
    A handler returns its response, if any, and the new state; like the
    [handle_message] of every agent of the repository, it does not call
    back into the bus.  The [verbose] display only prints and is left
    out. *)
Context {World : Type}.

Definition Handler : Type := AgentMessage → World → option AgentMessage * World.

(** [_subscribers] keeps insertion order, which the broadcast loop
    iterates; [_pending_messages] is only ever read by key. *)
Record MessageBus := {
  _subscribers : list (string * list Handler);
  _message_history : list AgentMessage;
  _pending_messages : gmap string (list AgentMessage);
}.

(** [MessageBus()] *)
Definition new : MessageBus :=
  {| _subscribers := []; _message_history := []; _pending_messages := ∅ |}.

(** [agent_name in self._subscribers] and [self._subscribers[agent_name]] *)
Fixpoint handlers_of (agent_name : string) (subs : list (string * list Handler))
  : option (list Handler) :=
  match subs with
  | [] => None
  | (k, hs) :: rest => if decide (k = agent_name) then Some hs else handlers_of agent_name rest
  end.

(** [subs[agent_name].append(handler)] on a [defaultdict(list)]. *)
Fixpoint append_handler (agent_name : string) (handler : Handler)
    (subs : list (string * list Handler)) : list (string * list Handler) :=
  match subs with
  | [] => [(agent_name, [handler])]
  | (k, hs) :: rest =>
      if decide (k = agent_name) then (k, hs ++ [handler]) :: rest
      else (k, hs) :: append_handler agent_name handler rest
  end.

(** [subscribe] *)
Definition subscribe (agent_name : string) (handler : Handler) (self : MessageBus)
  : MessageBus :=
  {| _subscribers := append_handler agent_name handler (_subscribers self);
     _message_history := _message_history self;
     _pending_messages := _pending_messages self |}.

(** [unsubscribe] *)
Definition unsubscribe (agent_name : string) (self : MessageBus) : MessageBus :=
  {| _subscribers :=
       filter (λ entry, fst entry ≠ agent_name) (_subscribers self);
     _message_history := _message_history self;
     _pending_messages := _pending_messages self |}.

(** The broadcast loops of [send]: every handler of every agent but the
    sender, the responses dropped. *)
Definition broadcast (message : AgentMessage) (subs : list (string * list Handler))
    (w : World) : World :=
  foldl (λ w '(agent_name, handlers),
           if decide (agent_name ≠ sender message)
           then foldl (λ w (handler : Handler), snd (handler message w)) w handlers
           else w)
    w subs.

(** The point-to-point loop of [send]: handlers in registration order up
    to the first response. *)
Fixpoint first_response (message : AgentMessage) (handlers : list Handler) (w : World)
  : option AgentMessage * World :=
  match handlers with
  | [] => (None, w)
  | handler :: rest =>
      match handler message w with
      | (Some response, w') => (Some response, w')
      | (None, w') => first_response message rest w'
      end
  end.

Definition log (message : AgentMessage) (self : MessageBus) : MessageBus :=
  {| _subscribers := _subscribers self;
     _message_history := _message_history self ++ [message];
     _pending_messages := _pending_messages self |}.

(** [self._pending_messages[recipient].append(message)] on a
    [defaultdict(list)]. *)
Definition enqueue (message : AgentMessage) (self : MessageBus) : MessageBus :=
  {| _subscribers := _subscribers self;
     _message_history := _message_history self;
     _pending_messages :=
       <[recipient message :=
           default [] (_pending_messages self !! recipient message) ++ [message]]>
         (_pending_messages self) |}.

(** [send]: the response, the bus and the agents' state after the call. *)
Definition send (message : AgentMessage) (self : MessageBus) (w : World)
  : option AgentMessage * MessageBus * World :=
  let self := log message self in
  if decide (recipient message = "ALL") then
    (None, self, broadcast message (_subscribers self) w)
  else
    match handlers_of (recipient message) (_subscribers self) with
    | Some handlers =>
        match first_response message handlers w with
        | (Some response, w') => (Some response, log response self, w')
        | (None, w') => (None, self, w')
        end
    | None => (None, enqueue message self, w)
    end.

(** [get_pending_messages]: [self._pending_messages.pop(agent_name, [])] *)
Definition get_pending_messages (agent_name : string) (self : MessageBus)
  : list AgentMessage * MessageBus :=
  (default [] (_pending_messages self !! agent_name),
   {| _subscribers := _subscribers self;
      _message_history := _message_history self;
      _pending_messages := delete agent_name (_pending_messages self) |}).

(** A run of [send] calls, the responses dropped. *)
Definition send_all (messages : list AgentMessage) (self : MessageBus) (w : World)
  : MessageBus * World :=
  foldl (λ '(bus, w) message,
           let '(_, bus', w') := send message bus w in (bus', w'))
    (self, w) messages.

(** The queue of an agent, empty when it has none. *)
Definition pending_of (agent_name : string) (self : MessageBus) : list AgentMessage :=
  default [] (_pending_messages self !! agent_name).

Definition subscribed (agent_name : string) (self : MessageBus) : bool :=
  bool_decide (is_Some (handlers_of agent_name (_subscribers self))).

End WithWorld.

Arguments MessageBus : clear implicits.
Arguments Handler : clear implicits.

End Bus.

(** ** The scoring rules as the specification words them *)

Module Rules.

Section Criteria.

Variable icp_criteria : IcpCriteria.

(** Some target industry matches the organisation's industry field,
    case-insensitively, as a substring in either direction. *)
Definition industry_matches (company_info : CompanyInfo) : bool :=
  let industry := Str.lower (default "" (info_industry company_info)) in
  any (λ target, Str.contains (Str.lower target) industry
                 || Str.contains industry (Str.lower target))
    (target_industries icp_criteria).

(** Some contact's title contains, case-insensitively, some keyword. *)
Definition some_title_contains (keywords : list string) (company_info : CompanyInfo) : bool :=
  any (λ speaker,
         any (λ keyword,
                Str.contains (Str.lower keyword) (Str.lower (Validator.title_of speaker)))
           keywords)
    (Validator.speakers_of company_info).

Definition title_matches : CompanyInfo → bool :=
  some_title_contains (target_titles icp_criteria).

Definition department_matches : CompanyInfo → bool :=
  some_title_contains (target_departments icp_criteria).

(** The employee count when it is known: [size], else [employee_count],
    a count of zero being no count. *)
Definition known_size (company_info : CompanyInfo) : option Z :=
  match info_size company_info with
  | Some n => if n =? 0 then
                match info_employee_count company_info with
                | Some e => if e =? 0 then None else Some e
                | None => None
                end
              else Some n
  | None =>
      match info_employee_count company_info with
      | Some e => if e =? 0 then None else Some e
      | None => None
      end
  end.

Definition has_contact (company_info : CompanyInfo) : bool :=
  negb (bool_decide (Validator.speakers_of company_info = [])).

(** Full weight at or above the preferred size, half the weight rounded
    down at or above the minimum size, nothing below or when unknown. *)
Definition size_points (known : option Z) : Z :=
  match known with
  | Some n =>
      if preferred_company_size icp_criteria <=? n
      then w_company_size (score_weights icp_criteria)
      else if min_company_size icp_criteria <=? n
      then w_company_size (score_weights icp_criteria) `div` 2
      else 0
  | None => 0
  end.

(** What a scoring block does to its score variable and to the trace:
    nothing when its rule does not match, its weight and one more trace
    entry when it does. *)
Definition fires (matched : bool) (w : Z) (parts : list string) (out : Z * list string)
  : Prop :=
  if matched then fst out = w ∧ ∃ entry, snd out = parts ++ [entry]
  else out = (0, parts).

End Criteria.

(** The scenario of the specification: industry "Industrial Equipment",
    one contact titled "VP Field Service", 1200 employees. *)
Definition acme : CompanyInfo :=
  {| info_name := "Acme Industrial";
     info_industry := Some "Industrial Equipment";
     info_speakers :=
       Some [{| contact_name := Some "A. Contact";
                contact_title := Some "VP Field Service" |}];
     info_attendees := Some [];
     info_size := Some 1200;
     info_employee_count := None |}.

End Rules.

(** ** Dispute resolution: cases and sample data *)

Module Disputes.

(** No oracle is configured, or the call to it raised. *)
Definition oracle_unavailable (gemini : option Validator.Gemini) (original : ICPResult)
    (dispute_reason : string) (suggested_score : option Z) : Prop :=
  match gemini with
  | None => True
  | Some g => Validator.resolve_dispute g original dispute_reason suggested_score = None
  end.

(** A validated result of a given score and fit level, components left
    at their defaults. *)
Definition scored (name : string) (s : Z) (fit : string) : ICPResult :=
  {| company_name := name; score := s; fit_level := fit; reasoning := "";
     industry_score := 0; title_score := 0; department_score := 0;
     size_score := 0; speaker_bonus := 0; validated_by := Validator.name;
     disputed := false; dispute_reason := ""; final_score := None |}.

(** An oracle whose calls all raise. *)
Definition failing_oracle : Validator.Gemini :=
  {| Validator.validate_icp := λ _ _, None;
     Validator.resolve_dispute := λ _ _ _, None |}.

(** An oracle that answers every validation with a fixed score and fit
    level and nothing else. *)
Definition fixed_oracle (s : Z) (fit : string) : Validator.Gemini :=
  {| Validator.validate_icp := λ _ _,
       Some {| Validator.o_score := Some s; Validator.o_fit_level := Some fit;
               Validator.o_reasoning := None; Validator.o_industry_score := None;
               Validator.o_title_score := None; Validator.o_department_score := None;
               Validator.o_size_score := None; Validator.o_speaker_bonus := None |};
     Validator.resolve_dispute := λ _ _ _, None |}.

End Disputes.

(** ** The review rules as the specification words them *)

Module ReviewRules.

(** The contacts of an organisation are the entries under "speakers" of
    its details; a contact without a title has the empty title. *)
Definition contacts (company_info : CompanyInfo) : list Contact :=
  match info_speakers company_info with
  | Some entries => entries
  | None => []
  end.

Definition title (contact : Contact) : string :=
  match contact_title contact with
  | Some text => text
  | None => ""
  end.

(** Some contact's title contains, in any letter case, one of the
    senior-role keywords SVP, VP, Chief, Director, President, Head of. *)
Definition senior_contact (company_info : CompanyInfo) : bool :=
  existsb
    (λ contact,
       existsb (λ keyword, Str.contains keyword (Str.lower (title contact)))
         ["svp"; "vp"; "chief"; "director"; "president"; "head of"])
    (contacts company_info).

(** Some contact's title contains, in any letter case, one of the
    keywords field service, service, aftermarket, support. *)
Definition field_service_contact (company_info : CompanyInfo) : bool :=
  existsb
    (λ contact,
       existsb (λ keyword, Str.contains keyword (Str.lower (title contact)))
         ["field service"; "service"; "aftermarket"; "support"])
    (contacts company_info).

Definition has_contact (company_info : CompanyInfo) : bool :=
  match contacts company_info with
  | [] => false
  | _ :: _ => true
  end.

(** The conditions of the four rules. *)
Definition rule1 (result : ICPResult) (company_info : CompanyInfo) : bool :=
  has_contact company_info && (score result <? 60).

Definition rule2 (result : ICPResult) (company_info : CompanyInfo) : bool :=
  senior_contact company_info && (score result <? 70).

Definition rule3 (result : ICPResult) (company_info : CompanyInfo) : bool :=
  field_service_contact company_info && (score result <? 75).

Definition rule4 (result : ICPResult) (company_info : CompanyInfo) : bool :=
  (80 <=? score result) && negb (has_contact company_info)
  && Str.contains "Unknown" (reasoning result).

(** No oracle opinion applies: there is no oracle, the score is below 50,
    the oracle call failed, or the oracle does not dispute. *)
Definition oracle_silent (gemini : option (ICPResult → CompanyInfo → option Quality.Review))
    (result : ICPResult) (company_info : CompanyInfo) : Prop :=
  match gemini with
  | None => True
  | Some review_by_oracle =>
      score result < 50 ∨
      match review_by_oracle result company_info with
      | Some r => Quality.should_dispute r = false
      | None => True
      end
  end.

(** A dispute with a suggested score, and a confirmation. *)
Definition disputes_with (review : Quality.Review) (suggested : Z) : Prop :=
  Quality.should_dispute review = true ∧ Quality.suggested_score review = Some suggested.

Definition confirms (review : Quality.Review) : Prop :=
  Quality.should_dispute review = false ∧ Quality.suggested_score review = None
  ∧ Quality.reason review = "".

(** A company with one contact, and one with none. *)
Definition one_contact (title : string) : CompanyInfo :=
  {| info_name := "Acme"; info_industry := Some "Retail";
     info_speakers := Some [{| contact_name := Some "A. Contact";
                                contact_title := Some title |}];
     info_attendees := Some []; info_size := None; info_employee_count := None |}.


End ReviewRules.

(** ** Sample scrape: one organisation named in two letter cases *)

Module Samples.

(** The explicit list names "Acme"; a speaker is affiliated to "ACME". *)
Definition mixed_case : Schema.ConferenceData :=
  {| Schema.speakers :=
       [{| Schema.speaker_name := "Ann Lee"; Schema.speaker_title := "VP Service";
           Schema.speaker_company := "ACME" |}];
     Schema.attendees := [];
     Schema.companies :=
       [{| Schema.name := "Acme"; Schema.industry := ""; Schema.size := None |}] |}.

(** A status message from one agent to a recipient. *)
Definition note (from to text : string) : Bus.AgentMessage :=
  {| Bus.id := "0a1b2c3d"; Bus.sender := from; Bus.recipient := to;
     Bus.message_type := Bus.STATUS; Bus.action := text; Bus.payload := [];
     Bus.requires_response := false; Bus.conversation_id := "";
     Bus.timestamp := "2026-01-01T00:00:00" |}.

(** A handler that answers nothing and leaves the agents as they are. *)
Definition quiet : Bus.Handler unit := λ _ w, (None, w).

(** A handler that notes its call in the agents' state, here a list of
    tags, and answers as told. *)
Definition recording (tag : string) (answer : option Bus.AgentMessage)
  : Bus.Handler (list string) :=
  λ _ w, (answer, w ++ [tag]).

(** A bus with agent "A" under one handler and agent "B" under three, the
    second of which answers. *)
Definition two_agents : Bus.MessageBus (list string) :=
  Bus.subscribe "B" (recording "b3" None)
    (Bus.subscribe "B" (recording "b2" (Some (note "B" "A" "answer")))
       (Bus.subscribe "B" (recording "b1" None)
          (Bus.subscribe "A" (recording "a1" None) Bus.new))).

(** A scrape in which "Initech" is known through an attendee only. *)
Definition attendee_only : Schema.ConferenceData :=
  {| Schema.speakers := [];
     Schema.attendees :=
       [{| Schema.attendee_name := "Bob Roe"; Schema.attendee_title := "VP Field Service";
           Schema.attendee_company := "Initech" |}];
     Schema.companies :=
       [{| Schema.name := "Initech"; Schema.industry := "Retail"; Schema.size := None |}] |}.

End Samples.

(** ** Message history (communication/message_bus.py, [get_history]) *)

Module History.

(** An optional filter as [if sender:] reads it: absent when [None] or
    the empty string. *)
Definition given (value : option string) : option string :=
  match value with
  | Some s => if String.eqb s "" then None else Some s
  | None => None
  end.

Section WithWorld.

Context {World : Type}.

(** [get_history] *)
Definition get_history (sender recipient conversation_id : option string)
    (self : Bus.MessageBus World) : list Bus.AgentMessage :=
  let messages := Bus._message_history self in
  let messages :=
    match given sender with
    | Some s => filter (λ m, Bus.sender m = s) messages
    | None => messages
    end in
  let messages :=
    match given recipient with
    | Some r => filter (λ m, Bus.recipient m = r) messages
    | None => messages
    end in
  let messages :=
    match given conversation_id with
    | Some c => filter (λ m, Bus.conversation_id m = c) messages
    | None => messages
    end in
  messages.

(** The handlers a broadcast of [message] reaches, in the order the
    broadcast loop calls them. *)
Definition audience (message : Bus.AgentMessage)
    (subs : list (string * list (Bus.Handler World))) : list (Bus.Handler World) :=
  concat (snd <$> filter (λ entry, fst entry ≠ Bus.sender message) subs).

(** Calling handlers one after the other on a message, responses dropped. *)
Definition deliver (message : Bus.AgentMessage) (handlers : list (Bus.Handler World))
    (w : World) : World :=
  foldl (λ w (handler : Bus.Handler World), snd (handler message w)) w handlers.

End WithWorld.

(** A filter value matches a field when the filter is absent or equal. *)
Definition matches (value : option string) (field : string) : Prop :=
  match given value with
  | Some s => field = s
  | None => True
  end.

#[global] Instance matches_dec value field : Decision (matches value field).
Proof. unfold matches. destruct (given value); apply _. Defined.

(** A message passes the three optional filters. *)
Definition selected (sender recipient conversation_id : option string)
    (m : Bus.AgentMessage) : Prop :=
  matches sender (Bus.sender m) ∧ matches recipient (Bus.recipient m)
  ∧ matches conversation_id (Bus.conversation_id m).

#[global] Instance selected_dec s r c m : Decision (selected s r c m).
Proof. unfold selected. apply _. Defined.

(** The response of a call, as the messages it adds to the history. *)
Definition recorded (response : option Bus.AgentMessage) : list Bus.AgentMessage :=
  match response with
  | Some r => [r]
  | None => []
  end.

End History.

(** ** Company details (communication/context.py, [get_company_details])

    The details dict is read by scoring and review as a [CompanyInfo]; of
    the fields copied from the company record, [size_category],
    [headquarters], [website], [description] and [source] travel with
    [industry] and [size] and are left out, as in [Schema.Company]. *)

Module Details.

(** [a.lower() == b.lower()] *)
Definition same_name (a b : string) : bool :=
  String.eqb (Str.lower a) (Str.lower b).

(** [{"name": speaker.name, "title": speaker.title}] *)
Definition speaker_entry (speaker : Schema.Speaker) : Contact :=
  {| contact_name := Some (Schema.speaker_name speaker);
     contact_title := Some (Schema.speaker_title speaker) |}.

Definition attendee_entry (attendee : Schema.Attendee) : Contact :=
  {| contact_name := Some (Schema.attendee_name attendee);
     contact_title := Some (Schema.attendee_title attendee) |}.

(** [details["industry"] = company.industry; details["size"] = company.size] *)
Definition copy_company (company : Schema.Company) (details : CompanyInfo) : CompanyInfo :=
  {| info_name := info_name details;
     info_industry := Some (Schema.industry company);
     info_speakers := info_speakers details;
     info_attendees := info_attendees details;
     info_size := Schema.size company;
     info_employee_count := info_employee_count details |}.

(** [details["speakers"].append(entry)] *)
Definition append_speaker (entry : Contact) (details : CompanyInfo) : CompanyInfo :=
  {| info_name := info_name details;
     info_industry := info_industry details;
     info_speakers := Some (default [] (info_speakers details) ++ [entry]);
     info_attendees := info_attendees details;
     info_size := info_size details;
     info_employee_count := info_employee_count details |}.

(** [details["attendees"].append(entry)] *)
Definition append_attendee (entry : Contact) (details : CompanyInfo) : CompanyInfo :=
  {| info_name := info_name details;
     info_industry := info_industry details;
     info_speakers := info_speakers details;
     info_attendees := Some (default [] (info_attendees details) ++ [entry]);
     info_size := info_size details;
     info_employee_count := info_employee_count details |}.

(** [get_company_details] *)
Definition get_company_details (conference_data : option Schema.ConferenceData)
    (company_name : string) : CompanyInfo :=
  match conference_data with
  | None =>
      {| info_name := company_name; info_industry := None; info_speakers := None;
         info_attendees := None; info_size := None; info_employee_count := None |}
  | Some data =>
      let details :=
        {| info_name := company_name; info_industry := None; info_speakers := Some [];
           info_attendees := Some []; info_size := None; info_employee_count := None |} in
      let details :=
        for_break (Schema.companies data)
          (λ company details,
             if same_name (Schema.name company) company_name
             then (copy_company company details, true)
             else (details, false))
          details in
      let details :=
        foldl (λ details speaker,
                 if same_name (Schema.speaker_company speaker) company_name
                 then append_speaker (speaker_entry speaker) details
                 else details)
          details (Schema.speakers data) in
      let details :=
        foldl (λ details attendee,
                 if same_name (Schema.attendee_company attendee) company_name
                 then append_attendee (attendee_entry attendee) details
                 else details)
          details (Schema.attendees data) in
      details
  end.

(** The same details under another name. *)
Definition renamed (company_name : string) (details : CompanyInfo) : CompanyInfo :=
  {| info_name := company_name;
     info_industry := info_industry details;
     info_speakers := info_speakers details;
     info_attendees := info_attendees details;
     info_size := info_size details;
     info_employee_count := info_employee_count details |}.

End Details.

(** ** Sequences of disputes and of enrichment updates *)

Module Sequences.

(** Successive [dispute_score] messages for one company: each is resolved
    against the record the previous one left in [_pending_validations];
    [None] as soon as one resolution raises. *)
Fixpoint resolve_all (gemini : option Validator.Gemini) (thresholds : IcpThresholds)
    (current : ICPResult) (disputes : list (string * option Z)) : option ICPResult :=
  match disputes with
  | [] => Some current
  | (dispute_reason, suggested_score) :: rest =>
      revised ← Validator._handle_dispute gemini thresholds current
                  dispute_reason suggested_score;
      resolve_all gemini thresholds revised rest
  end.

(** Successive [company_enriched] messages for one company. *)
Definition enrich_all (icp_criteria : IcpCriteria) (thresholds : IcpThresholds)
    (result : ICPResult) (industries : list string) : ICPResult :=
  foldl (Validator._update_with_enrichment icp_criteria thresholds) result industries.

(** The closing fit-level ladder of [_update_with_enrichment]. *)
Definition ladder (thresholds : IcpThresholds) (result : ICPResult) : ICPResult :=
  if high thresholds <=? score result then set_fit_level "High" result
  else if medium thresholds <=? score result then set_fit_level "Medium" result
  else result.

(** The enrichment names an industry, the record has no industry score yet
    and some target industry occurs in the industry named: the condition
    under which lines 339-341 run. *)
Definition confirms_industry (icp_criteria : IcpCriteria) (result : ICPResult)
    (industry : string) : bool :=
  negb (String.eqb industry "") && (industry_score result =? 0)
  && any (λ target, Str.contains (Str.lower target) (Str.lower industry))
       (target_industries icp_criteria).

(** Lines 339-341 on the record. *)
Definition confirmed (icp_criteria : IcpCriteria) (industry : string) (result : ICPResult)
  : ICPResult :=
  let weight := w_industry_match (score_weights icp_criteria) in
  set_reasoning (reasoning result +:+ "; Industry confirmed: " +:+ industry)
    (set_score (score result + weight) (set_industry_score weight result)).

End Sequences.

(** ** Orchestrator (agents/orchestrator_agent.py) *)

Module OrchestratorAgent.

(** [Company(name=..., source=...)], the other fields at their defaults. *)
Definition Company_new (name : string) : Schema.Company :=
  {| Schema.name := name; Schema.industry := ""; Schema.size := None |}.

(** [next((c for c in companies if c.name.lower() == attendee.company.lower()), None)] *)
Definition existing_for (attendee : Schema.Attendee) (companies : list Schema.Company)
  : option Schema.Company :=
  List.find
    (λ c, String.eqb (Str.lower (Schema.name c))
            (Str.lower (Schema.attendee_company attendee)))
    companies.

(** Lines 72-84 and 98-109 of [process]: a company is added for every
    loaded attendee whose affiliation is not yet listed. *)
Definition add_companies_of (loaded : list Schema.Attendee)
    (companies : list Schema.Company) : list Schema.Company :=
  foldl (λ companies attendee,
           if negb (String.eqb (Schema.attendee_company attendee) "") then
             match existing_for attendee companies with
             | Some _ => companies
             | None => companies ++ [Company_new (Schema.attendee_company attendee)]
             end
           else companies)
    companies loaded.

(** Phases 1b and 1c of [process]: the attendees read from OCR text or
    from a PDF are added to the scrape, when there are any and there is a
    scrape. *)
Definition load_attendees (loaded : list Schema.Attendee)
    (conference_data : option Schema.ConferenceData) : option Schema.ConferenceData :=
  match loaded, conference_data with
  | _ :: _, Some data =>
      Some {| Schema.speakers := Schema.speakers data;
              Schema.attendees := Schema.attendees data ++ loaded;
              Schema.companies := add_companies_of loaded (Schema.companies data) |}
  | _, _ => conference_data
  end.

(** The score written to the CSV and shown in the summary:
    [icp.final_score or icp.score]. *)
Definition shown_score (icp : ICPResult) : Z :=
  match final_score icp with
  | Some f => if f =? 0 then score icp else f
  | None => score icp
  end.

(** A cell of a CSV row. *)
Inductive Cell :=
  | Text (s : string)
  | Number (n : Z).

(** [s.split(";")[0]] *)
Fixpoint first_part (s : string) : string :=
  match s with
  | EmptyString => EmptyString
  | String c s' => if Ascii.eqb c ";" then EmptyString else String c (first_part s')
  end.

(** [{r.company_name: r for r in context.icp_results}] *)
Definition by_company (icp_results : list ICPResult) : gmap string ICPResult :=
  foldl (λ acc r, <[company_name r := r]> acc) ∅ icp_results.

(** The three cells every row ends with. *)
Definition score_cells (icp : option ICPResult) : list Cell :=
  [match icp with Some icp => Number (shown_score icp) | None => Text "" end;
   Text (match icp with Some icp => fit_level icp | None => "" end);
   Text (match icp with Some icp => reasoning icp | None => "" end)].

Definition header : list Cell :=
  [Text "Name"; Text "Title"; Text "Company"; Text "Type"; Text "Industry";
   Text "ICP Score"; Text "ICP Fit"; Text "Reasoning"].

Definition speaker_row (icp_by_company : gmap string ICPResult) (speaker : Schema.Speaker)
  : list Cell :=
  let icp := icp_by_company !! Schema.speaker_company speaker in
  [Text (Schema.speaker_name speaker); Text (Schema.speaker_title speaker);
   Text (Schema.speaker_company speaker); Text "Speaker";
   Text (match icp with Some icp => first_part (reasoning icp) | None => "" end)]
  ++ score_cells icp.

Definition attendee_row (icp_by_company : gmap string ICPResult) (attendee : Schema.Attendee)
  : list Cell :=
  let icp := icp_by_company !! Schema.attendee_company attendee in
  [Text (Schema.attendee_name attendee); Text (Schema.attendee_title attendee);
   Text (Schema.attendee_company attendee); Text "Attendee"; Text ""]
  ++ score_cells icp.

Definition company_row (icp_by_company : gmap string ICPResult) (company : Schema.Company)
  : list Cell :=
  let icp := icp_by_company !! Schema.name company in
  [Text ""; Text ""; Text (Schema.name company); Text "Logo/Sponsor";
   Text (Schema.industry company)]
  ++ score_cells icp.

(** The affiliations of the speakers and attendees, [written_companies]. *)
Definition written_companies (data : Schema.ConferenceData) : gset string :=
  list_to_set (Schema.speaker_company <$> Schema.speakers data)
  ∪ list_to_set (Schema.attendee_company <$> Schema.attendees data).

(** [export_to_csv]: the rows handed to the CSV writer, in order. *)
Definition export_to_csv (conference_data : option Schema.ConferenceData)
    (icp_results : list ICPResult) : list (list Cell) :=
  let icp_by_company := by_company icp_results in
  header ::
  match conference_data with
  | Some data =>
      (speaker_row icp_by_company <$> Schema.speakers data)
      ++ (attendee_row icp_by_company <$> Schema.attendees data)
      ++ (company_row icp_by_company
            <$> filter (λ company, Schema.name company ∉ written_companies data)
                  (Schema.companies data))
  | None => []
  end.

End OrchestratorAgent.

(** ** The validator's pass over the scrape (agents/icp_validator_agent.py) *)

Module ICPValidatorAgent.

Section Agent.

Variable gemini : option Validator.Gemini.
Variable icp_criteria : IcpCriteria.
Variable thresholds : IcpThresholds.

(** What [process] keeps: the table [_pending_validations] and the list
    [context.icp_results]. *)
Record State := {
  _pending_validations : gmap string ICPResult;
  icp_results : list ICPResult;
}.

(** One turn of the loop of [process], lines 43-77.  The two messages it
    sends are requests whose answers it drops, and their handlers write
    neither to the table nor to the list.  [None] when the turn raised. *)
Definition validate_one (data : Schema.ConferenceData) (company_name : string)
    (st : State) : option State :=
  let company_info := Details.get_company_details (Some data) company_name in
  result ← Validator._validate_company gemini icp_criteria thresholds
              company_name company_info;
  icp_results ← Context.add_icp_result result (icp_results st);
  Some {| _pending_validations := <[company_name := result]> (_pending_validations st);
          icp_results := icp_results |}.

Fixpoint validate_each (data : Schema.ConferenceData) (companies : list string)
    (st : State) : option State :=
  match companies with
  | [] => Some st
  | company_name :: rest =>
      st' ← validate_one data company_name st;
      validate_each data rest st'
  end.

(** [process] *)
Definition process (conference_data : option Schema.ConferenceData) (st : State)
  : option State :=
  match conference_data with
  | None => Some st
  | Some data => validate_each data (Context.get_companies (Some data)) st
  end.

End Agent.

(** The agent as constructed. *)
Definition new : State := {| _pending_validations := ∅; icp_results := [] |}.

End ICPValidatorAgent.

(** ** Enricher (agents/enricher_agent.py) *)

Module EnricherAgent.

(** An enrichment dict, with the keys the agents write or read; a key
    that is absent is [None]. *)
Record Enrichment := {
  e_industry : option string;
  e_size_estimate : option string;
  e_employee_count_estimate : option Z;
  e_headquarters : option string;
  e_description : option string;
  e_confidence : option string;
  e_field_service_relevance : option string;
}.

(** Truthiness of the dict: it has some key. *)
Definition nonempty (enriched : Enrichment) : bool :=
  bool_decide (e_industry enriched ≠ None) || bool_decide (e_size_estimate enriched ≠ None)
  || bool_decide (e_employee_count_estimate enriched ≠ None)
  || bool_decide (e_headquarters enriched ≠ None)
  || bool_decide (e_description enriched ≠ None)
  || bool_decide (e_confidence enriched ≠ None)
  || bool_decide (e_field_service_relevance enriched ≠ None).

(** Lines 138-146, in the order of the dict literal. *)
Definition industry_keywords : list (string * list string) :=
  [("Manufacturing", ["manufacturing"; "industrial"; "equipment"; "machinery"]);
   ("Healthcare/Medical", ["medical"; "health"; "pharma"; "biotech"; "hospital"]);
   ("Technology", ["tech"; "software"; "digital"; "data"; "cloud"]);
   ("Energy/Utilities", ["energy"; "power"; "utility"; "electric"; "gas"; "oil"]);
   ("Telecommunications", ["telecom"; "wireless"; "network"; "communications"]);
   ("Transportation", ["logistics"; "transport"; "shipping"; "freight"]);
   ("Building/Construction", ["construction"; "building"; "hvac"; "elevator"])].

(** Lines 148-151: the industry of the first entry one of whose keywords
    occurs in the lowered name. *)
Definition industry_of_name (company_name : string) : string :=
  let name_lower := Str.lower company_name in
  for_break industry_keywords
    (λ '(industry, keywords) (found : string),
       if any (λ kw, Str.contains kw name_lower) keywords
       then (industry, true) else (found, false))
    "Unknown".

(** Lines 154-159. *)
Definition relevance_of (known_info : CompanyInfo) : option string :=
  for_break (default [] (info_speakers known_info))
    (λ speaker (found : option string),
       let title := Str.lower (default "" (contact_title speaker)) in
       if Str.contains "field service" title || Str.contains "service" title
       then (Some "Has Field Service leadership", true) else (found, false))
    None.

(** [_basic_enrichment] *)
Definition _basic_enrichment (company_name : string) (known_info : CompanyInfo)
  : Enrichment :=
  {| e_industry := Some (industry_of_name company_name);
     e_size_estimate := Some "Unknown";
     e_employee_count_estimate := None;
     e_headquarters := Some "Unknown";
     e_description := Some "";
     e_confidence := Some "Low";
     e_field_service_relevance := relevance_of known_info |}.

Section Agent.

(** [self.gemini.enrich_company]; [None] when the call raised. *)
Variable gemini : option (string → CompanyInfo → option Enrichment).

Abbreviation Cache := (gmap string Enrichment).

(** [_enrich_company]: the result and the cache after the call. *)
Definition _enrich_company (company_name : string) (known_info : CompanyInfo)
    (_cache : Cache) : Enrichment * Cache :=
  match _cache !! company_name with
  | Some cached => (cached, _cache)
  | None =>
      match gemini with
      | Some enrich_company =>
          match enrich_company company_name known_info with
          | Some enriched => (enriched, <[company_name := enriched]> _cache)
          | None => (_basic_enrichment company_name known_info, _cache)
          end
      | None => (_basic_enrichment company_name known_info, _cache)
      end
  end.

(** [_infer_industry] *)
Definition _infer_industry (company_name : string) (_cache : Cache) : string :=
  match _cache !! company_name with
  | Some cached => default "Unknown" (e_industry cached)
  | None =>
      let name_lower := Str.lower company_name in
      if any (λ x, Str.contains x name_lower) ["medical"; "health"; "pharma"]
      then "Healthcare/Medical"
      else if any (λ x, Str.contains x name_lower) ["tech"; "software"; "digital"]
      then "Technology"
      else if any (λ x, Str.contains x name_lower) ["energy"; "power"; "electric"]
      then "Energy/Utilities"
      else if any (λ x, Str.contains x name_lower) ["manufacturing"; "industrial"]
      then "Manufacturing"
      else "Unknown"
  end.

(** Lines 50-58 of [process] on the fields of the company the scoring
    reads: the industry, and the size when the estimate is a non-zero
    integer. *)
Definition apply_enrichment (enriched : Enrichment) (company : Schema.Company)
  : Schema.Company :=
  if nonempty enriched then
    {| Schema.name := Schema.name company;
       Schema.industry := default (Schema.industry company) (e_industry enriched);
       Schema.size :=
         if truthy (e_employee_count_estimate enriched)
         then e_employee_count_estimate enriched
         else Schema.size company |}
  else company.

(** The loop of [process]: [done] are the companies already enriched,
    [todo] those still to come; the details of a company are read from
    the scrape as it stands when its turn comes. *)
Fixpoint enrich_each (speakers : list Schema.Speaker) (attendees : list Schema.Attendee)
    (done todo : list Schema.Company) (_cache : Cache)
  : list Schema.Company * Cache :=
  match todo with
  | [] => (done, _cache)
  | company :: rest =>
      let data := {| Schema.speakers := speakers; Schema.attendees := attendees;
                     Schema.companies := done ++ company :: rest |} in
      let known_info := Details.get_company_details (Some data) (Schema.name company) in
      let '(enriched, _cache) := _enrich_company (Schema.name company) known_info _cache in
      enrich_each speakers attendees (done ++ [apply_enrichment enriched company]) rest _cache
  end.

(** [process]: the scrape and the cache after the pass. *)
Definition process (conference_data : option Schema.ConferenceData) (_cache : Cache)
  : option Schema.ConferenceData * Cache :=
  match conference_data with
  | None => (None, _cache)
  | Some data =>
      let '(companies, _cache) :=
        enrich_each (Schema.speakers data) (Schema.attendees data) []
          (Schema.companies data) _cache in
      (Some {| Schema.speakers := Schema.speakers data;
               Schema.attendees := Schema.attendees data;
               Schema.companies := companies |}, _cache)
  end.

End Agent.

(** The industries for which some target industry of the shipped criteria
    matches, among those [_basic_enrichment] can name. *)
Definition scoring_industries : list string :=
  ["Manufacturing"; "Technology"; "Energy/Utilities"; "Telecommunications"].

End EnricherAgent.

(** ** The validator's pending records as objects
    (agents/icp_validator_agent.py, [handle_message])

    The table [_pending_validations] holds references: the record stored
    under a name by [process] is the instance handed to
    [context.add_icp_result], so the table and the context share it. *)

Module Pending.

Import Store.

(** Slots of an [ICPResult] instance, in declaration order. *)
Definition attr_company_name : nat := 0.
Definition attr_score : nat := 1.
Definition attr_fit_level : nat := 2.
Definition attr_reasoning : nat := 3.
Definition attr_industry_score : nat := 4.
Definition attr_final_score : nat := 12.

(** [obj.attr] and [obj.attr = v] on the instance at [l]. *)
Definition field (h : heap) (l : loc) (attr : nat) : option pyval :=
  o ← h !! l; py_slots o !! attr.

Definition assign (h : heap) (l : loc) (attr : nat) (v : pyval) : option heap :=
  o ← h !! l;
  Some (<[l := PyObj (py_class o) (<[attr := v]> (py_slots o))]> h).

Definition int_field (h : heap) (l : loc) (attr : nat) : option Z :=
  v ← field h l attr;
  match v with VInt z => Some z | _ => None end.

Definition str_field (h : heap) (l : loc) (attr : nat) : option string :=
  v ← field h l attr;
  match v with VStr s => Some s | _ => None end.

Definition bool_field (h : heap) (l : loc) (attr : nat) : option bool :=
  v ← field h l attr;
  match v with VBool b => Some b | _ => None end.

(** The field values of the [ICPResult] instance at [l], as
    [model_dump()] and the attribute reads of [_handle_dispute] give
    them. *)
Definition ICPResult_at (h : heap) (l : loc) : option ICPResult :=
  o ← h !! l;
  if negb (String.eqb (py_class o) "ICPResult") then None else
  company_name ← str_field h l 0;
  score ← int_field h l 1;
  fit_level ← str_field h l 2;
  reasoning ← str_field h l 3;
  industry_score ← int_field h l 4;
  title_score ← int_field h l 5;
  department_score ← int_field h l 6;
  size_score ← int_field h l 7;
  speaker_bonus ← int_field h l 8;
  validated_by ← str_field h l 9;
  disputed ← bool_field h l 10;
  dispute_reason ← str_field h l 11;
  final ← field h l 12;
  final_score ← match final with
                | VNone => Some None
                | VInt z => Some (Some z)
                | _ => None
                end;
  Some {| company_name := company_name; score := score; fit_level := fit_level;
          reasoning := reasoning; industry_score := industry_score;
          title_score := title_score; department_score := department_score;
          size_score := size_score; speaker_bonus := speaker_bonus;
          validated_by := validated_by; disputed := disputed;
          dispute_reason := dispute_reason; final_score := final_score |}.

(** The agent: the table, and the store its references point into. *)
Record Agent := {
  _pending_validations : gmap string loc;
  objects : heap;
}.

Section Agent.

Variable gemini : option Validator.Gemini.
Variable icp_criteria : IcpCriteria.
Variable thresholds : IcpThresholds.

(** Lines 304-307 and 309-312 on the new instance. *)
Definition accept_if_reasonable (original : ICPResult) (suggested_score : option Z)
    (revised : loc) (h : heap) : option heap :=
  match suggested_score with
  | Some s =>
      if Validator.accepts original suggested_score then
        h ← assign h revised attr_score (VInt s);
        assign h revised attr_final_score (VInt s)
      else Some h
  | None => Some h
  end.

(** [_handle_dispute]: a new instance is built from the fields of the
    original, changed by assignment and bound in the table under the
    original's name; the original instance is only read.  [None] when the
    constructor raised. *)
Definition _handle_dispute (original : loc) (dispute_reason : string)
    (suggested_score : option Z) (self : Agent) : option (loc * Agent) :=
  let h := objects self in
  o ← ICPResult_at h original;
  built ← ICPResult_new
    {| company_name := company_name o; score := score o;
       fit_level := fit_level o; reasoning := reasoning o;
       industry_score := industry_score o; title_score := title_score o;
       department_score := department_score o; size_score := size_score o;
       speaker_bonus := speaker_bonus o; validated_by := validated_by o;
       disputed := true; dispute_reason := dispute_reason; final_score := None |};
  let '(revised, h) := alloc (ICPResult_obj built) h in
  h ← match gemini with
       | Some g =>
           match Validator.resolve_dispute g o dispute_reason suggested_score with
           | Some resolution =>
               original_score ← int_field h original attr_score;
               h ← assign h revised attr_final_score
                     (VInt (default original_score (Validator.o_final_score resolution)));
               final_score ← field h revised attr_final_score;
               h ← assign h revised attr_score final_score;
               original_fit ← str_field h original attr_fit_level;
               h ← assign h revised attr_fit_level
                     (VStr (default original_fit (Validator.o_final_fit_level resolution)));
               original_reasoning ← str_field h original attr_reasoning;
               assign h revised attr_reasoning
                 (VStr (original_reasoning +:+ " | Dispute resolved: "
                        +:+ default "" (Validator.o_explanation resolution)))
           | None => accept_if_reasonable o suggested_score revised h
           end
       | None => accept_if_reasonable o suggested_score revised h
       end;
  revised_score ← int_field h revised attr_score;
  h ← assign h revised attr_fit_level (VStr (Validator.fit_of thresholds revised_score));
  name ← str_field h original attr_company_name;
  Some (revised,
        {| _pending_validations := <[name := revised]> (_pending_validations self);
           objects := h |}).

(** [_update_with_enrichment]: the instance bound under the name is
    changed in place; [industry] is [enrichment.get("industry", "")]. *)
Definition _update_with_enrichment (company_name : string) (industry : string)
    (self : Agent) : option Agent :=
  match _pending_validations self !! company_name with
  | None => Some self
  | Some result =>
      let h := objects self in
      industry_score ← int_field h result attr_industry_score;
      h ← (if negb (String.eqb industry "") && (industry_score =? 0) then
             for_break (target_industries icp_criteria)
               (λ target (h : option heap),
                  if Str.contains (Str.lower target) (Str.lower industry) then
                    (h ← h;
                     h ← assign h result attr_industry_score
                           (VInt (w_industry_match (score_weights icp_criteria)));
                     score ← int_field h result attr_score;
                     industry_score ← int_field h result attr_industry_score;
                     h ← assign h result attr_score (VInt (score + industry_score));
                     reasoning ← str_field h result attr_reasoning;
                     assign h result attr_reasoning
                       (VStr (reasoning +:+ "; Industry confirmed: " +:+ industry)),
                     true)
                  else (h, false))
               (Some h)
           else Some h);
      score ← int_field h result attr_score;
      h ← (if high thresholds <=? score then assign h result attr_fit_level (VStr "High")
           else if medium thresholds <=? score
           then assign h result attr_fit_level (VStr "Medium")
           else Some h);
      Some {| _pending_validations := _pending_validations self; objects := h |}
  end.

(** The answer to a dispute: the payload of [dispute_resolved]. *)
Record Resolved := {
  resolved_company_name : string;
  original_score : Z;
  revised_score : Z;
  accepted : bool;
}.

(** [handle_message] on [dispute_score], lines 120-145; the payload is
    given by its three entries. *)
Definition dispute_score (company_name dispute_reason : string) (suggested_score : option Z)
    (self : Agent) : option (option Resolved * Agent) :=
  match _pending_validations self !! company_name with
  | Some original =>
      '(revised, self') ← _handle_dispute original dispute_reason suggested_score self;
      original_score ← int_field (objects self') original attr_score;
      revised_score ← int_field (objects self') revised attr_score;
      Some (Some {| resolved_company_name := company_name;
                    original_score := original_score;
                    revised_score := revised_score;
                    accepted := negb (revised_score =? original_score) |},
            self')
  | None => Some (None, self)
  end.

(** [handle_message] on [company_enriched], lines 147-154. *)
Definition company_enriched (company_name industry : string) (self : Agent)
  : option Agent :=
  match _pending_validations self !! company_name with
  | Some _ => _update_with_enrichment company_name industry self
  | None => Some self
  end.

End Agent.

End Pending.

(** ** A stored checkpoint under later calls *)

Module Checkpoints.

Import Store.

(** The context [self] keeps the copy stored under [name]: the table
    still binds the name to [c], the objects the copy consisted of when it
    was made, those reachable from [c] in [h0], are as they were, and
    neither the live [AgentContext] nor anything it refers to directly is
    among them. *)
Definition keeps (h0 : heap) (c : loc) (name : string) (self : SharedContext) : Prop :=
  _checkpoints self !! name = Some c ∧
  (∀ l, reach h0 c l → store self !! l = h0 !! l) ∧
  ¬ reach h0 c (context self) ∧
  (∀ o v, store self !! context self = Some o → VRef v ∈ py_slots o → ¬ reach h0 c v).

(** A copied value refers outside the stored copy, unless it is a scalar
    returned as it is. *)
Definition outside (h0 : heap) (c : loc) (x y : pyval) : Prop :=
  ∀ l, y = VRef l → ¬ reach h0 c l ∨ (x = y ∧ ∀ l0, x ≠ VRef l0).

End Checkpoints.

(** * Properties *)

(** ** Loops with [break] *)

(** A loop that sets a score and appends a trace on the first element
    satisfying [c], then breaks. *)
Lemma for_break_find {A} (c : A → bool) (w : Z) (g : A → string) xs sc0 (parts0 : list string) :
  for_break xs
    (λ t '(sc, parts), if c t then ((w, parts ++ [g t]), true) else ((sc, parts), false))
    (sc0, parts0)
  = match List.find c xs with
    | Some t => (w, parts0 ++ [g t])
    | None => (sc0, parts0)
    end.
Proof.
  induction xs as [|x xs IH]; simpl; [reflexivity|].
  destruct (c x); [reflexivity | exact IH].
Qed.

Lemma find_none_existsb {A} (c : A → bool) xs :
  List.find c xs = None ↔ existsb c xs = false.
Proof.
  induction xs as [|x xs IH]; simpl; [tauto|].
  destruct (c x); simpl; [split; discriminate | exact IH].
Qed.

Lemma find_some_existsb {A} (c : A → bool) xs t :
  List.find c xs = Some t → existsb c xs = true.
Proof.
  intros H. destruct (existsb c xs) eqn:E; [reflexivity|].
  apply find_none_existsb in E. congruence.
Qed.

(** A loop over contacts whose body runs an inner first-match loop and
    breaks once the score is positive. *)
Lemma for_break_nested {A B} (c : A → B → bool) (w : Z) (g : A → B → string)
    (ys : list B) xs (parts0 : list string) :
  0 < w →
  for_break xs
    (λ x acc,
       let acc' :=
         for_break ys
           (λ t '(sc, parts),
              if c x t then ((w, parts ++ [g x t]), true) else ((sc, parts), false))
           acc in
       (acc', 0 <? fst acc'))
    (0, parts0)
  = match List.find (λ x, existsb (c x) ys) xs with
    | Some x =>
        match List.find (c x) ys with
        | Some t => (w, parts0 ++ [g x t])
        | None => (0, parts0)
        end
    | None => (0, parts0)
    end.
Proof.
  intros Hw. induction xs as [|x xs IH]; simpl; [reflexivity|].
  rewrite (for_break_find (c x) w (g x)).
  destruct (List.find (c x) ys) as [t|] eqn:E.
  - rewrite (find_some_existsb _ _ _ E). simpl.
    destruct (0 <? w) eqn:Hlt; [|apply Z.ltb_ge in Hlt; lia].
    try rewrite E. reflexivity.
  - apply find_none_existsb in E. rewrite E. simpl. exact IH.
Qed.

(** ** Rule-based scoring *)

Lemma ICPResult_new_ok r : 0 ≤ score r ≤ 100 → ICPResult_new r = Some r.
Proof. intros H. unfold ICPResult_new. destruct (decide _); [reflexivity | contradiction]. Qed.

Lemma ICPResult_new_Some r r' :
  ICPResult_new r = Some r' → r' = r ∧ 0 ≤ score r ≤ 100.
Proof.
  unfold ICPResult_new. destruct (decide _); [|discriminate].
  intros [= <-]. split; [reflexivity | assumption].
Qed.

Section BlockFacts.

Variable crit : IcpCriteria.
Variable info : CompanyInfo.

Lemma industry_block_fires parts :
  Rules.fires (Rules.industry_matches crit info) (w_industry_match (score_weights crit)) parts
    (Validator.industry_block crit info parts).
Proof.
  unfold Rules.fires, Rules.industry_matches, Validator.industry_block, any.
  set (c := λ target : string,
         Str.contains (Str.lower target) (Str.lower (default "" (info_industry info)))
         || Str.contains (Str.lower (default "" (info_industry info))) (Str.lower target)).
  rewrite (for_break_find c (w_industry_match (score_weights crit))
             (λ t, "Industry match: " +:+ t)).
  destruct (List.find c (target_industries crit)) as [t|] eqn:E.
  - rewrite (find_some_existsb _ _ _ E). simpl. eauto.
  - apply find_none_existsb in E. rewrite E. reflexivity.
Qed.

Lemma nested_fires {A B} (c : A → B → bool) (w : Z) (g : A → B → string)
    (ys : list B) (xs : list A) parts out :
  out = match List.find (λ x, existsb (c x) ys) xs with
        | Some x =>
            match List.find (c x) ys with
            | Some t => (w, parts ++ [g x t])
            | None => (0, parts)
            end
        | None => (0, parts)
        end →
  Rules.fires (existsb (λ x, existsb (c x) ys) xs) w parts out.
Proof.
  intros ->. unfold Rules.fires.
  destruct (List.find (λ x, existsb (c x) ys) xs) as [x|] eqn:E.
  - rewrite (find_some_existsb _ _ _ E).
    apply find_some in E as [_ E].
    destruct (List.find (c x) ys) as [t|] eqn:E'.
    + simpl. eauto.
    + apply find_none_existsb in E'. congruence.
  - apply find_none_existsb in E. rewrite E. reflexivity.
Qed.

Lemma title_block_fires parts :
  0 < w_title_match (score_weights crit) →
  Rules.fires (Rules.title_matches crit info) (w_title_match (score_weights crit)) parts
    (Validator.title_block crit info parts).
Proof.
  intros Hw. unfold Rules.title_matches, Rules.some_title_contains, any.
  apply (nested_fires
           (λ speaker t, Str.contains (Str.lower t) (Str.lower (Validator.title_of speaker)))
           _ (λ speaker _, "Title match: " +:+ Validator.title_of speaker)).
  unfold Validator.title_block.
  exact (for_break_nested _ _ _ _ _ _ Hw).
Qed.

Lemma department_block_fires parts :
  0 < w_department_match (score_weights crit) →
  Rules.fires (Rules.department_matches crit info) (w_department_match (score_weights crit)) parts
    (Validator.department_block crit info parts).
Proof.
  intros Hw. unfold Rules.department_matches, Rules.some_title_contains, any.
  apply (nested_fires
           (λ speaker t, Str.contains (Str.lower t) (Str.lower (Validator.title_of speaker)))
           _ (λ _ dept, "Department match: " +:+ dept)).
  unfold Validator.department_block.
  exact (for_break_nested _ _ _ _ _ _ Hw).
Qed.

Lemma size_block_points parts :
  let out := Validator.size_block crit info parts in
  fst out = Rules.size_points crit (Rules.known_size info) ∧
  (out = (0, parts) ∨
   (∃ entry, snd out = parts ++ [entry]) ∧
   (fst out = w_company_size (score_weights crit) ∨ fst out = w_company_size (score_weights crit) `div` 2)).
Proof.
  unfold Validator.size_block, Rules.known_size, Rules.size_points, py_or, truthy.
  destruct (info_size info) as [n|], (info_employee_count info) as [e|]; simpl;
    repeat match goal with
    | |- context [?a =? 0] => destruct (Z.eqb_spec a 0); simpl
    end;
    repeat match goal with
    | |- context [?a <=? ?b] => destruct (Z.leb_spec a b); simpl
    end;
    try (exfalso; lia);
    (split; [reflexivity|]);
    first [ left; reflexivity
          | right; split; [eexists; reflexivity | first [left; reflexivity | right; reflexivity]] ].
Qed.

Lemma speaker_block_fires parts :
  Rules.fires (Rules.has_contact info) (w_speaker_bonus (score_weights crit)) parts
    (Validator.speaker_block crit info parts).
Proof.
  unfold Rules.fires, Rules.has_contact, Validator.speaker_block.
  destruct (Validator.speakers_of info); simpl; eauto.
Qed.

End BlockFacts.

(** The five blocks of [_rule_based_validation] under the shipped
    configuration, and the trace they leave. *)
Lemma rule_based_shape (name : string) (info : CompanyInfo) :
  let i := if Rules.industry_matches ICP_CRITERIA info then 30 else 0 in
  let t := if Rules.title_matches ICP_CRITERIA info then 25 else 0 in
  let d := if Rules.department_matches ICP_CRITERIA info then 20 else 0 in
  let s := Rules.size_points ICP_CRITERIA (Rules.known_size info) in
  let b := if Rules.has_contact info then 10 else 0 in
  ∃ r, Validator._rule_based_validation ICP_CRITERIA ICP_THRESHOLDS name info = Some r ∧
       company_name r = name ∧
       industry_score r = i ∧ title_score r = t ∧ department_score r = d ∧
       size_score r = s ∧ speaker_bonus r = b ∧
       score r = i + t + d + s + b ∧
       fit_level r = Validator.fit_of ICP_THRESHOLDS (score r) ∧
       final_score r = None ∧
       (s = 0 ∨ s = 7 ∨ s = 15) ∧
       (i + t + d + s + b = 0 → reasoning r = "Insufficient data for scoring").
Proof.
  intros i t d s b. unfold Validator._rule_based_validation.
  pose proof (industry_block_fires ICP_CRITERIA info []) as Hi.
  destruct (Validator.industry_block ICP_CRITERIA info []) as [i' p1].
  pose proof (title_block_fires ICP_CRITERIA info p1 ltac:(simpl; lia)) as Ht.
  destruct (Validator.title_block ICP_CRITERIA info p1) as [t' p2].
  pose proof (department_block_fires ICP_CRITERIA info p2 ltac:(simpl; lia)) as Hd.
  destruct (Validator.department_block ICP_CRITERIA info p2) as [d' p3].
  pose proof (size_block_points ICP_CRITERIA info p3) as Hs.
  destruct (Validator.size_block ICP_CRITERIA info p3) as [s' p4].
  pose proof (speaker_block_fires ICP_CRITERIA info p4) as Hb.
  destruct (Validator.speaker_block ICP_CRITERIA info p4) as [b' p5].
  assert (Hi' : i' = i ∧ (i = 0 → p1 = [])).
  { unfold Rules.fires in Hi. subst i.
    destruct (Rules.industry_matches ICP_CRITERIA info); simpl in Hi.
    - destruct Hi as [-> _]. split; [reflexivity | discriminate].
    - injection Hi as -> ->. auto. }
  assert (Ht' : t' = t ∧ (t = 0 → p2 = p1)).
  { unfold Rules.fires in Ht. subst t.
    destruct (Rules.title_matches ICP_CRITERIA info); simpl in Ht.
    - destruct Ht as [-> _]. split; [reflexivity | discriminate].
    - injection Ht as -> ->. auto. }
  assert (Hd' : d' = d ∧ (d = 0 → p3 = p2)).
  { unfold Rules.fires in Hd. subst d.
    destruct (Rules.department_matches ICP_CRITERIA info); simpl in Hd.
    - destruct Hd as [-> _]. split; [reflexivity | discriminate].
    - injection Hd as -> ->. auto. }
  assert (Hs' : s' = s ∧ (s = 0 ∨ s = 7 ∨ s = 15) ∧ (s = 0 → p4 = p3)).
  { simpl in Hs. destruct Hs as [Hs1 Hs2]. fold s in Hs1. subst s'. split; [reflexivity|].
    destruct Hs2 as [[= Hs0 ->] | [_ [Hw | Hw]]].
    - split; [left; exact Hs0 | reflexivity].
    - change (s = 15) in Hw. split; [auto | lia].
    - change (s = 7) in Hw. split; [auto | lia]. }
  assert (Hb' : b' = b ∧ (b = 0 → p5 = p4)).
  { unfold Rules.fires in Hb. subst b.
    destruct (Rules.has_contact info); simpl in Hb.
    - destruct Hb as [-> _]. split; [reflexivity | discriminate].
    - injection Hb as -> ->. auto. }
  destruct Hi' as [-> Hp1], Ht' as [-> Hp2], Hd' as [-> Hp3],
           Hs' as (-> & Hs3 & Hp4), Hb' as [-> Hp5].
  assert (Hrange : 0 ≤ i + t + d + s + b ≤ 100).
  { subst i t d b.
    destruct (Rules.industry_matches _ _), (Rules.title_matches _ _),
      (Rules.department_matches _ _), (Rules.has_contact _); lia. }
  assert (Hnn : 0 ≤ i ∧ 0 ≤ t ∧ 0 ≤ d ∧ 0 ≤ b).
  { subst i t d b.
    destruct (Rules.industry_matches _ _), (Rules.title_matches _ _),
      (Rules.department_matches _ _), (Rules.has_contact _); lia. }
  eexists. split; [apply ICPResult_new_ok; exact Hrange|]. simpl.
  repeat split; try reflexivity; try exact Hs3.
  intros Hz.
  assert (p5 = []) as ->.
  { rewrite Hp5, Hp4, Hp3, Hp2, Hp1 by lia. reflexivity. }
  reflexivity.
Qed.



(** ** Dispute resolution *)

Lemma fit_of_meaning (s : Z) :
  (Validator.fit_of ICP_THRESHOLDS s = "High" ↔ 75 ≤ s) ∧
  (Validator.fit_of ICP_THRESHOLDS s = "Medium" ↔ 50 ≤ s < 75) ∧
  (Validator.fit_of ICP_THRESHOLDS s = "Low" ↔ s < 50).
Proof.
  unfold Validator.fit_of. simpl.
  destruct (Z.leb_spec 75 s); [|destruct (Z.leb_spec 50 s)];
    repeat split; intros; try lia; try reflexivity; try discriminate.
Qed.

Lemma update_fit_level_score thr r :
  score (Validator.update_fit_level thr r) = score r.
Proof. reflexivity. Qed.

Lemma update_fit_level_final thr r :
  final_score (Validator.update_fit_level thr r) = final_score r.
Proof. reflexivity. Qed.

Lemma update_fit_level_fit thr r :
  fit_level (Validator.update_fit_level thr r) = Validator.fit_of thr (score r).
Proof. reflexivity. Qed.

(** What the bounded-delta fallback leaves in the revised record. *)
Lemma accept_if_reasonable_cases original suggested revised :
  score revised = score original → final_score revised = None →
  let out := Validator.accept_if_reasonable original suggested revised in
  (∃ s, suggested = Some s ∧ s ≠ 0 ∧ Z.abs (s - score original) ≤ 20 ∧
        score out = s ∧ final_score out = Some s)
  ∨ ((∀ s, suggested = Some s → s = 0 ∨ 20 < Z.abs (s - score original)) ∧
     out = revised).
Proof.
  intros Hs Hf. unfold Validator.accept_if_reasonable, Validator.accepts,
    Validator.within_delta, truthy.
  destruct suggested as [s|]; simpl.
  - destruct (Z.eqb_spec s 0) as [->|Hne]; simpl.
    + right. split; [intros ? [= <-]; left; reflexivity | reflexivity].
    + destruct (Z.leb_spec (Z.abs (s - score original)) 20).
      * left. exists s. repeat split; assumption.
      * right. split; [intros ? [= <-]; right; assumption | reflexivity].
  - right. split; [intros ? [=] | reflexivity].
Qed.

(** Without a usable oracle [_handle_dispute] is the bounded-delta
    fallback followed by the fit-level ladder. *)
Lemma handle_dispute_fallback gemini thr original reason suggested :
  Disputes.oracle_unavailable gemini original reason suggested →
  0 ≤ score original ≤ 100 →
  ∃ revised0,
    score revised0 = score original ∧ final_score revised0 = None ∧
    Validator._handle_dispute gemini thr original reason suggested =
      Some (Validator.update_fit_level thr
              (Validator.accept_if_reasonable original suggested revised0)).
Proof.
  intros Hun Hrange. unfold Validator._handle_dispute.
  rewrite ICPResult_new_ok by exact Hrange. simpl.
  eexists. split; [|split]; [| |destruct gemini as [g|]; [simpl in Hun; rewrite Hun|]; reflexivity];
    reflexivity.
Qed.

(** C1, as amended. When no oracle is configured, or the oracle call
    failed, [_handle_dispute] returns a record whose effective score is
    within 20 points of the original score: the suggested score is
    accepted exactly when it is present, not zero, and within 20 points of
    the original; otherwise the original score is kept and no final score
    is set.  In both cases the fit level is recomputed from the two
    thresholds: High from 75, Medium from 50, Low below. *)
Theorem dispute_without_oracle_bounded
    (gemini : option Validator.Gemini) (original : ICPResult) (reason : string)
    (suggested : option Z) :
  0 ≤ score original ≤ 100 →
  Disputes.oracle_unavailable gemini original reason suggested →
  ∃ revised,
    Validator._handle_dispute gemini ICP_THRESHOLDS original reason suggested
      = Some revised ∧
    Z.abs (effective_score revised - score original) ≤ 20 ∧
    ((∃ s, suggested = Some s ∧ s ≠ 0 ∧ Z.abs (s - score original) ≤ 20 ∧
           score revised = s ∧ final_score revised = Some s)
     ∨ ((∀ s, suggested = Some s → s = 0 ∨ 20 < Z.abs (s - score original)) ∧
        score revised = score original ∧ final_score revised = None)) ∧
    fit_level revised = (if 75 <=? score revised then "High"
                         else if 50 <=? score revised then "Medium" else "Low").
Proof.
  intros Hrange Hun.
  destruct (handle_dispute_fallback gemini ICP_THRESHOLDS original reason suggested
              Hun Hrange) as (revised0 & Hs0 & Hf0 & ->).
  eexists. split; [reflexivity|].
  destruct (accept_if_reasonable_cases original suggested revised0 Hs0 Hf0)
    as [(s & -> & Hne & Hd & Hs & Hf) | [Hrej Hout]].
  - split; [|split].
    + unfold effective_score. rewrite update_fit_level_final, Hf. exact Hd.
    + left. exists s. rewrite update_fit_level_score, update_fit_level_final. auto.
    + reflexivity.
  - rewrite Hout. split; [|split].
    + unfold effective_score. rewrite update_fit_level_final, update_fit_level_score, Hf0, Hs0.
      lia.
    + right. rewrite update_fit_level_score, update_fit_level_final. auto.
    + reflexivity.
Qed.

Lemma dispute_without_oracle_bounded_witness :
  ∃ revised,
    Validator._handle_dispute None ICP_THRESHOLDS (Disputes.scored "Acme" 40 "Low")
      "Company has 1 speaker(s) but score is only 40" (Some 55) = Some revised ∧
    Z.abs (effective_score revised - 40) ≤ 20 ∧
    fit_level revised = "Medium".
Proof.
  destruct (dispute_without_oracle_bounded None (Disputes.scored "Acme" 40 "Low")
              "Company has 1 speaker(s) but score is only 40" (Some 55))
    as (revised & Hr & Hd & _ & _).
  - simpl. lia.
  - exact I.
  - exists revised. split; [exact Hr|]. split; [exact Hd|].
    vm_compute in Hr. injection Hr as <-. reflexivity.
Defined.

(** C1 as stated fails: a suggested score of 0 is 10 points away from an
    original score of 10, yet it is not accepted. *)
Lemma dispute_zero_suggestion_kept_original :
  Z.abs (0 - score (Disputes.scored "Acme" 10 "Low")) ≤ 20 ∧
  ∃ revised,
    Validator._handle_dispute None ICP_THRESHOLDS (Disputes.scored "Acme" 10 "Low")
      "quality agent asks for zero" (Some 0) = Some revised ∧
    score revised = 10 ∧ score revised ≠ 0 ∧ final_score revised = None.
Proof.
  split; [simpl; lia|].
  eexists. split; [vm_compute; reflexivity|]. simpl.
  repeat split. discriminate.
Qed.

(** C9. In dispute resolution without a usable oracle a suggested score
    that is absent or 0 is never accepted, the test being on the
    truthiness of the suggestion: the original score is kept and the final
    score stays unset, also for an original score of at most 20, where the
    delta test on its own would accept 0. *)
Theorem dispute_falsy_suggestion_rejected
    (gemini : option Validator.Gemini) (original : ICPResult) (reason : string)
    (suggested : option Z) :
  0 ≤ score original ≤ 100 →
  Disputes.oracle_unavailable gemini original reason suggested →
  suggested = None ∨ suggested = Some 0 →
  Validator.accepts original suggested = false ∧
  (score original ≤ 20 → Validator.within_delta original 0 = true) ∧
  ∃ revised,
    Validator._handle_dispute gemini ICP_THRESHOLDS original reason suggested
      = Some revised ∧
    score revised = score original ∧ final_score revised = None ∧
    effective_score revised = score original.
Proof.
  intros Hrange Hun Hfalsy.
  split; [destruct Hfalsy as [-> | ->]; reflexivity|].
  split; [intros Hle; unfold Validator.within_delta; apply Z.leb_le; lia|].
  destruct (handle_dispute_fallback gemini ICP_THRESHOLDS original reason suggested
              Hun Hrange) as (revised0 & Hs0 & Hf0 & ->).
  eexists. split; [reflexivity|].
  assert (Validator.accept_if_reasonable original suggested revised0 = revised0) as ->.
  { destruct Hfalsy as [-> | ->]; reflexivity. }
  unfold effective_score. rewrite update_fit_level_final, update_fit_level_score, Hf0. auto.
Qed.

Lemma dispute_falsy_suggestion_rejected_witness :
  Validator.within_delta (Disputes.scored "Acme" 10 "Low") 0 = true ∧
  ∃ revised,
    Validator._handle_dispute (Some Disputes.failing_oracle) ICP_THRESHOLDS
      (Disputes.scored "Acme" 10 "Low") "quality agent asks for zero" (Some 0)
      = Some revised ∧
    score revised = 10 ∧ final_score revised = None.
Proof.
  destruct (dispute_falsy_suggestion_rejected (Some Disputes.failing_oracle)
              (Disputes.scored "Acme" 10 "Low") "quality agent asks for zero" (Some 0))
    as (_ & Hd & revised & Hr & Hs & Hf & _).
  - simpl. lia.
  - reflexivity.
  - right. reflexivity.
  - split; [apply Hd; simpl; lia|].
    exists revised. auto.
Defined.

(** ** Score range and fit level *)

Lemma for_break_first {A S} (c : A → bool) (f : A → S → S) xs (s : S) :
  for_break xs (λ x s, if c x then (f x s, true) else (s, false)) s
  = match List.find c xs with
    | Some x => f x s
    | None => s
    end.
Proof.
  induction xs as [|x xs IH]; simpl; [reflexivity|].
  destruct (c x); [reflexivity | exact IH].
Qed.

(** The closing ladder of [_update_with_enrichment], which has no rung
    for Low. *)
Lemma enrichment_ladder thr x :
  let r' := if high thr <=? score x then set_fit_level "High" x
            else if medium thr <=? score x then set_fit_level "Medium" x
            else x in
  final_score r' = final_score x ∧ score r' = score x ∧
  fit_level r' = (if high thr <=? score x then "High"
                  else if medium thr <=? score x then "Medium"
                  else fit_level x).
Proof.
  simpl. destruct (high thr <=? score x); [|destruct (medium thr <=? score x)];
    repeat split; reflexivity.
Qed.

(** An enrichment update adds the industry weight to the score at most
    once, and only to a record whose industry score is 0; it leaves the
    final score alone. *)
Lemma update_with_enrichment_cases crit thr r industry :
  let r' := Validator._update_with_enrichment crit thr r industry in
  final_score r' = final_score r ∧
  (score r' = score r ∨
   (industry_score r = 0 ∧
    score r' = score r + w_industry_match (score_weights crit))) ∧
  fit_level r' = (if high thr <=? score r' then "High"
                  else if medium thr <=? score r' then "Medium"
                  else fit_level r).
Proof.
  unfold Validator._update_with_enrichment.
  set (c := λ target : string, Str.contains (Str.lower target) (Str.lower industry)).
  match goal with
  | |- context [if high thr <=? score ?x then _ else _] => set (mid := x)
  end.
  assert (Hmid : final_score mid = final_score r ∧ fit_level mid = fit_level r ∧
                 (score mid = score r ∨
                  (industry_score r = 0 ∧
                   score mid = score r + w_industry_match (score_weights crit)))).
  { subst mid.
    destruct (negb (String.eqb industry "") && (industry_score r =? 0)) eqn:Hguard;
      [|auto].
    apply andb_true_iff in Hguard as [_ Hz]. apply Z.eqb_eq in Hz.
    rewrite (for_break_first c
               (λ _ result,
                  set_reasoning (reasoning _ +:+ "; Industry confirmed: " +:+ industry)
                    (set_score _ (set_industry_score _ result)))).
    destruct (List.find c (target_industries crit)); simpl; auto. }
  destruct Hmid as (Hf & Hfit & Hs).
  destruct (enrichment_ladder thr mid) as (Hf' & Hs' & Hfit').
  simpl in *. rewrite Hf', Hs', Hfit', Hf, Hfit. auto.
Qed.

(** [_handle_dispute] ends on the fit-level ladder whatever path it took,
    and sets the final score only together with the score. *)
Lemma handle_dispute_fit gemini thr original reason suggested revised :
  Validator._handle_dispute gemini thr original reason suggested = Some revised →
  fit_level revised = Validator.fit_of thr (score revised) ∧
  (final_score revised = None ∨ final_score revised = Some (score revised)).
Proof.
  unfold Validator._handle_dispute.
  destruct (ICPResult_new _) as [revised0|] eqn:Hnew; [|discriminate]. simpl.
  apply ICPResult_new_Some in Hnew as [-> _].
  intros [= <-]. split; [reflexivity|].
  rewrite update_fit_level_final, update_fit_level_score.
  destruct gemini as [g|].
  - destruct (Validator.resolve_dispute g original reason suggested).
    + right. reflexivity.
    + unfold Validator.accept_if_reasonable.
      destruct suggested as [s|]; [destruct (Validator.accepts _ _)|]; auto.
  - unfold Validator.accept_if_reasonable.
    destruct suggested as [s|]; [destruct (Validator.accepts _ _)|]; auto.
Qed.

(** C2, as amended. Every record returned by validation has a score in
    [0, 100].  A record produced by rule-based scoring also has the fit
    level of its effective score (High iff at least 75, Medium iff at least
    50 and below 75, Low otherwise), and an enrichment update applied to
    it preserves both.  A record built from an oracle's answer carries the
    oracle's fit level as returned.  Every record returned by dispute
    resolution has the fit level of its effective score, and without a
    usable oracle its score is in [0, 100] whenever the suggested score
    is. *)
Theorem score_range_and_fit_level
    (gemini : option Validator.Gemini) (name : string) (info : CompanyInfo) :
  (∃ r, Validator._validate_company gemini ICP_CRITERIA ICP_THRESHOLDS name info = Some r ∧
        0 ≤ score r ≤ 100 ∧
        (match gemini with
         | Some g =>
             Validator.oracle_validation ICP_CRITERIA g name info = Some r
             ∨ (Validator.oracle_validation ICP_CRITERIA g name info = None ∧
                Validator._rule_based_validation ICP_CRITERIA ICP_THRESHOLDS name info
                  = Some r)
         | None =>
             Validator._rule_based_validation ICP_CRITERIA ICP_THRESHOLDS name info = Some r
         end)) ∧
  (∃ r, Validator._rule_based_validation ICP_CRITERIA ICP_THRESHOLDS name info = Some r ∧
        0 ≤ score r ≤ 100 ∧
        fit_level r = Validator.fit_of ICP_THRESHOLDS (effective_score r) ∧
        ∀ industry,
          let r' := Validator._update_with_enrichment ICP_CRITERIA ICP_THRESHOLDS r industry in
          0 ≤ score r' ≤ 100 ∧
          fit_level r' = Validator.fit_of ICP_THRESHOLDS (effective_score r')) ∧
  (∀ original reason suggested revised,
     Validator._handle_dispute gemini ICP_THRESHOLDS original reason suggested
       = Some revised →
     fit_level revised = Validator.fit_of ICP_THRESHOLDS (effective_score revised) ∧
     (Disputes.oracle_unavailable gemini original reason suggested →
      (∀ s, suggested = Some s → 0 ≤ s ≤ 100) →
      0 ≤ score revised ≤ 100)) ∧
  (∀ s, (Validator.fit_of ICP_THRESHOLDS s = "High" ↔ 75 ≤ s) ∧
        (Validator.fit_of ICP_THRESHOLDS s = "Medium" ↔ 50 ≤ s < 75) ∧
        (Validator.fit_of ICP_THRESHOLDS s = "Low" ↔ s < 50)).
Proof.
  destruct (rule_based_shape name info)
    as (rb & Hrb & _ & Hi & Ht & Hd & Hs & Hb & Hsc & Hfit & Hfin & Hs3 & _).
  assert (Hparts :
            0 ≤ title_score rb + department_score rb + size_score rb + speaker_bonus rb ≤ 70
            ∧ (industry_score rb = 0 ∨ industry_score rb = 30)).
  { rewrite Hi, Ht, Hd, Hs, Hb.
    destruct (Rules.industry_matches _ _), (Rules.title_matches _ _),
      (Rules.department_matches _ _), (Rules.has_contact _); lia. }
  assert (Hrange : 0 ≤ score rb ≤ 100).
  { rewrite Hsc. rewrite Hi, Ht, Hd, Hs, Hb in Hparts. lia. }
  split; [|split; [|split]].
  - unfold Validator._validate_company. destruct gemini as [g|].
    + destruct (Validator.oracle_validation ICP_CRITERIA g name info) as [r|] eqn:Ho.
      * exists r. split; [reflexivity|]. split; [|left; reflexivity].
        unfold Validator.oracle_validation in Ho.
        destruct (Validator.validate_icp g info ICP_CRITERIA); [|discriminate].
        simpl in Ho. apply ICPResult_new_Some in Ho as [-> Hr]. exact Hr.
      * exists rb. auto.
    + exists rb. auto.
  - exists rb. split; [exact Hrb|]. split; [exact Hrange|].
    split; [unfold effective_score; rewrite Hfin; exact Hfit|].
    intros industry. cbv zeta.
    destruct (update_with_enrichment_cases ICP_CRITERIA ICP_THRESHOLDS rb industry)
      as (Hf' & Hs' & Hfit').
    cbv zeta in Hf', Hs', Hfit'.
    set (r' := Validator._update_with_enrichment ICP_CRITERIA ICP_THRESHOLDS rb industry)
      in *.
    unfold effective_score. rewrite Hf', Hfin.
    assert (Hr' : 0 ≤ score r' ≤ 100 ∧ score rb ≤ score r').
    { destruct Hs' as [-> | [Hz ->]]; [lia|]. simpl.
      rewrite Hsc, <- Hi, <- Ht, <- Hd, <- Hs, <- Hb, Hz.
      rewrite Hi, Ht, Hd, Hs, Hb in Hparts. lia. }
    split; [apply Hr'|].
    rewrite Hfit'. unfold Validator.fit_of. simpl.
    destruct (Z.leb_spec 75 (score r')); [reflexivity|].
    destruct (Z.leb_spec 50 (score r')); [reflexivity|].
    rewrite Hfit. unfold Validator.fit_of. simpl.
    destruct (Z.leb_spec 75 (score rb)); [lia|].
    destruct (Z.leb_spec 50 (score rb)); [lia|]. reflexivity.
  - intros original reason suggested revised Hrev.
    destruct (handle_dispute_fit _ _ _ _ _ _ Hrev) as [Hfit' Hfin'].
    split.
    + unfold effective_score. destruct Hfin' as [-> | ->]; exact Hfit'.
    + intros Hun Hsug.
      assert (Horig : 0 ≤ score original ≤ 100).
      { unfold Validator._handle_dispute in Hrev.
        destruct (ICPResult_new _) eqn:Hnew; [|discriminate].
        apply ICPResult_new_Some in Hnew as [_ Hr]. exact Hr. }
      destruct (handle_dispute_fallback gemini ICP_THRESHOLDS original reason suggested
                  Hun Horig) as (revised0 & Hs0 & Hf0 & Heq).
      rewrite Heq in Hrev. injection Hrev as <-.
      rewrite update_fit_level_score.
      destruct (accept_if_reasonable_cases original suggested revised0 Hs0 Hf0)
        as [(s & Hsome & _ & _ & -> & _) | [_ ->]].
      * apply Hsug. exact Hsome.
      * rewrite Hs0. exact Horig.
  - exact fit_of_meaning.
Qed.

Lemma score_range_and_fit_level_witness :
  ∃ revised,
    Validator._handle_dispute None ICP_THRESHOLDS (Disputes.scored "Acme" 40 "Low")
      "Company has 1 speaker(s) but score is only 40" (Some 55) = Some revised ∧
    fit_level revised = Validator.fit_of ICP_THRESHOLDS (effective_score revised) ∧
    0 ≤ score revised ≤ 100.
Proof.
  eexists. split; [vm_compute; reflexivity|].
  destruct (score_range_and_fit_level None "Acme Industrial" Rules.acme)
    as (_ & _ & Hd & _).
  destruct (Hd (Disputes.scored "Acme" 40 "Low")
              "Company has 1 speaker(s) but score is only 40" (Some 55) _ eq_refl)
    as [Hfit Hr].
  split; [exact Hfit|].
  apply Hr; [exact I|]. intros s [= <-]. lia.
Defined.

(** C2 as stated fails.  A record built from an oracle's answer keeps the
    oracle's fit level, here Low at a score of 80; a suggested score of
    110 is accepted over an original of 95; and an enrichment update of a
    record scored 90 by the oracle with no industry component yields 120. *)
Lemma oracle_fit_level_and_range_escape :
  (∃ r, Validator._validate_company (Some (Disputes.fixed_oracle 80 "Low"))
          ICP_CRITERIA ICP_THRESHOLDS "Acme Industrial" Rules.acme = Some r ∧
        0 ≤ score r ≤ 100 ∧ 75 ≤ effective_score r ∧ fit_level r = "Low" ∧
        fit_level r ≠ Validator.fit_of ICP_THRESHOLDS (effective_score r)) ∧
  (∃ revised,
     Validator._handle_dispute None ICP_THRESHOLDS (Disputes.scored "Acme" 95 "High")
       "quality agent asks for more" (Some 110) = Some revised ∧
     score revised = 110 ∧ ¬ (0 ≤ score revised ≤ 100)) ∧
  (∃ r, Validator._validate_company (Some (Disputes.fixed_oracle 90 "High"))
          ICP_CRITERIA ICP_THRESHOLDS "Acme Industrial" Rules.acme = Some r ∧
        let r' := Validator._update_with_enrichment ICP_CRITERIA ICP_THRESHOLDS r
                    "Manufacturing" in
        score r' = 120 ∧ ¬ (0 ≤ score r' ≤ 100)).
Proof.
  split; [|split].
  - eexists. split; [vm_compute; reflexivity|].
    vm_compute. repeat split; discriminate.
  - eexists. split; [vm_compute; reflexivity|].
    split; [reflexivity|]. simpl. lia.
  - eexists. split; [vm_compute; reflexivity|].
    split; [vm_compute; reflexivity|]. vm_compute. intros [_ H]. apply H. reflexivity.
Qed.

(** ** Quality review *)

Lemma flag_loop {A} (c : A → bool) xs :
  for_break xs (λ x (found : bool), if c x then (true, true) else (found, false)) false
  = existsb c xs.
Proof.
  induction xs as [|x xs IH]; simpl; [reflexivity|].
  destruct (c x); [reflexivity | exact IH].
Qed.

Lemma existsb_same {A} (f g : A → bool) xs :
  (∀ x, f x = g x) → existsb f xs = existsb g xs.
Proof.
  intros Hfg. induction xs as [|x xs IH]; simpl; [reflexivity|].
  rewrite Hfg, IH. reflexivity.
Qed.

(** The loops of the review compute the conditions of the rules. *)
Lemma has_senior_speaker_spec info :
  Quality.has_senior_speaker (Quality.speakers_of info) = ReviewRules.senior_contact info.
Proof.
  unfold Quality.has_senior_speaker. rewrite flag_loop.
  unfold ReviewRules.senior_contact.
  change (ReviewRules.contacts info) with (Quality.speakers_of info).
  apply existsb_same. intros speaker. reflexivity.
Qed.

Lemma has_fs_title_spec info :
  Quality.has_fs_title (Quality.speakers_of info) = ReviewRules.field_service_contact info.
Proof.
  unfold Quality.has_fs_title. rewrite flag_loop.
  unfold ReviewRules.field_service_contact.
  change (ReviewRules.contacts info) with (Quality.speakers_of info).
  apply existsb_same. intros speaker. reflexivity.
Qed.

Lemma has_contact_spec info :
  negb (bool_decide (Quality.speakers_of info = [])) = ReviewRules.has_contact info.
Proof.
  unfold ReviewRules.has_contact.
  change (ReviewRules.contacts info) with (Quality.speakers_of info).
  destruct (Quality.speakers_of info); reflexivity.
Qed.

(** The chain of early returns, by rule conditions. *)
Lemma review_chain gemini result info :
  let review := Quality._review_score_data gemini result info in
  let s := score result in
  if ReviewRules.rule1 result info then ReviewRules.disputes_with review (Z.min (s + 15) 85)
  else if ReviewRules.rule2 result info then ReviewRules.disputes_with review (Z.min (s + 20) 90)
  else if ReviewRules.rule3 result info then ReviewRules.disputes_with review (Z.min (s + 15) 92)
  else if ReviewRules.rule4 result info then ReviewRules.disputes_with review (Z.max (s - 15) 50)
  else ReviewRules.oracle_silent gemini result info →
       ReviewRules.confirms review ∧ Quality.original_score review = s.
Proof.
  unfold Quality._review_score_data, ReviewRules.rule1, ReviewRules.rule2,
    ReviewRules.rule3, ReviewRules.rule4.
  rewrite has_senior_speaker_spec, has_fs_title_spec, <- has_contact_spec.
  cbv zeta.
  destruct (negb (bool_decide (Quality.speakers_of info = [])) && (score result <? 60));
    [split; reflexivity|].
  destruct (ReviewRules.senior_contact info && (score result <? 70));
    [split; reflexivity|].
  destruct (ReviewRules.field_service_contact info && (score result <? 75));
    [split; reflexivity|].
  rewrite negb_involutive.
  destruct ((80 <=? score result) && bool_decide (Quality.speakers_of info = [])
            && Str.contains "Unknown" (reasoning result));
    [split; reflexivity|].
  unfold ReviewRules.oracle_silent, Quality.or_else at 1 2 3 4. simpl.
  destruct gemini as [g|]; [|intros _; repeat split].
  destruct (Z.leb_spec 50 (score result)); [|intros _; repeat split].
  intros [Hlt | Hq]; [lia|].
  destruct (g result info) as [r|]; [|repeat split].
  rewrite Hq. repeat split.
Qed.



(** ** Upsert of score records *)

Section Upsert.

Implicit Types (l : list ICPResult) (r e : ICPResult).

Lemma existing_for_None r l :
  Context.existing_for r l = None ↔ company_name r ∉ (company_name <$> l).
Proof.
  unfold Context.existing_for. induction l as [|x l IH]; simpl.
  - split; [intros _; apply not_elem_of_nil | reflexivity].
  - rewrite not_elem_of_cons. case_bool_decide as Hx.
    + split; [discriminate | intros [Hne _]; congruence].
    + rewrite IH. split; [intros; split; [congruence | assumption] | tauto].
Qed.

(** The record [next(...)] finds is the first of that name, and
    [index] finds it at the same position. *)
Lemma existing_for_Some r l e :
  Context.existing_for r l = Some e →
  ∃ i, l !! i = Some e ∧ company_name e = company_name r ∧
       (∀ j x, (j < i)%nat → l !! j = Some x → company_name x ≠ company_name r) ∧
       Context.index e l = Some i.
Proof.
  unfold Context.existing_for. induction l as [|x l IH]; simpl; [discriminate|].
  case_bool_decide as Hx.
  - intros [= ->]. exists 0%nat. repeat split; [assumption | lia |].
    destruct (decide (e = e)); [reflexivity | contradiction].
  - intros Hf. destruct (IH Hf) as (i & Hi & Hn & Hbefore & Hidx).
    exists (S i). repeat split; [exact Hi | exact Hn | |].
    + intros [|j] y Hj Hy; simpl in Hy; [congruence|].
      apply (Hbefore j y); [lia | exact Hy].
    + destruct (decide (x = e)) as [->|_]; [congruence|].
      rewrite Hidx. reflexivity.
Qed.

(** [add_icp_result] never raises: it either appends, the name being
    new, or overwrites the first record of that name. *)
Lemma add_icp_result_cases r l :
  ((company_name r ∉ (company_name <$> l)) ∧
   Context.add_icp_result r l = Some (l ++ [r]))
  ∨ (∃ i e, l !! i = Some e ∧ company_name e = company_name r ∧
            (∀ j x, (j < i)%nat → l !! j = Some x → company_name x ≠ company_name r) ∧
            Context.add_icp_result r l = Some (<[i := r]> l)).
Proof.
  unfold Context.add_icp_result.
  destruct (Context.existing_for r l) as [e|] eqn:E.
  - right. destruct (existing_for_Some _ _ _ E) as (i & Hi & Hn & Hb & Hidx).
    exists i, e. rewrite Hidx. simpl. auto.
  - left. apply existing_for_None in E. auto.
Qed.

Lemma names_insert_same l i r e :
  l !! i = Some e → company_name e = company_name r →
  company_name <$> <[i := r]> l = company_name <$> l.
Proof.
  intros Hi Hn. rewrite list_fmap_insert. apply list_insert_id.
  rewrite list_lookup_fmap, Hi. simpl. congruence.
Qed.

Lemma filter_none {A} (P : A → Prop) `{∀ x, Decision (P x)} (k : list A) :
  (∀ y, y ∈ k → ¬ P y) → filter P k = [].
Proof.
  induction k as [|x k IH]; intros Hk; [reflexivity|].
  rewrite filter_cons_False by (apply Hk; left).
  apply IH. intros y Hy. apply Hk. right. exact Hy.
Qed.

(** With one record per name, the record at a position is the only one
    of its name. *)
Lemma unique_by_name l i r :
  NoDup (company_name <$> l) → l !! i = Some r →
  filter (λ x, company_name x = company_name r) l = [r].
Proof.
  revert i. induction l as [|x l IH]; intros i Hnd Hi; [discriminate|].
  rewrite fmap_cons in Hnd. apply NoDup_cons in Hnd as [Hx Hnd].
  destruct i as [|i]; simpl in Hi.
  - injection Hi as ->. rewrite filter_cons_True by reflexivity. f_equal.
    apply filter_none. intros y Hy Heq. apply Hx. rewrite <- Heq.
    apply list_elem_of_fmap. eauto.
  - rewrite filter_cons_False; [eapply IH; eassumption|].
    intros Heq. apply Hx. rewrite Heq. apply list_elem_of_fmap.
    exists r. split; [reflexivity|]. eapply list_elem_of_lookup_2. exact Hi.
Qed.

Lemma add_icp_result_NoDup r l l' :
  NoDup (company_name <$> l) → Context.add_icp_result r l = Some l' →
  NoDup (company_name <$> l').
Proof.
  intros Hnd Hadd.
  destruct (add_icp_result_cases r l) as [[Hnew Heq] | (i & e & Hi & Hn & _ & Heq)];
    rewrite Heq in Hadd; injection Hadd as <-.
  - rewrite fmap_app. simpl. apply NoDup_app. split; [exact Hnd|]. split.
    + intros x Hx Hx'. apply list_elem_of_singleton in Hx'. congruence.
    + apply NoDup_singleton.
  - rewrite (names_insert_same _ _ _ _ Hi Hn). exact Hnd.
Qed.

End Upsert.

(** C5. [add_icp_result] is an upsert keyed by company name: from a list
    with one record per name, adding two results of the same name leaves
    exactly one record of that name, the second result, at the position
    the first one took; the other positions are untouched; and a result of
    a new name is appended. *)
Theorem add_icp_result_upsert (l : list ICPResult) (r1 r2 : ICPResult) :
  NoDup (company_name <$> l) →
  company_name r1 = company_name r2 →
  (∃ l1 l2 i,
     Context.add_icp_result r1 l = Some l1 ∧
     Context.add_icp_result r2 l1 = Some l2 ∧
     filter (λ r, company_name r = company_name r2) l2 = [r2] ∧
     l1 !! i = Some r1 ∧ l2 !! i = Some r2 ∧ l2 = <[i := r2]> l1 ∧
     length l2 = length l1 ∧
     NoDup (company_name <$> l2)) ∧
  (∀ r, (company_name r ∉ (company_name <$> l)) →
        Context.add_icp_result r l = Some (l ++ [r])).
Proof.
  intros Hnd Hname. split.
  - assert (∃ l1 i, Context.add_icp_result r1 l = Some l1 ∧ l1 !! i = Some r1)
      as (l1 & i & Hadd1 & Hi1).
    { destruct (add_icp_result_cases r1 l) as [[_ Heq] | (i & e & Hi & _ & _ & Heq)].
      - exists (l ++ [r1]), (length l). split; [exact Heq|].
        rewrite lookup_app_r, Nat.sub_diag by lia. reflexivity.
      - exists (<[i := r1]> l), i. split; [exact Heq|].
        apply list_lookup_insert_eq. eapply lookup_lt_Some. exact Hi. }
    pose proof (add_icp_result_NoDup _ _ _ Hnd Hadd1) as Hnd1.
    destruct (add_icp_result_cases r2 l1) as [[Hnew _] | (j & e & Hj & Hn & _ & Heq)].
    { exfalso. apply Hnew. rewrite <- Hname. apply list_elem_of_fmap.
      exists r1. split; [reflexivity|]. eapply list_elem_of_lookup_2. exact Hi1. }
    assert (j = i) as ->.
    { eapply NoDup_lookup; [exact Hnd1 | |].
      - rewrite list_lookup_fmap, Hj. reflexivity.
      - rewrite list_lookup_fmap, Hi1. simpl. congruence. }
    pose proof (add_icp_result_NoDup _ _ _ Hnd1 Heq) as Hnd2.
    assert (Hi2 : <[i := r2]> l1 !! i = Some r2).
    { apply list_lookup_insert_eq. eapply lookup_lt_Some. exact Hi1. }
    exists l1, (<[i := r2]> l1), i.
    split; [exact Hadd1|]. split; [exact Heq|].
    split; [exact (unique_by_name _ _ _ Hnd2 Hi2)|].
    split; [exact Hi1|]. split; [exact Hi2|]. split; [reflexivity|].
    split; [apply length_insert | exact Hnd2].
  - intros r Hnew.
    destruct (add_icp_result_cases r l) as [[_ Heq] | (i & e & Hi & Hn & _ & _)];
      [exact Heq|].
    exfalso. apply Hnew. rewrite <- Hn. apply list_elem_of_fmap.
    exists e. split; [reflexivity|]. eapply list_elem_of_lookup_2. exact Hi.
Qed.

Lemma add_icp_result_upsert_witness :
  ∃ l1 l2,
    Context.add_icp_result (Disputes.scored "Acme" 40 "Low")
      [Disputes.scored "Globex" 80 "High"] = Some l1 ∧
    Context.add_icp_result (Disputes.scored "Acme" 55 "Medium") l1 = Some l2 ∧
    l2 = [Disputes.scored "Globex" 80 "High"; Disputes.scored "Acme" 55 "Medium"].
Proof.
  destruct (add_icp_result_upsert [Disputes.scored "Globex" 80 "High"]
              (Disputes.scored "Acme" 40 "Low") (Disputes.scored "Acme" 55 "Medium"))
    as [(l1 & l2 & i & H1 & H2 & _) _].
  - apply NoDup_singleton.
  - reflexivity.
  - exists l1, l2. split; [exact H1|]. split; [exact H2|].
    vm_compute in H1. injection H1 as <-.
    vm_compute in H2. injection H2 as <-. reflexivity.
Defined.

(** ** Organisation names *)

(** C6 as stated fails: two names of one organisation that differ only in
    letter case, one from the explicit list and one from a speaker's
    affiliation, are both returned. *)
Lemma get_companies_keeps_both_cases :
  let names := Context.get_companies (Some Samples.mixed_case) in
  "Acme" ∈ names ∧ "ACME" ∈ names ∧ length names = 2%nat ∧
  Context.same_organisation "Acme" "ACME" = true.
Proof.
  assert (Hset : Context.company_set (Some Samples.mixed_case) = {["Acme"; "ACME"]}).
  { unfold Context.company_set. simpl. set_solver. }
  cbv zeta. unfold Context.get_companies. rewrite Hset.
  split; [apply elem_of_elements; set_solver|].
  split; [apply elem_of_elements; set_solver|].
  split; [|reflexivity].
  change (size ({["Acme"; "ACME"]} : gset string) = 2%nat).
  rewrite size_union by set_solver. rewrite !size_singleton. reflexivity.
Qed.

(** The three loops of [get_companies], as membership. *)
Lemma foldl_add_names {A} (f : A → string) (xs : list A) (acc : gset string) (y : string) :
  y ∈ foldl (λ acc x, acc ∪ {[ f x ]}) acc xs ↔ y ∈ acc ∨ y ∈ (f <$> xs).
Proof.
  revert acc. induction xs as [|x xs IH]; intros acc; simpl.
  - rewrite elem_of_nil. tauto.
  - rewrite IH, elem_of_union, elem_of_singleton, elem_of_cons. tauto.
Qed.

Lemma foldl_add_affiliations {A} (f : A → string) (xs : list A) (acc : gset string)
    (y : string) :
  y ∈ foldl (λ acc x, if negb (String.eqb (f x) "") then acc ∪ {[ f x ]} else acc) acc xs
  ↔ y ∈ acc ∨ (y ≠ "" ∧ y ∈ (f <$> xs)).
Proof.
  revert acc. induction xs as [|x xs IH]; intros acc; simpl.
  - rewrite elem_of_nil. tauto.
  - rewrite IH, elem_of_cons. destruct (String.eqb_spec (f x) "") as [He|Hne]; simpl.
    + split; [tauto|]. intros [H | [Hy [-> | H]]]; [tauto | congruence | tauto].
    + rewrite elem_of_union, elem_of_singleton.
      split; [intros [[H | ->] | H]; tauto | tauto].
Qed.

(** C6, as amended. [get_companies] returns the union of the names of the
    explicit company list, of the speakers' non-empty affiliations and of
    the attendees' non-empty affiliations, each distinct string once:
    de-duplication is by equality of strings, so names that differ in
    letter case are separate entries.  Without conference data the list
    is empty. *)
Theorem get_companies_union_of_exact_names (data : Schema.ConferenceData) :
  NoDup (Context.get_companies (Some data)) ∧
  (∀ x, x ∈ Context.get_companies (Some data) ↔
        x ∈ (Schema.name <$> Schema.companies data)
        ∨ (x ≠ "" ∧ x ∈ (Schema.speaker_company <$> Schema.speakers data))
        ∨ (x ≠ "" ∧ x ∈ (Schema.attendee_company <$> Schema.attendees data))) ∧
  Context.get_companies None = [].
Proof.
  split; [unfold Context.get_companies; apply NoDup_elements|]. split.
  - intros x. unfold Context.get_companies. rewrite elem_of_elements.
    unfold Context.company_set.
    rewrite foldl_add_affiliations, foldl_add_affiliations, foldl_add_names.
    rewrite elem_of_empty. tauto.
  - unfold Context.get_companies, Context.company_set. apply elements_empty.
Qed.

(** ** Pending messages *)

Section BusFacts.

Context {World : Type}.
Implicit Types (bus : Bus.MessageBus World) (w : World) (m : Bus.AgentMessage).

Lemma send_subscribers m bus w :
  Bus._subscribers (Bus.send m bus w).1.2 = Bus._subscribers bus.
Proof.
  unfold Bus.send. destruct (decide _); [reflexivity|].
  simpl. destruct (Bus.handlers_of _ _); [|reflexivity].
  destruct (Bus.first_response _ _ _) as [[r|] w']; reflexivity.
Qed.

Lemma subscribed_false a bus :
  Bus.subscribed a bus = false ↔ Bus.handlers_of a (Bus._subscribers bus) = None.
Proof.
  unfold Bus.subscribed. rewrite bool_decide_eq_false.
  destruct (Bus.handlers_of a _); split; intros H;
    [exfalso; apply H; eauto | discriminate | reflexivity | intros [? [=]]].
Qed.

(** A send to an unregistered name other than the broadcast address
    calls no handler and queues the message. *)
Lemma send_unregistered m bus w :
  Bus.recipient m ≠ "ALL" → Bus.subscribed (Bus.recipient m) bus = false →
  Bus.send m bus w = (None, Bus.enqueue m (Bus.log m bus), w).
Proof.
  intros Hall Hsub. apply subscribed_false in Hsub. unfold Bus.send.
  destruct (decide _); [contradiction|]. simpl. rewrite Hsub. reflexivity.
Qed.

(** The queue of an unregistered agent grows by exactly the messages
    addressed to it. *)
Lemma send_pending_of a m bus w :
  a ≠ "ALL" → Bus.subscribed a bus = false →
  Bus.pending_of a (Bus.send m bus w).1.2
  = Bus.pending_of a bus ++ (if decide (Bus.recipient m = a) then [m] else []).
Proof.
  intros Hall Hsub. destruct (decide (Bus.recipient m = a)) as [<-|Hne].
  - rewrite send_unregistered by assumption. unfold Bus.pending_of. simpl.
    rewrite lookup_insert_eq. reflexivity.
  - rewrite app_nil_r. unfold Bus.send, Bus.pending_of.
    destruct (decide _); [reflexivity|]. simpl.
    destruct (Bus.handlers_of _ _).
    + destruct (Bus.first_response _ _ _) as [[r|] w']; reflexivity.
    + simpl. rewrite lookup_insert_ne by exact Hne. reflexivity.
Qed.

Lemma send_all_cons m ms bus w :
  Bus.send_all (m :: ms) bus w
  = Bus.send_all ms (Bus.send m bus w).1.2 (Bus.send m bus w).2.
Proof.
  unfold Bus.send_all. simpl. destruct (Bus.send m bus w) as [[r bus'] w']. reflexivity.
Qed.

Lemma send_all_pending_of a ms bus w :
  a ≠ "ALL" → Bus.subscribed a bus = false →
  Bus.subscribed a (Bus.send_all ms bus w).1 = false ∧
  Bus.pending_of a (Bus.send_all ms bus w).1
  = Bus.pending_of a bus ++ filter (λ m, Bus.recipient m = a) ms.
Proof.
  intros Hall. revert bus w. induction ms as [|m ms IH]; intros bus w Hsub.
  - simpl. rewrite app_nil_r. auto.
  - rewrite send_all_cons.
    assert (Hsub' : Bus.subscribed a (Bus.send m bus w).1.2 = false).
    { unfold Bus.subscribed in *. rewrite send_subscribers. exact Hsub. }
    destruct (IH _ (Bus.send m bus w).2 Hsub') as [Hs Hp].
    split; [exact Hs|]. rewrite Hp, send_pending_of by assumption.
    rewrite <- app_assoc. f_equal.
    destruct (decide (Bus.recipient m = a)).
    + rewrite filter_cons_True by assumption. reflexivity.
    + rewrite filter_cons_False by assumption. reflexivity.
Qed.

End BusFacts.

(** C8, as amended. For every message whose recipient is not the
    broadcast address "ALL" and is not a subscribed agent, [send] returns
    without a response, calls no handler and appends the message to that
    recipient's pending queue; after the recipient subscribes,
    [get_pending_messages] returns exactly the messages sent to it while it
    was unregistered, in send order, and drains the queue, so that the next
    call returns the empty list. *)
Theorem pending_queue_delivers_in_order {World : Type}
    (bus : Bus.MessageBus World) (w : World) (a : string) :
  a ≠ "ALL" →
  Bus.subscribed a bus = false →
  (∀ m, Bus.recipient m = a →
        ∃ bus', Bus.send m bus w = (None, bus', w) ∧
                Bus.pending_of a bus' = Bus.pending_of a bus ++ [m] ∧
                Bus._message_history bus' = Bus._message_history bus ++ [m]) ∧
  (∀ ms handler,
     let sent := Bus.send_all ms bus w in
     let registered := Bus.subscribe a handler sent.1 in
     let drained := Bus.get_pending_messages a registered in
     drained.1 = Bus.pending_of a bus ++ filter (λ m, Bus.recipient m = a) ms ∧
     (Bus.get_pending_messages a drained.2).1 = [] ∧
     Bus._subscribers drained.2 = Bus._subscribers registered ∧
     Bus._message_history drained.2 = Bus._message_history registered).
Proof.
  intros Hall Hsub. split.
  - intros m <-. eexists. split; [apply send_unregistered; assumption|].
    split; [|reflexivity].
    unfold Bus.pending_of. simpl. rewrite lookup_insert_eq. reflexivity.
  - intros ms handler. cbv zeta.
    destruct (send_all_pending_of a ms bus w Hall Hsub) as [_ Hp].
    split; [exact Hp|]. split; [|split; reflexivity].
    simpl. rewrite lookup_delete_eq. reflexivity.
Qed.

Lemma pending_queue_delivers_in_order_witness :
  let sent :=
    Bus.send_all [Samples.note "Validator" "QualityAgent" "first";
                  Samples.note "Validator" "Enricher" "other";
                  Samples.note "Validator" "QualityAgent" "second"]
      (Bus.subscribe "Enricher" Samples.quiet Bus.new) tt in
  let drained :=
    Bus.get_pending_messages "QualityAgent"
      (Bus.subscribe "QualityAgent" Samples.quiet sent.1) in
  drained.1 = [Samples.note "Validator" "QualityAgent" "first";
               Samples.note "Validator" "QualityAgent" "second"] ∧
  (Bus.get_pending_messages "QualityAgent" drained.2).1 = [].
Proof.
  destruct (pending_queue_delivers_in_order
              (Bus.subscribe "Enricher" Samples.quiet Bus.new) tt "QualityAgent")
    as [_ H].
  - discriminate.
  - reflexivity.
  - destruct (H [Samples.note "Validator" "QualityAgent" "first";
                 Samples.note "Validator" "Enricher" "other";
                 Samples.note "Validator" "QualityAgent" "second"] Samples.quiet)
      as (H1 & H2 & _).
    split; [exact H1 | exact H2].
Defined.

(** C8 as stated fails at the broadcast address: with no agent
    subscribed under "ALL", a message to "ALL" is broadcast and not
    queued, and a later subscriber of that name finds nothing pending. *)
Lemma broadcast_is_not_queued :
  let m := Samples.note "Validator" "ALL" "hello" in
  Bus.subscribed (Bus.recipient m) (Bus.new (World := unit)) = false ∧
  ∃ bus', Bus.send m Bus.new tt = (None, bus', tt) ∧
          Bus._pending_messages bus' !! Bus.recipient m = None ∧
          Bus._message_history bus' = [m] ∧
          (Bus.get_pending_messages "ALL" (Bus.subscribe "ALL" Samples.quiet bus')).1 = [].
Proof.
  split; [reflexivity|].
  eexists. split; [reflexivity|]. repeat split.
Qed.

(** ** Deep copies *)

Section DeepCopy.

Import Store.

Implicit Types (h : gmap loc pyobj) (m : gmap loc loc) (v x y : pyval) (l c : loc).

Lemma in_dom_insert h k o l : l ∈ dom h ∨ l = k → l ∈ dom (<[k := o]> h).
Proof. rewrite dom_insert, elem_of_union, elem_of_singleton. tauto. Qed.

Lemma in_dom_weaken h h' l : h ⊆ h' → l ∈ dom h → l ∈ dom h'.
Proof. intros Hsub Hl. apply subseteq_dom in Hsub. apply Hsub. exact Hl. Qed.

Lemma reify_VRef k h l t :
  reify (S k) h (VRef l) = Some t ↔
  ∃ o ts, h !! l = Some o ∧
          Forall2 (λ x t, reify k h x = Some t) (py_slots o) ts ∧
          t = TObj (py_class o) ts.
Proof.
  simpl. split.
  - intros H. apply bind_Some in H as (o & Ho & H).
    apply bind_Some in H as (ts & Hts & [= <-]).
    exists o, ts. split; [exact Ho|]. split; [apply mapM_Some; exact Hts | reflexivity].
  - intros (o & ts & Ho & Hts & ->). rewrite Ho. simpl.
    apply mapM_Some in Hts. rewrite Hts. reflexivity.
Qed.

Lemma reify_scalar k h h' v t :
  (∀ l, v ≠ VRef l) → reify k h v = Some t → reify k h' v = Some t.
Proof.
  intros Hv. destruct k; [discriminate|]. destruct v; try (intros H; exact H).
  exfalso. eapply Hv. reflexivity.
Qed.

(** Reading is stable under growth of the store. *)
Lemma reify_mono k h h' v t :
  h ⊆ h' → reify k h v = Some t → reify k h' v = Some t.
Proof.
  intros Hsub. revert v t. induction k as [|k IH]; [discriminate|].
  intros v t. destruct v; try (intros H; exact H).
  rewrite !reify_VRef. intros (o & ts & Ho & Hts & ->).
  exists o, ts. split; [eapply lookup_weaken; eassumption|].
  split; [|reflexivity]. eapply Forall2_impl; [exact Hts|].
  intros x t Hx. apply IH. exact Hx.
Qed.

(** Reading more deeply than needed gives the same tree. *)
Lemma reify_more_fuel k h v t :
  reify k h v = Some t → reify (S k) h v = Some t.
Proof.
  revert v t. induction k as [|k IH]; [discriminate|].
  intros v t. destruct v; try (intros H; exact H).
  rewrite !reify_VRef. intros (o & ts & Ho & Hts & ->).
  exists o, ts. split; [exact Ho|]. split; [|reflexivity].
  eapply Forall2_impl; [exact Hts|]. intros x t Hx. apply IH. exact Hx.
Qed.

Lemma sim_mono h0 h h' x y : h ⊆ h' → sim h0 h x y → sim h0 h' x y.
Proof. intros Hsub Hsim k t Hx. eapply reify_mono; [exact Hsub|]. apply Hsim. exact Hx. Qed.

Lemma sim_slots h0 h k xs ys ts :
  Forall2 (sim h0 h) xs ys →
  Forall2 (λ x t, reify k h0 x = Some t) xs ts →
  Forall2 (λ y t, reify k h y = Some t) ys ts.
Proof.
  intros Hsims. revert ts.
  induction Hsims as [|x y xs ys Hxy _ IH]; intros ts Hts;
    inversion Hts; subst; constructor.
  - apply Hxy. assumption.
  - apply IH. assumption.
Qed.

Lemma is_new_mono h0 h h' y : h ⊆ h' → is_new h0 h y → is_new h0 h' y.
Proof.
  intros Hsub. destruct y; simpl; try tauto.
  intros [Hin Hout]. split; [|exact Hout].
  eapply in_dom_weaken; eassumption.
Qed.

Lemma copy_inv_start h0 : copy_inv h0 h0 ∅.
Proof.
  split; [reflexivity|]. split.
  - intros l o c Ho Hl. exfalso. apply Hl. apply elem_of_dom. eauto.
  - intros l l' H. rewrite lookup_empty in H. discriminate.
Qed.

(** The slots of an object, each element obeying the contract of
    [deepcopy]. *)
Lemma copy_all_spec h0 n
    (copy_ok : ∀ x t h m,
        reify n h0 x = Some t → copy_inv h0 h m →
        ∃ y h' m', deepcopy n x h m = Some (y, h', m') ∧
                   copy_inv h0 h' m' ∧ h ⊆ h' ∧ sim h0 h' x y ∧ is_new h0 h' y) :
  ∀ xs ts h m,
    Forall2 (λ x t, reify n h0 x = Some t) xs ts → copy_inv h0 h m →
    ∃ ys h' m', copy_all (deepcopy n) xs h m = Some (ys, h', m') ∧
                copy_inv h0 h' m' ∧ h ⊆ h' ∧
                Forall2 (sim h0 h') xs ys ∧ Forall (is_new h0 h') ys.
Proof.
  intros xs ts h m Hts. revert h m.
  induction Hts as [|x t xs ts Hx _ IH]; intros h m Hinv.
  - exists [], h, m. simpl. split; [reflexivity|]. split; [exact Hinv|].
    split; [reflexivity|]. split; constructor.
  - destruct (copy_ok x t h m Hx Hinv) as (y & h1 & m1 & Hy & Hinv1 & Hsub1 & Hsim & Hnew).
    destruct (IH h1 m1 Hinv1) as (ys & h2 & m2 & Hys & Hinv2 & Hsub2 & Hsims & Hnews).
    exists (y :: ys), h2, m2. simpl. rewrite Hy. simpl. rewrite Hys. simpl.
    split; [reflexivity|]. split; [exact Hinv2|].
    split; [etrans; eassumption|].
    split; constructor; try assumption.
    + eapply sim_mono; eassumption.
    + eapply is_new_mono; eassumption.
Qed.

(** The contract of [deepcopy]: on a value that reads as a tree within
    the fuel, it returns a value that reads as the same tree, made of new
    objects, and it leaves the existing objects as they were. *)
Lemma deepcopy_spec h0 n :
  ∀ x t h m,
    reify n h0 x = Some t → copy_inv h0 h m →
    ∃ y h' m', deepcopy n x h m = Some (y, h', m') ∧
               copy_inv h0 h' m' ∧ h ⊆ h' ∧ sim h0 h' x y ∧ is_new h0 h' y.
Proof.
  induction n as [|n IH]; [discriminate|].
  intros x t h m Hx Hinv.
  destruct x as [| b | z | s | l];
    try (eexists _, h, m; split; [reflexivity|]; split; [exact Hinv|];
         split; [reflexivity|]; split; [|exact I];
         intros k t' Hk; eapply reify_scalar; [intros ? [=] | exact Hk]).
  simpl. destruct (m !! l) as [l'|] eqn:Hm.
  - destruct Hinv as (Hsub & Hclosed & Hmemo).
    destruct (Hmemo l l' Hm) as (Hsim & Hin & Hout).
    exists (VRef l'), h, m. split; [reflexivity|].
    split; [split; [|split]; assumption|]. split; [reflexivity|].
    split; [exact Hsim | split; assumption].
  - apply reify_VRef in Hx as (o & ts & Ho & Hts & ->).
    assert (Hsub : h0 ⊆ h) by apply Hinv.
    rewrite (lookup_weaken _ _ _ _ Ho Hsub). simpl.
    destruct (copy_all_spec h0 n IH (py_slots o) ts h m Hts Hinv)
      as (ys & h1 & m1 & Hys & Hinv1 & Hsub1 & Hsims & Hnews).
    rewrite Hys. simpl.
    set (l' := fresh (dom h1)).
    assert (Hfresh : l' ∉ dom h1) by apply is_fresh.
    assert (Hnone : h1 !! l' = None) by (apply not_elem_of_dom; exact Hfresh).
    destruct Hinv1 as (Hsub01 & Hclosed1 & Hmemo1).
    assert (Hsub12 : h1 ⊆ <[l' := PyObj (py_class o) ys]> h1)
      by (apply insert_subseteq; exact Hnone).
    assert (Hout : l' ∉ dom h0).
    { intros Hin. apply Hfresh. exact (in_dom_weaken _ _ _ Hsub01 Hin). }
    assert (Hsim : sim h0 (<[l' := PyObj (py_class o) ys]> h1) (VRef l) (VRef l')).
    { intros k t Hk. destruct k as [|k]; [discriminate|].
      apply reify_VRef in Hk as (o' & ts' & Ho' & Hts' & ->).
      rewrite Ho in Ho'. injection Ho' as <-.
      apply reify_VRef. exists (PyObj (py_class o) ys), ts'.
      split; [apply lookup_insert_eq|]. split; [|reflexivity]. simpl.
      eapply sim_slots; [|exact Hts'].
      eapply Forall2_impl; [exact Hsims|].
      intros x y Hxy. eapply sim_mono; eassumption. }
    eexists (VRef l'), _, _. split; [reflexivity|].
    split; [|split; [etrans; eassumption|split; [exact Hsim|]]].
    + split; [etrans; eassumption|]. split.
      * intros l1 o1 c Ho1 Hl1 Hc.
        destruct (decide (l1 = l')) as [->|Hne].
        -- rewrite lookup_insert_eq in Ho1. injection Ho1 as <-. simpl in Hc.
           rewrite Forall_forall in Hnews. specialize (Hnews _ Hc). simpl in Hnews.
           destruct Hnews as [Hin Hno]. split; [|exact Hno].
           apply in_dom_insert; auto.
        -- rewrite lookup_insert_ne in Ho1 by congruence.
           destruct (Hclosed1 l1 o1 c Ho1 Hl1 Hc) as [Hin Hno].
           split; [|exact Hno]. apply in_dom_insert; auto.
      * intros l1 l1' Hl1. destruct (decide (l1 = l)) as [->|Hne].
        -- rewrite lookup_insert_eq in Hl1. injection Hl1 as <-.
           split; [exact Hsim|]. split; [|exact Hout].
           apply in_dom_insert; auto.
        -- rewrite lookup_insert_ne in Hl1 by congruence.
           destruct (Hmemo1 l1 l1' Hl1) as (Hs1 & Hin1 & Hout1).
           split; [eapply sim_mono; eassumption|]. split; [|exact Hout1].
           apply in_dom_insert; auto.
    + simpl. split; [|exact Hout]. apply in_dom_insert; auto.
Qed.

End DeepCopy.

Section Sharing.

Import Store.

Implicit Types (h : gmap loc pyobj) (m : gmap loc loc) (v x y : pyval) (l c : loc).

(** Everything reachable from an object the copy allocated was allocated
    by the copy. *)
Lemma reach_new h0 h l c :
  new_closed h0 h → l ∈ dom h → l ∉ dom h0 → reach h l c →
  c ∈ dom h ∧ c ∉ dom h0.
Proof.
  intros Hclosed Hin Hout Hreach. induction Hreach as [l | l o c l' Ho Hc _ IH]; [auto|].
  destruct (Hclosed l o c Ho Hout Hc) as [Hin' Hout']. apply IH; assumption.
Qed.

(** Everything reachable from a value that reads as a tree in [h0] is an
    object of [h0], also after the store has grown. *)
Lemma reach_old h0 h k l t c :
  reify k h0 (VRef l) = Some t → h0 ⊆ h → reach h l c → c ∈ dom h0.
Proof.
  intros Hr Hsub Hreach. revert k t Hr.
  induction Hreach as [l | l o c l' Ho Hc _ IH]; intros k t Hr;
    (destruct k as [|k]; [discriminate|]);
    apply reify_VRef in Hr as (o0 & ts & Ho0 & Hts & ->).
  - apply elem_of_dom. eauto.
  - rewrite (lookup_weaken _ _ _ _ Ho0 Hsub) in Ho. injection Ho as <-.
    apply list_elem_of_lookup in Hc as [i Hi].
    destruct (Forall2_lookup_l _ _ _ _ _ Hts Hi) as (t' & _ & Ht').
    eapply IH. exact Ht'.
Qed.

(** Reading depends only on the objects reachable from the value read. *)
Lemma reify_frame k h h' v t :
  reify k h v = Some t →
  (∀ l c, v = VRef l → reach h l c → h' !! c = h !! c) →
  reify k h' v = Some t.
Proof.
  revert v t. induction k as [|k IH]; [discriminate|].
  intros v t. destruct v as [| | | | l]; try (intros H _; exact H).
  rewrite !reify_VRef. intros (o & ts & Ho & Hts & ->) Hsame.
  exists o, ts. split; [rewrite (Hsame l l eq_refl (reach_here _ _)); exact Ho|].
  split; [|reflexivity].
  apply Forall2_same_length_lookup. split; [eapply Forall2_length; exact Hts|].
  intros i x t' Hx Ht'.
  pose proof (Forall2_lookup_lr _ _ _ _ _ _ Hts Hx Ht') as Hxt.
  apply IH; [exact Hxt|].
  intros l' c -> Hreach. apply (Hsame l c eq_refl).
  eapply reach_slot; [exact Ho | | exact Hreach].
  eapply list_elem_of_lookup_2. exact Hx.
Qed.

Lemma deepcopy_VRef n l h m y h' m' :
  deepcopy n (VRef l) h m = Some (y, h', m') → ∃ l', y = VRef l'.
Proof.
  destruct n as [|n]; [discriminate|]. simpl.
  destruct (m !! l) as [l'|]; [intros [= <- _ _]; eauto|].
  destruct (h !! l) as [o|]; [|discriminate]. simpl.
  destruct (copy_all _ _ _ _) as [[[ys h1] m1]|]; [|discriminate]. simpl.
  intros [= <- _ _]. eauto.
Qed.

(** A deep copy of a model instance: a new object graph that reads as the
    original, every existing object left as it was. *)
Lemma deepcopy_fresh n h0 l t :
  reify n h0 (VRef l) = Some t →
  ∃ l' h' m',
    deepcopy n (VRef l) h0 ∅ = Some (VRef l', h', m') ∧
    h0 ⊆ h' ∧ reify n h' (VRef l') = Some t ∧
    ∀ c, reach h' l' c → c ∈ dom h' ∧ c ∉ dom h0.
Proof.
  intros Hr.
  destruct (deepcopy_spec h0 n (VRef l) t h0 ∅ Hr (copy_inv_start h0))
    as (y & h' & m' & Hcopy & Hinv & Hsub & Hsim & Hnew).
  destruct (deepcopy_VRef _ _ _ _ _ _ _ Hcopy) as [l' ->].
  exists l', h', m'. split; [exact Hcopy|]. split; [exact Hsub|].
  split; [apply Hsim; exact Hr|].
  destruct Hnew as [Hin Hout]. destruct Hinv as (_ & Hclosed & _).
  intros c Hreach. eapply reach_new; eassumption.
Qed.

End Sharing.

(** ** Checkpoints *)

(** C7. For every checkpoint name, on a context whose live state reads as
    a tree [t]: [create_checkpoint] succeeds, leaves the live state as it
    was and stores a copy made of new objects; after any mutation of the
    live state, [restore_checkpoint] of that name succeeds with a live
    state that reads as [t] again, and that is made of objects allocated
    by the restore.  It therefore shares no object with the mutated state
    before the restore nor with the stored checkpoint: overwriting any
    object that existed before the restore leaves the restored state
    reading as [t], and overwriting any object of the restored state
    leaves the stored checkpoint reading as [t] and every earlier object
    as it was. *)
Theorem checkpoint_restore_independent
    (fuel : nat) (name : string) (self : Store.SharedContext) (t : Store.pytree) :
  Store.reify fuel (Store.store self) (Store.VRef (Store.context self)) = Some t →
  ∃ saved c,
    Store.create_checkpoint fuel name self = Some saved ∧
    Store.context saved = Store.context self ∧
    Store._checkpoints saved !! name = Some c ∧
    Store.reify fuel (Store.store saved) (Store.VRef (Store.context saved)) = Some t ∧
    (∀ l, Store.reach (Store.store saved) c l → l ∉ dom (Store.store self)) ∧
    ∀ mutated,
      Store.mutates_live saved mutated →
      ∃ restored,
        Store.restore_checkpoint fuel name mutated = Some (true, restored) ∧
        Store.reify fuel (Store.store restored) (Store.VRef (Store.context restored))
          = Some t ∧
        Store._checkpoints restored = Store._checkpoints mutated ∧
        Store.reify fuel (Store.store restored) (Store.VRef c) = Some t ∧
        (∀ l, l ∈ dom (Store.store mutated) →
              Store.store restored !! l = Store.store mutated !! l) ∧
        (∀ l, Store.reach (Store.store restored) (Store.context restored) l →
              l ∈ dom (Store.store restored) ∧ l ∉ dom (Store.store mutated)) ∧
        (∀ l o, l ∈ dom (Store.store mutated) →
                Store.reify fuel (<[l := o]> (Store.store restored))
                  (Store.VRef (Store.context restored)) = Some t) ∧
        (∀ l o, Store.reach (Store.store restored) (Store.context restored) l →
                Store.reify fuel (<[l := o]> (Store.store restored)) (Store.VRef c)
                  = Some t ∧
                ∀ l', l' ∈ dom (Store.store mutated) →
                      <[l := o]> (Store.store restored) !! l' = Store.store mutated !! l').
Proof.
  intros Hlive.
  destruct (deepcopy_fresh fuel (Store.store self) (Store.context self) t Hlive)
    as (c & h1 & m1 & Hcopy1 & Hsub1 & Hc1 & Hnew1).
  eexists _, c. unfold Store.create_checkpoint. rewrite Hcopy1. simpl.
  split; [reflexivity|]. split; [reflexivity|].
  split; [apply lookup_insert_eq|].
  split; [eapply reify_mono; eassumption|].
  split; [intros l Hl; apply (Hnew1 l Hl)|].
  intros mutated [Hckpt Hframe]. simpl in Hckpt, Hframe.
  (* the stored copy is out of reach of the live state, so it survives *)
  assert (Hc2 : Store.reify fuel (Store.store mutated) (Store.VRef c) = Some t).
  { eapply reify_frame; [exact Hc1|].
    intros l c' [= <-] Hreach. destruct (Hnew1 c' Hreach) as [Hin Hout].
    apply Hframe; [exact Hin|].
    intros Hlive'. apply Hout. eapply reach_old; eassumption. }
  destruct (deepcopy_fresh fuel (Store.store mutated) c t Hc2)
    as (l2 & h2 & m2 & Hcopy2 & Hsub2 & Hl2 & Hnew2).
  unfold Store.restore_checkpoint. rewrite Hckpt, lookup_insert_eq, Hcopy2. simpl.
  eexists. split; [reflexivity|]. simpl.
  assert (Hold : ∀ l, l ∈ dom (Store.store mutated) →
                      h2 !! l = Store.store mutated !! l).
  { intros l Hl. apply elem_of_dom in Hl as [o Ho].
    rewrite Ho. eapply lookup_weaken; eassumption. }
  split; [exact Hl2|]. split; [reflexivity|].
  split; [eapply reify_mono; eassumption|].
  split; [exact Hold|]. split; [exact Hnew2|]. split.
  - intros l o Hl. eapply reify_frame; [exact Hl2|].
    intros l' c' [= <-] Hreach. apply lookup_insert_ne.
    intros <-. apply (Hnew2 _ Hreach). exact Hl.
  - intros l o Hreach. destruct (Hnew2 l Hreach) as [_ Hout]. split.
    + eapply reify_frame; [eapply reify_mono; eassumption|].
      intros l' c' [= <-] Hreach'. apply lookup_insert_ne.
      intros <-. apply Hout. eapply reach_old; eassumption.
    + intros l' Hl'. rewrite lookup_insert_ne by (intros <-; contradiction).
      apply Hold. exact Hl'.
Qed.

Section LiveMutation.

Import Store.

(** Overwriting an object reachable from the live context, after
    allocating a new one, is a mutation of the live state. *)
Lemma write_mutates_live self new onew l o :
  new ∉ dom (store self) → reach (store self) (context self) l →
  mutates_live self
    {| store := <[l := o]> (<[new := onew]> (store self));
       context := context self; _checkpoints := _checkpoints self |}.
Proof.
  intros Hnew Hreach. split; [reflexivity|]. simpl.
  intros l' Hin Hnot.
  rewrite lookup_insert_ne by (intros <-; contradiction).
  rewrite lookup_insert_ne by (intros <-; contradiction).
  reflexivity.
Qed.

Lemma add_new_icp_result_mutates_live r self self' :
  add_new_icp_result r self = Some self' → mutates_live self self'.
Proof.
  unfold add_new_icp_result, alloc.
  set (new := fresh (dom (store self))).
  assert (Hnew : new ∉ dom (store self)) by apply is_fresh.
  unfold add_icp_result, append_to, getattr. simpl.
  destruct (decide (context self = new)) as [Heq|Hne].
  { rewrite Heq, lookup_insert_eq. simpl. discriminate. }
  rewrite lookup_insert_ne by congruence.
  destruct (store self !! context self) as [ctx|] eqn:Hctx; [|discriminate]. simpl.
  destruct (py_slots ctx !! attr_icp_results) as [v|] eqn:Hslot; [|discriminate].
  simpl. rewrite lookup_insert_eq. simpl.
  destruct v as [| | | |l]; try discriminate.
  assert (Hreach : reach (store self) (context self) l).
  { eapply reach_slot; [exact Hctx | | apply reach_here].
    eapply list_elem_of_lookup_2. exact Hslot. }
  destruct (<[new:=ICPResult_obj r]> (store self) !! l) as [lst|]; [|discriminate].
  simpl.
  destruct (List.find _ (py_slots lst)) as [[| | | |e]|]; try discriminate.
  - destruct (<[new:=ICPResult_obj r]> (store self) !! e) as [existing|]; [|discriminate].
    simpl. destruct (first_index _ _) as [idx|]; [|discriminate]. simpl.
    intros [= <-]. apply write_mutates_live; assumption.
  - simpl. intros [= <-]. apply write_mutates_live; assumption.
Qed.

End LiveMutation.

(** The scenario of the specification: checkpoint "pre-validate", one
    score record added, restore. *)
Lemma checkpoint_restore_independent_witness :
  let self := Store.init "https://conf.example" false in
  ∃ saved mutated restored,
    Store.create_checkpoint 3 "pre-validate" self = Some saved ∧
    Store.add_new_icp_result (Disputes.scored "Acme" 40 "Low") saved = Some mutated ∧
    Store.icp_results_len mutated = Some 1%nat ∧
    Store.restore_checkpoint 3 "pre-validate" mutated = Some (true, restored) ∧
    Store.icp_results_len restored = Some 0%nat ∧
    Store.reify 3 (Store.store restored) (Store.VRef (Store.context restored))
      = Store.reify 3 (Store.store self) (Store.VRef (Store.context self)) ∧
    (∀ l, Store.reach (Store.store restored) (Store.context restored) l →
          l ∉ dom (Store.store mutated)).
Proof.
  intros self.
  destruct (Store.reify 3 (Store.store self) (Store.VRef (Store.context self)))
    as [t|] eqn:Hlive; [|vm_compute in Hlive; discriminate].
  destruct (checkpoint_restore_independent 3 "pre-validate" self t Hlive)
    as (saved & c & Hcreate & _ & _ & _ & _ & Hrestore).
  pose proof Hcreate as Hsaved. vm_compute in Hsaved. injection Hsaved as Hsaved.
  destruct (Store.add_new_icp_result (Disputes.scored "Acme" 40 "Low") saved)
    as [mutated|] eqn:Hadd;
    [|rewrite <- Hsaved in Hadd; vm_compute in Hadd; discriminate].
  destruct (Hrestore mutated (add_new_icp_result_mutates_live _ _ _ Hadd))
    as (restored & Hres & Hread & _ & _ & _ & Hfresh & _).
  exists saved, mutated, restored.
  split; [exact Hcreate|]. split; [exact Hadd|].
  pose proof Hadd as Hmut. rewrite <- Hsaved in Hmut. vm_compute in Hmut.
  injection Hmut as Hmut.
  split; [rewrite <- Hmut; vm_compute; reflexivity|].
  split; [exact Hres|].
  pose proof Hres as Hrest. rewrite <- Hmut in Hrest. vm_compute in Hrest.
  injection Hrest as Hrest.
  split; [rewrite <- Hrest; vm_compute; reflexivity|].
  split; [exact Hread|].
  intros l Hl. apply (Hfresh l Hl).
Defined.

Section NeverCreated.

Import Store.

Lemma setattr_checkpoints self attr v self' :
  setattr self attr v = Some self' → _checkpoints self' = _checkpoints self.
Proof.
  unfold setattr. destruct (store self !! context self); [|discriminate].
  intros [= <-]. reflexivity.
Qed.

Lemma append_to_checkpoints self attr v self' :
  append_to self attr v = Some self' → _checkpoints self' = _checkpoints self.
Proof.
  unfold append_to. destruct (getattr self attr) as [[| | | |l]|]; try discriminate.
  simpl. destruct (store self !! l); [|discriminate].
  intros [= <-]. reflexivity.
Qed.

Lemma add_icp_result_checkpoints result self self' :
  add_icp_result result self = Some self' → _checkpoints self' = _checkpoints self.
Proof.
  unfold add_icp_result.
  destruct (getattr self attr_icp_results) as [v|] eqn:Hget; [|discriminate]. simpl.
  destruct (store self !! result); [|discriminate]. simpl.
  destruct v as [| | | |l]; try discriminate.
  destruct (store self !! l) as [lst|]; [|discriminate]. simpl.
  destruct (List.find _ (py_slots lst)) as [[| | | |e]|]; try discriminate.
  - destruct (store self !! e); [|discriminate]. simpl.
    destruct (first_index _ _); [|discriminate]. intros [= <-]. reflexivity.
  - unfold append_to. rewrite Hget. simpl.
    destruct (store self !! l); [|discriminate]. intros [= <-]. reflexivity.
Qed.

(** Only [create_checkpoint] writes to the table of checkpoints, and
    only under the name it is given. *)
Lemma perform_keeps_absent fuel c self self' name :
  perform fuel c self = Some self' → c ≠ CreateCheckpoint name →
  _checkpoints self !! name = None → _checkpoints self' !! name = None.
Proof.
  intros Hperform Hc Hnone. destruct c as [n | n | s | a | e | r]; simpl in Hperform.
  - unfold create_checkpoint in Hperform.
    destruct (deepcopy fuel _ _ _) as [[[copy h] m]|]; [|discriminate].
    simpl in Hperform. destruct copy; try discriminate.
    injection Hperform as <-. simpl.
    rewrite lookup_insert_ne by congruence. exact Hnone.
  - unfold restore_checkpoint in Hperform.
    destruct (_checkpoints self !! n).
    + destruct (deepcopy fuel _ _ _) as [[[copy h] m]|]; [|discriminate].
      simpl in Hperform. destruct copy; try discriminate.
      injection Hperform as <-. exact Hnone.
    + injection Hperform as <-. exact Hnone.
  - rewrite (setattr_checkpoints _ _ _ _ Hperform). exact Hnone.
  - rewrite (setattr_checkpoints _ _ _ _ Hperform). exact Hnone.
  - rewrite (append_to_checkpoints _ _ _ _ Hperform). exact Hnone.
  - unfold add_new_icp_result, alloc in Hperform.
    rewrite (add_icp_result_checkpoints _ _ _ Hperform). exact Hnone.
Qed.

Lemma run_keeps_absent fuel calls self self' name :
  run fuel calls self = Some self' → CreateCheckpoint name ∉ calls →
  _checkpoints self !! name = None → _checkpoints self' !! name = None.
Proof.
  revert self. induction calls as [|c calls IH]; intros self Hrun Hnot Hnone.
  - injection Hrun as <-. exact Hnone.
  - simpl in Hrun. destruct (perform fuel c self) as [self1|] eqn:Hc; [|discriminate].
    simpl in Hrun. apply not_elem_of_cons in Hnot as [Hne Hnot].
    eapply IH; [exact Hrun | exact Hnot |].
    eapply perform_keeps_absent; [exact Hc | congruence | exact Hnone].
Qed.

End NeverCreated.

(** C10. [restore_checkpoint] with a name for which no checkpoint was
    ever created returns false and leaves the context as it was: the
    store, with the conference data, the score records, the messages, the
    errors and the status in it, the reference to the live state and the
    table of stored checkpoints are the same after the call.  A name was
    never created in a context reached from a new [SharedContext] by calls
    among which no [create_checkpoint] bears it. *)
Theorem restore_unknown_checkpoint_is_noop (fuel : nat) (name : string) :
  (∀ self,
     Store._checkpoints self !! name = None →
     Store.restore_checkpoint fuel name self = Some (false, self)) ∧
  (∀ url verbose calls self,
     Store.run fuel calls (Store.init url verbose) = Some self →
     Store.CreateCheckpoint name ∉ calls →
     Store._checkpoints self !! name = None ∧
     Store.restore_checkpoint fuel name self = Some (false, self)).
Proof.
  assert (Hnoop : ∀ self, Store._checkpoints self !! name = None →
                          Store.restore_checkpoint fuel name self = Some (false, self)).
  { intros self Hnone. unfold Store.restore_checkpoint. rewrite Hnone. reflexivity. }
  split; [exact Hnoop|].
  intros url verbose calls self Hrun Hnot.
  assert (Hnone : Store._checkpoints self !! name = None).
  { eapply run_keeps_absent; [exact Hrun | exact Hnot |].
    unfold Store.init, Store.alloc. simpl. apply lookup_empty. }
  split; [exact Hnone | apply Hnoop; exact Hnone].
Qed.

Lemma restore_unknown_checkpoint_is_noop_witness :
  ∃ self,
    Store.run 3 [Store.CreateCheckpoint "pre-validate";
                 Store.AddIcpResult (Disputes.scored "Acme" 40 "Low");
                 Store.SetStatus "in_progress"]
      (Store.init "https://conf.example" false) = Some self ∧
    Store.restore_checkpoint 3 "pre-enrich" self = Some (false, self).
Proof.
  destruct (Store.run 3 [Store.CreateCheckpoint "pre-validate";
                         Store.AddIcpResult (Disputes.scored "Acme" 40 "Low");
                         Store.SetStatus "in_progress"]
              (Store.init "https://conf.example" false)) as [self|] eqn:Hrun;
    [|vm_compute in Hrun; discriminate].
  exists self. split; [reflexivity|].
  destruct (restore_unknown_checkpoint_is_noop 3 "pre-enrich") as [_ H].
  apply (H _ _ _ _ Hrun).
  intros Hin. repeat (apply elem_of_cons in Hin as [Hin|Hin]; [discriminate|]).
  apply elem_of_nil in Hin. exact Hin.
Defined.

(** ** The two levels of [add_icp_result] *)

Section UpsertRefinement.

Import Store.

Lemma ICPResult_obj_inj r r' : ICPResult_obj r = ICPResult_obj r' → r = r'.
Proof.
  destruct r as [n s f re i t d sz b v di dr fs],
           r' as [n' s' f' re' i' t' d' sz' b' v' di' dr' fs'].
  unfold ICPResult_obj. simpl. intros H.
  injection H as -> -> -> -> -> -> -> -> -> -> -> -> Hfs.
  destruct fs, fs'; try discriminate; [injection Hfs as ->|]; reflexivity.
Qed.

Lemma find_represents h items rs (p : pyval → bool) (q : ICPResult → bool) :
  represents h items rs →
  (∀ i r, h !! i = Some (ICPResult_obj r) → p (VRef i) = q r) →
  match List.find p items, List.find q rs with
  | Some item, Some r => ∃ i, item = VRef i ∧ h !! i = Some (ICPResult_obj r)
  | None, None => True
  | _, _ => False
  end.
Proof.
  intros Hrep Hpq. induction Hrep as [|item r items rs (i & -> & Hi) _ IH]; simpl; [exact I|].
  rewrite (Hpq i r Hi). destruct (q r); [eauto | exact IH].
Qed.

Lemma first_index_represents h items rs (p : pyval → bool) (e : ICPResult) :
  represents h items rs →
  (∀ i r, h !! i = Some (ICPResult_obj r) → p (VRef i) = bool_decide (r = e)) →
  first_index p items = Context.index e rs.
Proof.
  intros Hrep Hp. induction Hrep as [|item r items rs (i & -> & Hi) _ IH]; simpl;
    [reflexivity|].
  rewrite (Hp i r Hi). destruct (decide (r = e)) as [->|Hne].
  - rewrite bool_decide_eq_true_2 by reflexivity. reflexivity.
  - rewrite bool_decide_eq_false_2 by exact Hne. rewrite IH. reflexivity.
Qed.

Lemma represents_frame h h' items rs :
  represents h items rs →
  (∀ i r, h !! i = Some (ICPResult_obj r) → h' !! i = Some (ICPResult_obj r)) →
  represents h' items rs.
Proof.
  intros Hrep Hsame. eapply Forall2_impl; [exact Hrep|].
  intros item r (i & -> & Hi). eauto.
Qed.

(** On a results list whose items hold the records [rs], the call on
    objects does what [Context.add_icp_result] does on [rs]. *)
Lemma add_icp_result_refines self l lst rs result r :
  getattr self attr_icp_results = Some (VRef l) →
  store self !! l = Some lst → py_class lst = "list" →
  represents (store self) (py_slots lst) rs →
  store self !! result = Some (ICPResult_obj r) →
  ∃ self' lst' rs',
    add_icp_result result self = Some self' ∧
    Context.add_icp_result r rs = Some rs' ∧
    store self' !! l = Some lst' ∧
    represents (store self') (py_slots lst') rs' ∧
    context self' = context self.
Proof.
  intros Hget Hlst Hclass Hrep Hres.
  assert (Hother : ∀ i r0 o, store self !! i = Some (ICPResult_obj r0) →
                             <[l := o]> (store self) !! i = Some (ICPResult_obj r0)).
  { intros i r0 o Hi. rewrite lookup_insert_ne; [exact Hi|].
    intros <-. rewrite Hlst in Hi. injection Hi as ->. discriminate. }
  unfold add_icp_result. rewrite Hget. simpl. rewrite Hres. simpl. rewrite Hlst. simpl.
  set (same_name := λ item, bool_decide (company_name_at (store self) item
                                         = Some (VStr (company_name r)))).
  assert (Hsame : ∀ i r0, store self !! i = Some (ICPResult_obj r0) →
                          same_name (VRef i)
                          = bool_decide (company_name r0 = company_name r)).
  { intros i r0 Hi. unfold same_name. simpl. rewrite Hi. simpl.
    apply bool_decide_ext. split; [intros [= ->]; reflexivity | intros ->; reflexivity]. }
  pose proof (find_represents (store self) (py_slots lst) rs same_name
                (λ r0, bool_decide (company_name r0 = company_name r)) Hrep Hsame)
    as Hfind.
  unfold Context.add_icp_result, Context.existing_for.
  destruct (List.find same_name (py_slots lst)) as [item|] eqn:Ef;
    destruct (List.find _ rs) as [existing|] eqn:Er;
    try contradiction.
  - destruct Hfind as (e & -> & He). rewrite He. simpl.
    rewrite (first_index_represents (store self) _ rs _ existing Hrep).
    2:{ intros i r0 Hi. rewrite Hi. apply bool_decide_ext.
        split; [intros H; apply ICPResult_obj_inj; congruence | intros ->; reflexivity]. }
    destruct (Context.index existing rs) as [idx|] eqn:Eidx.
    + simpl. eexists _, _, _. split; [reflexivity|]. split; [reflexivity|].
      simpl. split; [apply lookup_insert_eq|]. split; [|reflexivity]. simpl.
      apply Forall2_insert.
      * eapply represents_frame; [exact Hrep|]. intros; apply Hother; assumption.
      * exists result. split; [reflexivity|]. apply Hother. exact Hres.
    + exfalso. clear -Er Eidx.
      apply find_some in Er as [Hin _]. revert Eidx.
      induction rs as [|x rs IH]; [destruct Hin|]. simpl.
      destruct (decide (x = existing)); [discriminate|].
      destruct Hin as [->|Hin]; [contradiction|].
      destruct (Context.index existing rs); [discriminate|]. intros _. apply IH; auto.
  - clear Hfind. unfold append_to. rewrite Hget. simpl. rewrite Hlst. simpl.
    eexists _, _, _. split; [reflexivity|]. split; [reflexivity|].
    simpl. split; [apply lookup_insert_eq|]. split; [|reflexivity]. simpl.
    apply Forall2_app.
    + eapply represents_frame; [exact Hrep|]. intros; apply Hother; assumption.
    + constructor; [|constructor]. exists result. split; [reflexivity|].
      apply Hother. exact Hres.
Qed.

End UpsertRefinement.

(** * Further properties *)

(** ** Delivery *)

Section Delivery.

Context {World : Type}.
Implicit Types (bus : Bus.MessageBus World) (w : World) (m : Bus.AgentMessage).

Lemma broadcast_audience m (subs : list (string * list (Bus.Handler World))) w :
  Bus.broadcast m subs w = History.deliver m (History.audience m subs) w.
Proof.
  unfold Bus.broadcast, History.deliver, History.audience.
  revert w. induction subs as [|[a hs] subs IH]; intros w; [reflexivity|].
  simpl. rewrite IH. destruct (decide (a ≠ Bus.sender m)) as [Hne|Heq].
  - rewrite filter_cons_True by exact Hne. simpl. rewrite foldl_app. reflexivity.
  - rewrite filter_cons_False by exact Heq. reflexivity.
Qed.

Lemma audience_spec m (subs : list (string * list (Bus.Handler World)))
    (h : Bus.Handler World) :
  h ∈ History.audience m subs ↔
  ∃ a hs, (a, hs) ∈ subs ∧ a ≠ Bus.sender m ∧ h ∈ hs.
Proof.
  unfold History.audience. induction subs as [|[a hs] subs IH].
  - simpl. split; [intros H; inversion H | intros (a & hs & H & _); inversion H].
  - destruct (decide (a ≠ Bus.sender m)) as [Hne|Heq].
    + rewrite filter_cons_True by exact Hne. simpl. rewrite elem_of_app, IH. split.
      * intros [Hh | (a' & hs' & Hin & Hne' & Hh)].
        -- exists a, hs. split; [left|]; auto.
        -- exists a', hs'. split; [right|]; auto.
      * intros (a' & hs' & Hin & Hne' & Hh). apply elem_of_cons in Hin as [[= -> ->] | Hin].
        -- left. exact Hh.
        -- right. eauto.
    + rewrite filter_cons_False by exact Heq. rewrite IH. split.
      * intros (a' & hs' & Hin & Hne' & Hh). exists a', hs'. split; [right|]; auto.
      * intros (a' & hs' & Hin & Hne' & Hh). apply elem_of_cons in Hin as [[= -> ->] | Hin].
        -- contradiction.
        -- eauto.
Qed.

(** X1. A message to "ALL" is handed, in subscription order, to the
    handlers of every subscribed agent other than the sender and to no
    other handler; no response is returned, the message is recorded in the
    history and nothing is queued. *)
Theorem broadcast_reaches_all_but_sender bus w m :
  Bus.recipient m = "ALL" →
  Bus.send m bus w
  = (None, Bus.log m bus,
     History.deliver m (History.audience m (Bus._subscribers bus)) w) ∧
  Bus._pending_messages (Bus.send m bus w).1.2 = Bus._pending_messages bus ∧
  Bus._message_history (Bus.send m bus w).1.2 = Bus._message_history bus ++ [m] ∧
  (∀ h, h ∈ History.audience m (Bus._subscribers bus) ↔
        ∃ a hs, (a, hs) ∈ Bus._subscribers bus ∧ a ≠ Bus.sender m ∧ h ∈ hs).
Proof.
  intros Hall.
  assert (Hsend : Bus.send m bus w
                  = (None, Bus.log m bus,
                     History.deliver m (History.audience m (Bus._subscribers bus)) w)).
  { unfold Bus.send. destruct (decide _); [|contradiction].
    rewrite broadcast_audience. reflexivity. }
  rewrite Hsend. split; [reflexivity|]. split; [reflexivity|]. split; [reflexivity|].
  intros h. apply audience_spec.
Qed.

Lemma first_response_app m (before rest : list (Bus.Handler World)) w :
  Bus.first_response m (before ++ rest) w
  = match Bus.first_response m before w with
    | (Some r, w') => (Some r, w')
    | (None, w') => Bus.first_response m rest w'
    end.
Proof.
  revert w. induction before as [|h before IH]; intros w; simpl; [reflexivity|].
  destruct (h m w) as [[r|] w']; [reflexivity | apply IH].
Qed.

(** X2. A message to a registered recipient is handed to its handlers in
    registration order up to the first one that answers: that answer is
    returned and recorded after the message, and the handlers registered
    after it are not called.  When no handler answers, nothing is returned
    and the message is recorded but not queued. *)
Theorem first_responder_wins bus w m (hs : list (Bus.Handler World)) :
  Bus.recipient m ≠ "ALL" →
  Bus.handlers_of (Bus.recipient m) (Bus._subscribers bus) = Some hs →
  (∀ before h after w1 r w2,
     hs = before ++ h :: after →
     Bus.first_response m before w = (None, w1) →
     h m w1 = (Some r, w2) →
     Bus.send m bus w = (Some r, Bus.log r (Bus.log m bus), w2)) ∧
  (∀ w', Bus.first_response m hs w = (None, w') →
         Bus.send m bus w = (None, Bus.log m bus, w') ∧
         Bus._pending_messages (Bus.send m bus w).1.2 = Bus._pending_messages bus).
Proof.
  intros Hall Hhs. split.
  - intros before h after w1 r w2 -> Hbefore Hh.
    unfold Bus.send. destruct (decide _); [contradiction|]. simpl. rewrite Hhs.
    rewrite first_response_app, Hbefore. simpl. rewrite Hh. reflexivity.
  - intros w' Hnone.
    assert (Hsend : Bus.send m bus w = (None, Bus.log m bus, w')).
    { unfold Bus.send. destruct (decide _); [contradiction|]. simpl.
      rewrite Hhs, Hnone. reflexivity. }
    rewrite Hsend. split; reflexivity.
Qed.

Lemma send_history m bus w :
  Bus._message_history (Bus.send m bus w).1.2
  = Bus._message_history bus ++ m :: History.recorded (Bus.send m bus w).1.1.
Proof.
  unfold Bus.send. destruct (decide _); [reflexivity|]. simpl.
  destruct (Bus.handlers_of _ _); [|reflexivity].
  destruct (Bus.first_response _ _ _) as [[r|] w']; simpl; [|reflexivity].
  rewrite <- app_assoc. reflexivity.
Qed.

Lemma send_no_subscribers m bus w :
  Bus._subscribers bus = [] → (Bus.send m bus w).1.1 = None.
Proof.
  intros Hsubs. unfold Bus.send. destruct (decide _); [reflexivity|]. simpl.
  rewrite Hsubs. reflexivity.
Qed.

(** X3. The history is append-only and complete: every call of [send]
    adds the message, followed by the response when there is one, to the
    end of the history, whether or not the message could be delivered; a
    run of sends therefore leaves the earlier history as a prefix and the
    sent messages, in send order, within what was added. *)
Theorem history_records_every_send (ms : list Bus.AgentMessage) bus w :
  (∀ m, Bus._message_history (Bus.send m bus w).1.2
        = Bus._message_history bus ++ m :: History.recorded (Bus.send m bus w).1.1) ∧
  ∃ trace,
    Bus._message_history (Bus.send_all ms bus w).1 = Bus._message_history bus ++ trace ∧
    ms `sublist_of` trace ∧
    (length ms ≤ length trace ≤ 2 * length ms)%nat ∧
    (Bus._subscribers bus = [] → trace = ms).
Proof.
  split; [intros m; apply send_history|].
  revert bus w. induction ms as [|m ms IH]; intros bus w.
  - exists []. simpl. rewrite app_nil_r. repeat split; try lia. constructor.
  - rewrite send_all_cons.
    destruct (IH (Bus.send m bus w).1.2 (Bus.send m bus w).2)
      as (trace & Hh & Hsub & Hlen & Hnone).
    exists (m :: History.recorded (Bus.send m bus w).1.1 ++ trace).
    rewrite Hh, send_history, <- app_assoc. simpl.
    split; [reflexivity|]. split; [|split].
    + constructor. apply sublist_inserts_l. exact Hsub.
    + rewrite length_app. destruct ((Bus.send m bus w).1.1); simpl; lia.
    + intros Hsubs. rewrite (send_no_subscribers m bus w Hsubs). simpl. f_equal.
      apply Hnone. rewrite send_subscribers. exact Hsubs.
Qed.

Lemma filter_same {A} (P Q : A → Prop) `{∀ x, Decision (P x)} `{∀ x, Decision (Q x)}
    (l : list A) :
  (∀ x, P x ↔ Q x) → filter P l = filter Q l.
Proof.
  intros HPQ. induction l as [|x l IH]; [reflexivity|].
  destruct (decide (P x)) as [HP|HP].
  - rewrite (filter_cons_True P) by exact HP.
    rewrite (filter_cons_True Q) by (apply HPQ; exact HP). rewrite IH. reflexivity.
  - rewrite (filter_cons_False P) by exact HP.
    rewrite (filter_cons_False Q) by (rewrite <- HPQ; exact HP). exact IH.
Qed.

Lemma filter_all {A} (P : A → Prop) `{∀ x, Decision (P x)} (l : list A) :
  (∀ x, P x) → filter P l = l.
Proof.
  intros HP. induction l as [|x l IH]; [reflexivity|].
  rewrite filter_cons_True by apply HP. rewrite IH. reflexivity.
Qed.

(** X4. [get_history] returns, in history order, exactly the recorded
    messages that pass every filter given; a filter that is [None] or the
    empty string is no filter, so that without filters the whole history
    is returned. *)
Theorem get_history_selects (sender recipient conversation_id : option string) bus :
  History.get_history sender recipient conversation_id bus
  = filter (History.selected sender recipient conversation_id)
      (Bus._message_history bus) ∧
  History.get_history None None None bus = Bus._message_history bus ∧
  History.get_history (Some "") recipient conversation_id bus
  = History.get_history None recipient conversation_id bus.
Proof.
  split; [|split; reflexivity].
  unfold History.get_history.
  destruct (History.given sender) as [s|] eqn:Es,
    (History.given recipient) as [r|] eqn:Er,
    (History.given conversation_id) as [c|] eqn:Ec;
    rewrite ?list_filter_filter;
    try (apply filter_same; intros m;
         unfold History.selected, History.matches; rewrite Es, Er, Ec; tauto).
  symmetry. apply filter_all. intros m.
  unfold History.selected, History.matches. rewrite Es, Er, Ec. tauto.
Qed.

(** X5. [unsubscribe] removes every handler of the agent and nothing
    else: the agent is no longer registered, the other agents keep their
    handlers, the queues and the history are untouched; a later message to
    the agent is queued without any handler being called, and a later
    [subscribe] starts from the new handler alone. *)
Theorem unsubscribe_removes_all_handlers bus w (a : string) :
  a ≠ "ALL" →
  Bus.subscribed a (Bus.unsubscribe a bus) = false ∧
  (∀ b, b ≠ a → Bus.handlers_of b (Bus._subscribers (Bus.unsubscribe a bus))
                = Bus.handlers_of b (Bus._subscribers bus)) ∧
  Bus._pending_messages (Bus.unsubscribe a bus) = Bus._pending_messages bus ∧
  Bus._message_history (Bus.unsubscribe a bus) = Bus._message_history bus ∧
  (∀ m, Bus.recipient m = a →
        Bus.send m (Bus.unsubscribe a bus) w
        = (None, Bus.enqueue m (Bus.log m (Bus.unsubscribe a bus)), w)) ∧
  (∀ h, Bus.handlers_of a (Bus._subscribers (Bus.subscribe a h (Bus.unsubscribe a bus)))
        = Some [h]).
Proof.
  intros Hall.
  assert (Hgone : ∀ subs : list (string * list (Bus.Handler World)),
            Bus.handlers_of a (filter (λ entry, fst entry ≠ a) subs) = None).
  { induction subs as [|[k hs] subs IH]; [reflexivity|].
    destruct (decide (k ≠ a)) as [Hne|Heq].
    - rewrite filter_cons_True by exact Hne. simpl.
      destruct (decide (k = a)); [contradiction | exact IH].
    - rewrite filter_cons_False by exact Heq. exact IH. }
  assert (Hkept : ∀ b (subs : list (string * list (Bus.Handler World))), b ≠ a →
            Bus.handlers_of b (filter (λ entry, fst entry ≠ a) subs)
            = Bus.handlers_of b subs).
  { intros b subs Hb. induction subs as [|[k hs] subs IH]; [reflexivity|].
    destruct (decide (k ≠ a)) as [Hne|Heq].
    - rewrite filter_cons_True by exact Hne. simpl.
      destruct (decide (k = b)); [reflexivity | exact IH].
    - rewrite filter_cons_False by exact Heq. simpl.
      destruct (decide (k = b)) as [->|_]; [|exact IH].
      exfalso. apply Heq. simpl. exact Hb. }
  assert (Hsub : Bus.subscribed a (Bus.unsubscribe a bus) = false).
  { apply subscribed_false. apply Hgone. }
  split; [exact Hsub|]. split; [intros b Hb; apply Hkept; exact Hb|].
  split; [reflexivity|]. split; [reflexivity|]. split.
  - intros m Hm. apply send_unregistered; rewrite Hm; assumption.
  - intros h. simpl.
    assert (Happend : ∀ subs : list (string * list (Bus.Handler World)),
              Bus.handlers_of a subs = None →
              Bus.handlers_of a (Bus.append_handler a h subs) = Some [h]).
    { induction subs as [|[k hs] subs IH]; simpl.
      - intros _. destruct (decide (a = a)); [reflexivity | contradiction].
      - destruct (decide (k = a)); [discriminate|]. intros Hnone. simpl.
        destruct (decide (k = a)); [contradiction|]. apply IH. exact Hnone. }
    apply Happend. apply Hgone.
Qed.

End Delivery.

Lemma broadcast_reaches_all_but_sender_witness :
  Bus.send (Samples.note "A" "ALL" "hello") Samples.two_agents []
  = (None, Bus.log (Samples.note "A" "ALL" "hello") Samples.two_agents,
     ["b1"; "b2"; "b3"]).
Proof.
  destruct (broadcast_reaches_all_but_sender Samples.two_agents []
              (Samples.note "A" "ALL" "hello") eq_refl) as [H _].
  exact H.
Defined.

Lemma first_responder_wins_witness :
  Bus.send (Samples.note "A" "B" "question") Samples.two_agents []
  = (Some (Samples.note "B" "A" "answer"),
     Bus.log (Samples.note "B" "A" "answer")
       (Bus.log (Samples.note "A" "B" "question") Samples.two_agents),
     ["b1"; "b2"]).
Proof.
  destruct (first_responder_wins Samples.two_agents [] (Samples.note "A" "B" "question")
              [Samples.recording "b1" None;
               Samples.recording "b2" (Some (Samples.note "B" "A" "answer"));
               Samples.recording "b3" None]) as [H _].
  - discriminate.
  - reflexivity.
  - apply (H [Samples.recording "b1" None]
             (Samples.recording "b2" (Some (Samples.note "B" "A" "answer")))
             [Samples.recording "b3" None] ["b1"]); reflexivity.
Defined.

Lemma unsubscribe_removes_all_handlers_witness :
  Bus.send (Samples.note "A" "B" "question") (Bus.unsubscribe "B" Samples.two_agents) []
  = (None,
     Bus.enqueue (Samples.note "A" "B" "question")
       (Bus.log (Samples.note "A" "B" "question") (Bus.unsubscribe "B" Samples.two_agents)),
     []).
Proof.
  destruct (unsubscribe_removes_all_handlers Samples.two_agents [] "B")
    as (_ & _ & _ & _ & H & _).
  - discriminate.
  - apply H. reflexivity.
Defined.

(** ** Company details *)

Section DetailsFacts.

Lemma same_name_lower a b : Details.same_name a b = true ↔ Str.lower a = Str.lower b.
Proof. unfold Details.same_name. apply String.eqb_eq. Qed.

Lemma foldl_speakers name (ss : list Schema.Speaker) (details : CompanyInfo) :
  let out :=
    foldl (λ details speaker,
             if Details.same_name (Schema.speaker_company speaker) name
             then Details.append_speaker (Details.speaker_entry speaker) details
             else details)
      details ss in
  info_name out = info_name details ∧ info_industry out = info_industry details ∧
  info_attendees out = info_attendees details ∧ info_size out = info_size details ∧
  info_employee_count out = info_employee_count details ∧
  default [] (info_speakers out)
  = default [] (info_speakers details)
    ++ (Details.speaker_entry
          <$> filter (λ s, Details.same_name (Schema.speaker_company s) name = true) ss) ∧
  (is_Some (info_speakers details) → is_Some (info_speakers out)).
Proof.
  revert details. induction ss as [|s ss IH]; intros details; simpl.
  - rewrite app_nil_r. repeat split; auto.
  - destruct (Details.same_name (Schema.speaker_company s) name) eqn:E.
    + rewrite filter_cons_True by exact E.
      destruct (IH (Details.append_speaker (Details.speaker_entry s) details))
        as (H1 & H2 & H3 & H4 & H5 & H6 & H7).
      simpl in *. rewrite H6, <- app_assoc. repeat split; auto.
    + rewrite filter_cons_False by (rewrite E; discriminate). apply IH.
Qed.

Lemma foldl_attendees name (aa : list Schema.Attendee) (details : CompanyInfo) :
  let out :=
    foldl (λ details attendee,
             if Details.same_name (Schema.attendee_company attendee) name
             then Details.append_attendee (Details.attendee_entry attendee) details
             else details)
      details aa in
  info_name out = info_name details ∧ info_industry out = info_industry details ∧
  info_speakers out = info_speakers details ∧ info_size out = info_size details ∧
  info_employee_count out = info_employee_count details ∧
  default [] (info_attendees out)
  = default [] (info_attendees details)
    ++ (Details.attendee_entry
          <$> filter (λ a, Details.same_name (Schema.attendee_company a) name = true) aa) ∧
  (is_Some (info_attendees details) → is_Some (info_attendees out)).
Proof.
  revert details. induction aa as [|a aa IH]; intros details; simpl.
  - rewrite app_nil_r. repeat split; auto.
  - destruct (Details.same_name (Schema.attendee_company a) name) eqn:E.
    + rewrite filter_cons_True by exact E.
      destruct (IH (Details.append_attendee (Details.attendee_entry a) details))
        as (H1 & H2 & H3 & H4 & H5 & H6 & H7).
      simpl in *. rewrite H6, <- app_assoc. repeat split; auto.
    + rewrite filter_cons_False by (rewrite E; discriminate). apply IH.
Qed.

(** The three loops of [get_company_details] in closed form: the first
    company record of that name up to letter case, and the speakers and
    attendees affiliated to that name up to letter case, in order. *)
Lemma get_company_details_closed data name :
  Details.get_company_details (Some data) name
  = let found :=
      List.find (λ c, Details.same_name (Schema.name c) name) (Schema.companies data) in
    {| info_name := name;
       info_industry := Schema.industry <$> found;
       info_speakers :=
         Some (Details.speaker_entry
                 <$> filter (λ s, Details.same_name (Schema.speaker_company s) name = true)
                       (Schema.speakers data));
       info_attendees :=
         Some (Details.attendee_entry
                 <$> filter (λ a, Details.same_name (Schema.attendee_company a) name = true)
                       (Schema.attendees data));
       info_size := found ≫= Schema.size;
       info_employee_count := None |}.
Proof.
  unfold Details.get_company_details.
  rewrite (for_break_first (λ c, Details.same_name (Schema.name c) name)
             Details.copy_company).
  match goal with
  | |- context [foldl _ (foldl _ ?d _) _] => set (d0 := d)
  end.
  assert (Hd0 : info_name d0 = name ∧
                info_industry d0
                = Schema.industry <$> List.find (λ c, Details.same_name (Schema.name c) name)
                                        (Schema.companies data) ∧
                info_speakers d0 = Some [] ∧ info_attendees d0 = Some [] ∧
                info_size d0
                = List.find (λ c, Details.same_name (Schema.name c) name)
                    (Schema.companies data) ≫= Schema.size ∧
                info_employee_count d0 = None).
  { subst d0. destruct (List.find _ _); simpl; repeat split. }
  destruct Hd0 as (N0 & I0 & S0 & A0 & Z0 & E0).
  destruct (foldl_speakers name (Schema.speakers data) d0)
    as (N1 & I1 & A1 & Z1 & E1 & S1 & K1).
  cbv zeta in *.
  match goal with
  | |- context [foldl _ (foldl ?f d0 ?l) _] => set (d1 := foldl f d0 l) in *
  end.
  destruct (foldl_attendees name (Schema.attendees data) d1)
    as (N2 & I2 & S2 & Z2 & E2 & A2 & K2).
  cbv zeta in *.
  match goal with
  | |- ?lhs = _ => set (d2 := lhs) in *
  end.
  rewrite S0 in S1. rewrite A1, A0 in A2. simpl in S1, A2.
  destruct (K1 ltac:(rewrite S0; eauto)) as [ss Hss].
  destruct (K2 ltac:(rewrite A1, A0; eauto)) as [aa Haa].
  rewrite Hss in S1. rewrite Haa in A2. simpl in S1, A2.
  destruct d2 as [n i s a z e]. simpl in *.
  f_equal; congruence.
Qed.

End DetailsFacts.

(** X6. [get_company_details] identifies an organisation up to letter
    case: two names that differ only in letter case give the same
    industry, size, speakers and attendees, the details differing in the
    echoed name alone. *)
Theorem company_details_ignore_letter_case
    (data : Schema.ConferenceData) (a b : string) :
  Str.lower a = Str.lower b →
  Details.get_company_details (Some data) a
  = Details.renamed a (Details.get_company_details (Some data) b).
Proof.
  intros Hab. rewrite !get_company_details_closed. cbv zeta.
  assert (Hsame : ∀ x, Details.same_name x a = Details.same_name x b).
  { intros x. unfold Details.same_name. rewrite Hab. reflexivity. }
  unfold Details.renamed. simpl.
  assert (Hfind : List.find (λ c, Details.same_name (Schema.name c) a) (Schema.companies data)
                  = List.find (λ c, Details.same_name (Schema.name c) b)
                      (Schema.companies data)).
  { induction (Schema.companies data) as [|c cs IH]; [reflexivity|].
    simpl. rewrite Hsame, IH. reflexivity. }
  rewrite Hfind. f_equal.
  - f_equal. f_equal. apply filter_same. intros s. rewrite Hsame. tauto.
  - f_equal. f_equal. apply filter_same. intros s. rewrite Hsame. tauto.
Qed.

Lemma company_details_ignore_letter_case_witness :
  Details.get_company_details (Some Samples.mixed_case) "acme"
  = Details.renamed "acme" (Details.get_company_details (Some Samples.mixed_case) "ACME")
  ∧ default [] (info_speakers (Details.get_company_details (Some Samples.mixed_case) "acme"))
    = [{| contact_name := Some "Ann Lee"; contact_title := Some "VP Service" |}].
Proof.
  split; [|reflexivity].
  apply (company_details_ignore_letter_case Samples.mixed_case "acme" "ACME").
  reflexivity.
Defined.

(** X7. Every speaker with an affiliation is counted: the affiliation is
    among the names [get_companies] returns, the details of that name list
    the speaker, and rule-based scoring of that name therefore grants the
    speaker bonus, for a score of at least 10. *)
Theorem affiliated_speaker_is_counted
    (data : Schema.ConferenceData) (speaker : Schema.Speaker) :
  speaker ∈ Schema.speakers data →
  Schema.speaker_company speaker ≠ "" →
  let company := Schema.speaker_company speaker in
  let details := Details.get_company_details (Some data) company in
  company ∈ Context.get_companies (Some data) ∧
  Details.speaker_entry speaker ∈ default [] (info_speakers details) ∧
  ∃ r, Validator._rule_based_validation ICP_CRITERIA ICP_THRESHOLDS company details = Some r ∧
       speaker_bonus r = 10 ∧ 10 ≤ score r.
Proof.
  intros Hin Hne company details.
  assert (Hentry : Details.speaker_entry speaker ∈ default [] (info_speakers details)).
  { subst details. rewrite get_company_details_closed. simpl.
    apply list_elem_of_fmap. exists speaker. split; [reflexivity|].
    apply list_elem_of_filter. split; [|exact Hin].
    apply same_name_lower. reflexivity. }
  split; [|split; [exact Hentry|]].
  - unfold Context.get_companies. rewrite elem_of_elements. unfold Context.company_set.
    rewrite foldl_add_affiliations, foldl_add_affiliations.
    left. right. split; [exact Hne|].
    apply list_elem_of_fmap. exists speaker. split; [reflexivity | exact Hin].
  - destruct (rule_based_shape company details)
      as (r & Hr & _ & Hi & Ht & Hd & Hs & Hb & Hsc & _ & _ & Hs3 & _).
    exists r. split; [exact Hr|].
    assert (Hcontact : Rules.has_contact details = true).
    { unfold Rules.has_contact, Validator.speakers_of.
      destruct (default [] (info_speakers details)); [inversion Hentry | reflexivity]. }
    rewrite Hcontact in Hb, Hsc. split; [exact Hb|].
    rewrite Hsc.
    destruct (Rules.industry_matches _ _), (Rules.title_matches _ _),
      (Rules.department_matches _ _); lia.
Qed.

Lemma affiliated_speaker_is_counted_witness :
  "ACME" ∈ Context.get_companies (Some Samples.mixed_case) ∧
  ∃ r, Validator._rule_based_validation ICP_CRITERIA ICP_THRESHOLDS "ACME"
         (Details.get_company_details (Some Samples.mixed_case) "ACME") = Some r ∧
       speaker_bonus r = 10 ∧ 10 ≤ score r.
Proof.
  destruct (affiliated_speaker_is_counted Samples.mixed_case
              {| Schema.speaker_name := "Ann Lee"; Schema.speaker_title := "VP Service";
                 Schema.speaker_company := "ACME" |}) as (H1 & _ & H3).
  - simpl. left.
  - discriminate.
  - split; [exact H1 | exact H3].
Defined.

(** X8. Contacts known only as attendees contribute nothing to the
    rule-based score: when no speaker is affiliated to a name, the title
    score, the department score and the speaker bonus of that name are 0
    whatever the attendees and their titles, the score is at most 45 and
    the fit level is Low. *)
Theorem attendees_do_not_score (data : Schema.ConferenceData) (company : string) :
  (∀ speaker, speaker ∈ Schema.speakers data →
              Details.same_name (Schema.speaker_company speaker) company = false) →
  let details := Details.get_company_details (Some data) company in
  ∃ r, Validator._rule_based_validation ICP_CRITERIA ICP_THRESHOLDS company details = Some r ∧
       title_score r = 0 ∧ department_score r = 0 ∧ speaker_bonus r = 0 ∧
       score r ≤ 45 ∧ fit_level r = "Low".
Proof.
  intros Hnone details.
  assert (Hsp : Validator.speakers_of details = []).
  { subst details. rewrite get_company_details_closed.
    unfold Validator.speakers_of. simpl.
    rewrite filter_none; [reflexivity|].
    intros s Hs Hsame. rewrite (Hnone s Hs) in Hsame. discriminate. }
  destruct (rule_based_shape company details)
    as (r & Hr & _ & Hi & Ht & Hd & Hs & Hb & Hsc & Hfit & _ & Hs3 & _).
  exists r. split; [exact Hr|].
  assert (Ht0 : Rules.title_matches ICP_CRITERIA details = false).
  { unfold Rules.title_matches, Rules.some_title_contains. rewrite Hsp. reflexivity. }
  assert (Hd0 : Rules.department_matches ICP_CRITERIA details = false).
  { unfold Rules.department_matches, Rules.some_title_contains. rewrite Hsp. reflexivity. }
  assert (Hb0 : Rules.has_contact details = false).
  { unfold Rules.has_contact. rewrite Hsp. reflexivity. }
  rewrite Ht0 in Ht, Hsc. rewrite Hd0 in Hd, Hsc. rewrite Hb0 in Hb, Hsc.
  split; [exact Ht|]. split; [exact Hd|]. split; [exact Hb|].
  assert (Hle : score r ≤ 45).
  { rewrite Hsc. destruct (Rules.industry_matches _ _); lia. }
  split; [exact Hle|]. rewrite Hfit. unfold Validator.fit_of. simpl.
  destruct (Z.leb_spec 75 (score r)); [lia|].
  destruct (Z.leb_spec 50 (score r)); [lia|]. reflexivity.
Qed.

Lemma attendees_do_not_score_witness :
  ∃ r, Validator._rule_based_validation ICP_CRITERIA ICP_THRESHOLDS "Initech"
         (Details.get_company_details (Some Samples.attendee_only) "Initech") = Some r ∧
       title_score r = 0 ∧ department_score r = 0 ∧ speaker_bonus r = 0 ∧
       score r ≤ 45 ∧ fit_level r = "Low".
Proof.
  apply (attendees_do_not_score Samples.attendee_only "Initech").
  intros speaker Hin. inversion Hin.
Defined.

(** ** Scoring without an industry or without speakers *)

Lemma prefix_app (x y : string) : String.prefix x (x +:+ y) = true.
Proof.
  induction x as [|c x IH]; simpl; [destruct y; reflexivity|].
  rewrite IH. destruct (Ascii.ascii_dec c c); [reflexivity | contradiction].
Qed.

Lemma prefix_join (x : string) (rest : list string) :
  String.prefix x (Str.join "; " (x :: rest)) = true.
Proof.
  unfold Str.join. destruct rest as [|y rest]; simpl.
  - induction x as [|c x IH]; simpl; [reflexivity|].
    rewrite IH. destruct (Ascii.ascii_dec c c); [reflexivity | contradiction].
  - apply prefix_app.
Qed.

(** What a block outputs extends the trace it was given. *)
Lemma fires_extends matched w parts out :
  Rules.fires matched w parts out → ∃ extra, snd out = parts ++ extra.
Proof.
  unfold Rules.fires. destruct matched.
  - intros [_ [entry ->]]. eauto.
  - intros ->. exists []. simpl. rewrite app_nil_r. reflexivity.
Qed.

(** X9. A company whose industry is missing or empty gets the full
    industry weight from rule-based scoring: the empty string is a
    substring of the first target industry, so the score is at least 30 and
    the reasoning opens with a match on "Manufacturing". *)
Theorem missing_industry_scores_full_weight (name : string) (info : CompanyInfo) :
  default "" (info_industry info) = "" →
  Rules.industry_matches ICP_CRITERIA info = true ∧
  ∃ r, Validator._rule_based_validation ICP_CRITERIA ICP_THRESHOLDS name info = Some r ∧
       industry_score r = 30 ∧ 30 ≤ score r ∧
       String.prefix "Industry match: Manufacturing" (reasoning r) = true.
Proof.
  intros Hempty.
  assert (Hm : Rules.industry_matches ICP_CRITERIA info = true).
  { unfold Rules.industry_matches. rewrite Hempty. reflexivity. }
  split; [exact Hm|].
  destruct (rule_based_shape name info)
    as (r & Hr & _ & Hi & Ht & Hd & Hs & Hb & Hsc & _ & _ & Hs3 & _).
  exists r. split; [exact Hr|]. rewrite Hm in Hi, Hsc. split; [exact Hi|].
  split.
  { rewrite Hsc.
    destruct (Rules.title_matches _ _), (Rules.department_matches _ _),
      (Rules.has_contact _); lia. }
  unfold Validator._rule_based_validation in Hr.
  assert (Hblock : Validator.industry_block ICP_CRITERIA info []
                   = (30, ["Industry match: Manufacturing"])).
  { unfold Validator.industry_block. rewrite Hempty. reflexivity. }
  rewrite Hblock in Hr.
  pose proof (title_block_fires ICP_CRITERIA info ["Industry match: Manufacturing"]
                ltac:(simpl; lia)) as Ft.
  destruct (Validator.title_block ICP_CRITERIA info _) as [t' p2].
  apply fires_extends in Ft as [e2 Hp2]. simpl in Hp2. subst p2.
  pose proof (department_block_fires ICP_CRITERIA info
                ("Industry match: Manufacturing" :: e2) ltac:(simpl; lia)) as Fd.
  destruct (Validator.department_block ICP_CRITERIA info _) as [d' p3].
  apply fires_extends in Fd as [e3 Hp3]. simpl in Hp3. subst p3.
  pose proof (size_block_points ICP_CRITERIA info
                ("Industry match: Manufacturing" :: e2 ++ e3)) as Fs.
  destruct (Validator.size_block ICP_CRITERIA info _) as [s' p4].
  assert (∃ e4, p4 = "Industry match: Manufacturing" :: e4) as [e4 ->].
  { simpl in Fs. destruct Fs as [_ [[= _ ->] | [[entry ->] _]]]; eauto. }
  pose proof (speaker_block_fires ICP_CRITERIA info
                ("Industry match: Manufacturing" :: e4)) as Fb.
  destruct (Validator.speaker_block ICP_CRITERIA info _) as [b' p5].
  apply fires_extends in Fb as [e5 Hp5]. simpl in Hp5. subst p5.
  apply ICPResult_new_Some in Hr as [-> _]. simpl.
  apply prefix_join.
Qed.

Lemma missing_industry_scores_full_weight_witness :
  ∃ r, Validator._rule_based_validation ICP_CRITERIA ICP_THRESHOLDS "Unknown Co"
         {| info_name := "Unknown Co"; info_industry := None; info_speakers := None;
            info_attendees := None; info_size := None; info_employee_count := None |}
       = Some r ∧
       score r = 30 ∧ reasoning r = "Industry match: Manufacturing".
Proof.
  destruct (missing_industry_scores_full_weight "Unknown Co"
              {| info_name := "Unknown Co"; info_industry := None; info_speakers := None;
                 info_attendees := None; info_size := None; info_employee_count := None |})
    as (_ & r & Hr & _).
  - reflexivity.
  - exists r. split; [exact Hr|]. vm_compute in Hr. injection Hr as <-.
    split; reflexivity.
Defined.

(** ** Review and dispute resolution together *)

(** What [_handle_dispute] copies and what it marks. *)
Lemma handle_dispute_record gemini thr original reason suggested revised :
  Validator._handle_dispute gemini thr original reason suggested = Some revised →
  0 ≤ score original ≤ 100 ∧
  company_name revised = company_name original ∧
  disputed revised = true ∧ dispute_reason revised = reason.
Proof.
  unfold Validator._handle_dispute.
  destruct (ICPResult_new _) as [revised0|] eqn:Hnew; [|discriminate].
  apply ICPResult_new_Some in Hnew as [-> Hrange]. simpl in Hrange.
  intros [= <-]. split; [exact Hrange|].
  destruct gemini as [g|]; [destruct (Validator.resolve_dispute g _ _ _)|];
    unfold Validator.accept_if_reasonable; simpl;
    try (destruct suggested as [s|]; [destruct (Validator.accepts _ _)|]);
    simpl; auto.
Qed.

(** X10. Without a usable oracle on either side, every dispute the four
    review rules raise about a record whose score lies in [0,100] is
    accepted by the validator: the caps of the rules are never reached, the
    suggestion is the score plus 15, plus 20 or minus 15, and the revised
    record carries it as score and final score and is marked disputed. *)
Theorem rule_disputes_are_accepted gemini thr result info :
  0 ≤ score result ≤ 100 →
  let review := Quality._review_score_data None result info in
  Quality.should_dispute review = true →
  Disputes.oracle_unavailable gemini result (Quality.reason review)
    (Quality.suggested_score review) →
  ∃ s revised,
    Quality.suggested_score review = Some s ∧
    (s = score result + 15 ∨ s = score result + 20 ∨ s = score result - 15) ∧
    Validator._handle_dispute gemini thr result (Quality.reason review)
      (Quality.suggested_score review) = Some revised ∧
    score revised = s ∧ final_score revised = Some s ∧
    disputed revised = true ∧ score revised ≠ score result.
Proof.
  intros Hrange review Hdispute Hgone.
  assert (Hs : ∃ s, Quality.suggested_score review = Some s ∧ 0 < s ∧
                    (s = score result + 15 ∨ s = score result + 20 ∨ s = score result - 15)).
  { pose proof (review_chain None result info) as Hchain. cbv zeta in Hchain.
    fold review in Hchain.
    unfold ReviewRules.rule1, ReviewRules.rule2, ReviewRules.rule3, ReviewRules.rule4,
      ReviewRules.disputes_with in Hchain.
    destruct (ReviewRules.has_contact info && (score result <? 60)) eqn:E1.
    { apply andb_prop in E1 as [_ E1]. apply Z.ltb_lt in E1.
      destruct Hchain as [_ ->]. exists (Z.min (score result + 15) 85). split; [reflexivity|]. lia. }
    destruct (ReviewRules.senior_contact info && (score result <? 70)) eqn:E2.
    { apply andb_prop in E2 as [_ E2]. apply Z.ltb_lt in E2.
      destruct Hchain as [_ ->]. exists (Z.min (score result + 20) 90). split; [reflexivity|]. lia. }
    destruct (ReviewRules.field_service_contact info && (score result <? 75)) eqn:E3.
    { apply andb_prop in E3 as [_ E3]. apply Z.ltb_lt in E3.
      destruct Hchain as [_ ->]. exists (Z.min (score result + 15) 92). split; [reflexivity|]. lia. }
    destruct ((80 <=? score result) && negb (ReviewRules.has_contact info)
              && Str.contains "Unknown" (reasoning result)) eqn:E4.
    { apply andb_prop in E4 as [E4 _]. apply andb_prop in E4 as [E4 _]. apply Z.leb_le in E4.
      destruct Hchain as [_ ->]. exists (Z.max (score result - 15) 50). split; [reflexivity|]. lia. }
    destruct (Hchain I) as [[Hno _] _]. rewrite Hno in Hdispute. discriminate. }
  destruct Hs as (s & Hs & Hpos & Hdelta). exists s.
  destruct (handle_dispute_fallback gemini thr result (Quality.reason review)
              (Quality.suggested_score review) Hgone Hrange)
    as (revised0 & Hscore0 & Hfinal0 & Hrevised).
  exists (Validator.update_fit_level thr
            (Validator.accept_if_reasonable result (Quality.suggested_score review) revised0)).
  split; [exact Hs|]. split; [exact Hdelta|]. split; [exact Hrevised|].
  destruct (handle_dispute_record _ _ _ _ _ _ Hrevised) as (_ & _ & Hmark & _).
  rewrite update_fit_level_score, update_fit_level_final.
  destruct (accept_if_reasonable_cases result (Quality.suggested_score review) revised0
              Hscore0 Hfinal0) as [(s' & Hs' & _ & _ & Hsc & Hfin) | [Hrej _]].
  - rewrite Hs in Hs'. injection Hs' as <-.
    split; [exact Hsc|]. split; [exact Hfin|]. split; [exact Hmark|]. lia.
  - destruct (Hrej s Hs); lia.
Qed.

Lemma rule_disputes_are_accepted_witness :
  ∃ revised,
    Validator._handle_dispute None ICP_THRESHOLDS (Disputes.scored "Acme" 40 "Low")
      "Company has 1 speaker(s) but score is only 40" (Some 55) = Some revised ∧
    score revised = 55 ∧ final_score revised = Some 55.
Proof.
  destruct (rule_disputes_are_accepted None ICP_THRESHOLDS (Disputes.scored "Acme" 40 "Low")
              (ReviewRules.one_contact "Engineer"))
    as (s & revised & Hs & _ & Hrevised & Hscore & Hfinal & _).
  - simpl. lia.
  - reflexivity.
  - exact I.
  - vm_compute in Hs. injection Hs as <-.
    exists revised. split; [exact Hrevised|]. split; [exact Hscore | exact Hfinal].
Defined.

(** X11. A company no speaker is affiliated to is never disputed after
    rule-based scoring, with or without a review oracle: its score is at
    most 45, which is below what rule 4 requires and below the score from
    which the oracle is consulted, and the first three rules need a
    speaker. *)
Theorem unrepresented_company_is_confirmed
    (gemini : option (ICPResult → CompanyInfo → option Quality.Review))
    (name : string) (info : CompanyInfo) (r : ICPResult) :
  Validator.speakers_of info = [] →
  Validator._rule_based_validation ICP_CRITERIA ICP_THRESHOLDS name info = Some r →
  score r ≤ 45 ∧
  ReviewRules.confirms (Quality._review_score_data gemini r info) ∧
  Quality.original_score (Quality._review_score_data gemini r info) = score r.
Proof.
  intros Hnone Hr.
  destruct (rule_based_shape name info)
    as (r' & Hr' & _ & _ & _ & _ & _ & _ & Hsc & _).
  rewrite Hr in Hr'. injection Hr' as <-.
  assert (Hle : score r ≤ 45).
  { rewrite Hsc. unfold Rules.title_matches, Rules.department_matches,
      Rules.some_title_contains, Rules.has_contact. rewrite Hnone. simpl.
    destruct (Rules.industry_matches _ _);
      unfold Rules.size_points; destruct (Rules.known_size info) as [n|]; simpl;
      repeat match goal with |- context [?a <=? ?b] => destruct (a <=? b) end;
      simpl; try lia; change (15 `div` 2) with 7; lia. }
  split; [exact Hle|].
  pose proof (review_chain gemini r info) as Hchain. cbv zeta in Hchain.
  assert (Hq : ReviewRules.contacts info = []) by exact Hnone.
  unfold ReviewRules.rule1, ReviewRules.rule2, ReviewRules.rule3, ReviewRules.rule4,
    ReviewRules.has_contact, ReviewRules.senior_contact,
    ReviewRules.field_service_contact in Hchain.
  rewrite Hq in Hchain. simpl in Hchain.
  destruct (Z.leb_spec 80 (score r)); [lia|]. simpl in Hchain.
  apply Hchain. unfold ReviewRules.oracle_silent. destruct gemini; [left; lia | exact I].
Qed.

Lemma unrepresented_company_is_confirmed_witness :
  ∃ r, Validator._rule_based_validation ICP_CRITERIA ICP_THRESHOLDS "Initech"
         (Details.get_company_details (Some Samples.attendee_only) "Initech") = Some r ∧
       score r ≤ 45 ∧
       ReviewRules.confirms
         (Quality._review_score_data None r
            (Details.get_company_details (Some Samples.attendee_only) "Initech")).
Proof.
  destruct (rule_based_shape "Initech"
              (Details.get_company_details (Some Samples.attendee_only) "Initech"))
    as (r & Hr & _).
  exists r. split; [exact Hr|].
  destruct (unrepresented_company_is_confirmed None "Initech"
              (Details.get_company_details (Some Samples.attendee_only) "Initech") r)
    as (H1 & H2 & _).
  - reflexivity.
  - exact Hr.
  - split; [exact H1 | exact H2].
Defined.

(** ** Repeated enrichment and repeated disputes *)

Lemma ladder_idem thr x : Sequences.ladder thr (Sequences.ladder thr x) = Sequences.ladder thr x.
Proof.
  unfold Sequences.ladder.
  destruct (high thr <=? score x) eqn:Eh; simpl; [rewrite Eh; reflexivity|].
  destruct (medium thr <=? score x) eqn:Em; simpl; rewrite Eh, ?Em; reflexivity.
Qed.

Lemma ladder_fields thr x :
  score (Sequences.ladder thr x) = score x ∧
  industry_score (Sequences.ladder thr x) = industry_score x ∧
  final_score (Sequences.ladder thr x) = final_score x.
Proof.
  unfold Sequences.ladder.
  destruct (high thr <=? score x); [|destruct (medium thr <=? score x)]; auto.
Qed.

(** [_update_with_enrichment] is the confirmation of the industry, when
    its condition holds, followed by the ladder. *)
Lemma update_with_enrichment_shape crit thr r industry :
  Validator._update_with_enrichment crit thr r industry
  = Sequences.ladder thr
      (if Sequences.confirms_industry crit r industry
       then Sequences.confirmed crit industry r else r).
Proof.
  unfold Validator._update_with_enrichment, Sequences.confirms_industry, Sequences.ladder, any.
  destruct (negb (String.eqb industry "") && (industry_score r =? 0)); simpl; [|reflexivity].
  rewrite (for_break_first
             (λ target, Str.contains (Str.lower target) (Str.lower industry))
             (λ _ result,
                set_reasoning (reasoning
                   (set_score (score (set_industry_score (w_industry_match (score_weights crit)) result)
                               + industry_score (set_industry_score (w_industry_match (score_weights crit)) result))
                      (set_industry_score (w_industry_match (score_weights crit)) result))
                   +:+ "; Industry confirmed: " +:+ industry)
                  (set_score (score (set_industry_score (w_industry_match (score_weights crit)) result)
                              + industry_score (set_industry_score (w_industry_match (score_weights crit)) result))
                     (set_industry_score (w_industry_match (score_weights crit)) result)))).
  destruct (List.find _ _) as [t|] eqn:Efind.
  - rewrite (find_some_existsb _ _ _ Efind). reflexivity.
  - apply find_none_existsb in Efind. rewrite Efind. reflexivity.
Qed.

Lemma update_with_enrichment_fields crit thr r industry :
  let weight := w_industry_match (score_weights crit) in
  let r' := Validator._update_with_enrichment crit thr r industry in
  final_score r' = final_score r ∧
  (Sequences.confirms_industry crit r industry = false ∧
   score r' = score r ∧ industry_score r' = industry_score r
   ∨ Sequences.confirms_industry crit r industry = true ∧ industry_score r = 0 ∧
     score r' = score r + weight ∧ industry_score r' = weight).
Proof.
  cbv zeta. rewrite update_with_enrichment_shape.
  destruct (ladder_fields thr
              (if Sequences.confirms_industry crit r industry
               then Sequences.confirmed crit industry r else r)) as (Hs & Hi & Hf).
  rewrite Hs, Hi, Hf.
  destruct (Sequences.confirms_industry crit r industry) eqn:Ec; simpl.
  - split; [reflexivity|]. right. split; [reflexivity|].
    unfold Sequences.confirms_industry in Ec.
    apply andb_prop in Ec as [Ec _]. apply andb_prop in Ec as [_ Ec].
    apply Z.eqb_eq in Ec. auto.
  - split; [reflexivity|]. left. auto.
Qed.

(** X12. Enrichment counts the industry once.  However many
    [company_enriched] updates a pending record receives, its score grows
    by the industry weight at most once and only if its industry score was
    0, its final score is never touched, and applying the same update a
    second time changes nothing.  The industry weight must not be 0: the
    test that guards the update is [industry_score == 0]. *)
Theorem enrichment_counts_the_industry_once crit thr r (industries : list string) :
  w_industry_match (score_weights crit) ≠ 0 →
  let weight := w_industry_match (score_weights crit) in
  let r' := Sequences.enrich_all crit thr r industries in
  final_score r' = final_score r ∧
  (score r' = score r ∧ industry_score r' = industry_score r
   ∨ industry_score r = 0 ∧ score r' = score r + weight ∧ industry_score r' = weight) ∧
  (∀ industry,
     Validator._update_with_enrichment crit thr
       (Validator._update_with_enrichment crit thr r industry) industry
     = Validator._update_with_enrichment crit thr r industry).
Proof.
  intros Hw. cbv zeta. split; [|split].
  - revert r. induction industries as [|i rest IH]; intros r; [reflexivity|].
    unfold Sequences.enrich_all in *. simpl. rewrite IH.
    apply (update_with_enrichment_fields crit thr r i).
  - revert r. induction industries as [|i rest IH]; intros r; [left; auto|].
    unfold Sequences.enrich_all in *. simpl.
    destruct (update_with_enrichment_fields crit thr r i) as [_ Hstep]. cbv zeta in Hstep.
    destruct (IH (Validator._update_with_enrichment crit thr r i))
      as [[Hs Hi] | (Hz & Hs & Hi)];
      destruct Hstep as [(_ & Hs1 & Hi1) | (_ & Hz1 & Hs1 & Hi1)].
    + left. split; congruence.
    + right. split; [exact Hz1|]. split; congruence.
    + right. split; [congruence|]. split; congruence.
    + congruence.
  - intros industry. rewrite !update_with_enrichment_shape.
    destruct (Sequences.confirms_industry crit r industry) eqn:Ec.
    + assert (Hoff : Sequences.confirms_industry crit
                       (Sequences.ladder thr (Sequences.confirmed crit industry r)) industry
                     = false).
      { unfold Sequences.confirms_industry.
        destruct (ladder_fields thr (Sequences.confirmed crit industry r)) as (_ & -> & _).
        simpl. destruct (Z.eqb_spec (w_industry_match (score_weights crit)) 0);
          [contradiction|]. rewrite andb_false_r. reflexivity. }
      rewrite Hoff. apply ladder_idem.
    + assert (Hoff : Sequences.confirms_industry crit (Sequences.ladder thr r) industry = false).
      { unfold Sequences.confirms_industry in *.
        destruct (ladder_fields thr r) as (_ & -> & _). exact Ec. }
      rewrite Hoff. apply ladder_idem.
Qed.

Lemma enrichment_counts_the_industry_once_witness :
  score (Sequences.enrich_all ICP_CRITERIA ICP_THRESHOLDS (Disputes.scored "Acme" 40 "Low")
           ["Retail"; "Manufacturing"; "Heavy manufacturing"; "Utilities"]) = 70.
Proof.
  destruct (enrichment_counts_the_industry_once ICP_CRITERIA ICP_THRESHOLDS
              (Disputes.scored "Acme" 40 "Low")
              ["Retail"; "Manufacturing"; "Heavy manufacturing"; "Utilities"])
    as (_ & [[_ Hi] | (_ & Hs & _)] & _).
  - discriminate.
  - vm_compute in Hi. discriminate.
  - exact Hs.
Defined.

(** One dispute without a usable oracle moves the score by at most 20. *)
Lemma handle_dispute_step gemini thr original reason suggested revised :
  Disputes.oracle_unavailable gemini original reason suggested →
  Validator._handle_dispute gemini thr original reason suggested = Some revised →
  Z.abs (score revised - score original) ≤ 20.
Proof.
  intros Hgone Hrevised.
  destruct (handle_dispute_record _ _ _ _ _ _ Hrevised) as (Hrange & _).
  destruct (handle_dispute_fallback gemini thr original reason suggested Hgone Hrange)
    as (revised0 & Hscore0 & Hfinal0 & Heq).
  rewrite Heq in Hrevised. injection Hrevised as <-.
  rewrite update_fit_level_score.
  destruct (accept_if_reasonable_cases original suggested revised0 Hscore0 Hfinal0)
    as [(s & _ & _ & Hd & -> & _) | [_ ->]]; lia.
Qed.

(** X13. A run of disputes about one company, none of them settled by an
    oracle: when every resolution returns, the score has moved by at most
    20 points per dispute, the record still bears the company's name, and
    after at least one dispute it is marked disputed with the fit level of
    its score. *)
Theorem dispute_chain_is_bounded thr (disputes : list (string * option Z)) r r' :
  Sequences.resolve_all None thr r disputes = Some r' →
  Z.abs (score r' - score r) ≤ 20 * Z.of_nat (length disputes) ∧
  company_name r' = company_name r ∧
  (disputes ≠ [] →
   disputed r' = true ∧ fit_level r' = Validator.fit_of thr (score r')).
Proof.
  revert r. induction disputes as [|[reason suggested] rest IH]; intros r; simpl.
  - intros [= <-]. split; [lia|]. split; [reflexivity|]. intros H. contradiction.
  - destruct (Validator._handle_dispute None thr r reason suggested) as [r1|] eqn:Hstep;
      [|discriminate]. simpl. intros Hrest.
    pose proof (handle_dispute_step None thr r reason suggested r1 I Hstep) as Hd.
    destruct (handle_dispute_record _ _ _ _ _ _ Hstep) as (_ & Hname & Hmark & _).
    destruct (handle_dispute_fit _ _ _ _ _ _ Hstep) as [Hfit _].
    destruct (IH r1 Hrest) as (Hbound & Hname' & Hlater).
    split; [lia|]. split; [congruence|]. intros _.
    destruct rest as [|d rest'].
    + injection Hrest as <-. split; assumption.
    + apply Hlater. discriminate.
Qed.

Lemma dispute_chain_is_bounded_witness :
  ∃ r', Sequences.resolve_all None ICP_THRESHOLDS (Disputes.scored "Acme" 40 "Low")
          [("too low", Some 55); ("far too low", Some 90); ("still low", Some 75)] = Some r' ∧
        score r' = 75 ∧ Z.abs (score r' - 40) ≤ 60 ∧ fit_level r' = "High".
Proof.
  destruct (Sequences.resolve_all None ICP_THRESHOLDS (Disputes.scored "Acme" 40 "Low")
              [("too low", Some 55); ("far too low", Some 90); ("still low", Some 75)])
    as [r'|] eqn:E; [|vm_compute in E; discriminate].
  exists r'. split; [reflexivity|].
  destruct (dispute_chain_is_bounded ICP_THRESHOLDS
              [("too low", Some 55); ("far too low", Some 90); ("still low", Some 75)]
              (Disputes.scored "Acme" 40 "Low") r' E) as (Hb & _ & Hfit).
  destruct Hfit as [_ Hfit]; [discriminate|].
  vm_compute in E. injection E as <-.
  split; [reflexivity|]. split; [exact Hb | reflexivity].
Defined.

(** X14. A suggestion outside [0,100] that lies within 20 points of the
    score is accepted like any other when no oracle settles the dispute,
    and it leaves a record about which no further dispute can be resolved:
    the next call raises on the range check of the record's constructor,
    whatever the oracle and the suggestion. *)
Theorem out_of_range_acceptance_blocks_later_disputes
    gemini gemini' thr original reason (s : Z) reason' suggested' :
  Disputes.oracle_unavailable gemini original reason (Some s) →
  0 ≤ score original ≤ 100 →
  s < 0 ∨ 100 < s →
  Z.abs (s - score original) ≤ 20 →
  ∃ revised,
    Validator._handle_dispute gemini thr original reason (Some s) = Some revised ∧
    score revised = s ∧ final_score revised = Some s ∧
    Validator._handle_dispute gemini' thr revised reason' suggested' = None.
Proof.
  intros Hgone Hrange Hout Hnear.
  destruct (handle_dispute_fallback gemini thr original reason (Some s) Hgone Hrange)
    as (revised0 & Hscore0 & Hfinal0 & Heq).
  eexists. split; [exact Heq|].
  rewrite update_fit_level_score, update_fit_level_final.
  destruct (accept_if_reasonable_cases original (Some s) revised0 Hscore0 Hfinal0)
    as [(s' & [= <-] & _ & _ & Hsc & Hfin) | [Hrej _]].
  - split; [exact Hsc|]. split; [exact Hfin|].
    unfold Validator._handle_dispute, ICPResult_new.
    destruct (decide _) as [Hin|]; [|reflexivity].
    change (0 ≤ score (Validator.accept_if_reasonable original (Some s) revised0) ≤ 100)
      in Hin.
    rewrite Hsc in Hin. lia.
  - destruct (Hrej s eq_refl); lia.
Qed.

Lemma out_of_range_acceptance_blocks_later_disputes_witness :
  ∃ revised,
    Validator._handle_dispute None ICP_THRESHOLDS (Disputes.scored "Acme" 95 "High")
      "too low" (Some 110) = Some revised ∧
    score revised = 110 ∧
    Validator._handle_dispute None ICP_THRESHOLDS revised "too high" (Some 100) = None.
Proof.
  destruct (out_of_range_acceptance_blocks_later_disputes None None ICP_THRESHOLDS
              (Disputes.scored "Acme" 95 "High") "too low" 110 "too high" (Some 100))
    as (revised & H1 & H2 & _ & H4).
  - exact I.
  - simpl. lia.
  - right. lia.
  - simpl. lia.
  - exists revised. split; [exact H1|]. split; [exact H2 | exact H4].
Defined.

(** ** Attendees loaded from OCR text or a PDF *)

Lemma attendee_listed (a : Schema.Attendee) (companies : list Schema.Company) :
  is_Some (OrchestratorAgent.existing_for a companies)
  ↔ Str.lower (Schema.attendee_company a)
      ∈ ((λ c, Str.lower (Schema.name c)) <$> companies).
Proof.
  unfold OrchestratorAgent.existing_for.
  induction companies as [|c cs IH]; simpl.
  - split; [intros [x Hx]; discriminate | intros H; inversion H].
  - rewrite elem_of_cons.
    destruct (String.eqb_spec (Str.lower (Schema.name c))
                (Str.lower (Schema.attendee_company a))) as [He|Hne].
    + split; [intros _; left; congruence | eauto].
    + rewrite IH. split; [tauto | intros [H|H]; [congruence | exact H]].
Qed.

(** X15. Loading attendees only adds to the explicit company list: the
    companies already listed stay as they are and in place, each company
    added is named after a loaded attendee's non-empty affiliation, every
    such affiliation is then listed up to letter case, and a list that held
    no two names equal up to letter case still holds none. *)
Theorem loaded_attendees_extend_the_companies
    (loaded : list Schema.Attendee) (companies : list Schema.Company) :
  let lowered := λ c : Schema.Company, Str.lower (Schema.name c) in
  ∃ added,
    OrchestratorAgent.add_companies_of loaded companies = companies ++ added ∧
    (∀ c, c ∈ added →
          ∃ a, a ∈ loaded ∧ Schema.attendee_company a ≠ "" ∧
               c = OrchestratorAgent.Company_new (Schema.attendee_company a)) ∧
    (∀ a, a ∈ loaded → Schema.attendee_company a ≠ "" →
          is_Some (OrchestratorAgent.existing_for a (companies ++ added))) ∧
    (NoDup (lowered <$> companies) → NoDup (lowered <$> companies ++ added)).
Proof.
  intros lowered. revert companies.
  induction loaded as [|a rest IH]; intros companies.
  - exists []. rewrite app_nil_r. split; [reflexivity|].
    split; [intros c Hc; inversion Hc|]. split; [intros a Ha; inversion Ha | auto].
  - pose (step := if negb (String.eqb (Schema.attendee_company a) "")
                 then match OrchestratorAgent.existing_for a companies with
                      | Some _ => companies
                      | None => companies
                                ++ [OrchestratorAgent.Company_new (Schema.attendee_company a)]
                      end
                 else companies).
    change (OrchestratorAgent.add_companies_of (a :: rest) companies)
      with (OrchestratorAgent.add_companies_of rest step).
    assert (Hstep : ∃ new, step = companies ++ new ∧
              (∀ c, c ∈ new → Schema.attendee_company a ≠ "" ∧
                     c = OrchestratorAgent.Company_new (Schema.attendee_company a)) ∧
              (Schema.attendee_company a ≠ "" →
               is_Some (OrchestratorAgent.existing_for a step)) ∧
              (NoDup (lowered <$> companies) → NoDup (lowered <$> step))).
    { subst step. destruct (String.eqb_spec (Schema.attendee_company a) "") as [He|Hne]; simpl.
      - exists []. rewrite app_nil_r. split; [reflexivity|].
        split; [intros c Hc; inversion Hc|]. split; [contradiction | auto].
      - destruct (OrchestratorAgent.existing_for a companies) as [c|] eqn:Hex.
        + exists []. rewrite app_nil_r. split; [reflexivity|].
          split; [intros c' Hc; inversion Hc|]. split; [rewrite Hex; eauto | auto].
        + exists [OrchestratorAgent.Company_new (Schema.attendee_company a)].
          split; [reflexivity|]. split; [|split].
          * intros c Hc. apply list_elem_of_singleton in Hc. auto.
          * intros _. apply attendee_listed. rewrite fmap_app, elem_of_app. right.
            simpl. left.
          * intros Hnd. rewrite fmap_app. apply NoDup_app. split; [exact Hnd|].
            split; [|apply NoDup_singleton].
            intros x Hx Hx'. apply list_elem_of_singleton in Hx'. simpl in Hx'. subst x.
            apply attendee_listed in Hx. rewrite Hex in Hx. destruct Hx; discriminate. }
    destruct Hstep as (new & Hnew & Hnamed & Hlisted & Hnd).
    destruct (IH step) as (added & Heq & Hadded & Hall & Hnd').
    exists (new ++ added). rewrite Heq, Hnew, <- app_assoc.
    split; [reflexivity|]. split; [|split].
    + intros c Hc. apply elem_of_app in Hc as [Hc|Hc].
      * destruct (Hnamed c Hc) as [Hne ->]. exists a. split; [left | auto].
      * destruct (Hadded c Hc) as (a' & Ha' & Hne & ->). exists a'. split; [right | auto].
        exact Ha'.
    + intros a' Ha' Hne. apply elem_of_cons in Ha' as [->|Ha'].
      * apply attendee_listed. rewrite app_assoc, fmap_app, elem_of_app. left.
        rewrite <- Hnew. apply attendee_listed. apply Hlisted. exact Hne.
      * rewrite app_assoc, <- Hnew. apply Hall; assumption.
    + intros Hnd0. rewrite app_assoc, <- Hnew. apply Hnd'. apply Hnd. exact Hnd0.
Qed.

(** ** The validator's pass and the export *)

(** A record as validation returns it. *)
Lemma validate_company_total gemini (name : string) (info : CompanyInfo) :
  ∃ r, Validator._validate_company gemini ICP_CRITERIA ICP_THRESHOLDS name info = Some r ∧
       company_name r = name ∧ 0 ≤ score r ≤ 100 ∧
       final_score r = None ∧ disputed r = false.
Proof.
  assert (Hrules : ∃ r, Validator._rule_based_validation ICP_CRITERIA ICP_THRESHOLDS name info
                        = Some r ∧
                        company_name r = name ∧ 0 ≤ score r ≤ 100 ∧
                        final_score r = None ∧ disputed r = false).
  { destruct (rule_based_shape name info) as (r & Hr & Hname & _).
    exists r. split; [exact Hr|]. split; [exact Hname|].
    unfold Validator._rule_based_validation in Hr.
    destruct (Validator.industry_block _ _ _) as [i p1].
    destruct (Validator.title_block _ _ _) as [t p2].
    destruct (Validator.department_block _ _ _) as [d p3].
    destruct (Validator.size_block _ _ _) as [s p4].
    destruct (Validator.speaker_block _ _ _) as [b p5].
    apply ICPResult_new_Some in Hr as [-> Hrange]. auto. }
  unfold Validator._validate_company. destruct gemini as [g|]; [|exact Hrules].
  destruct (Validator.oracle_validation ICP_CRITERIA g name info) as [r|] eqn:Ho;
    [|exact Hrules].
  exists r. split; [reflexivity|].
  unfold Validator.oracle_validation in Ho.
  destruct (Validator.validate_icp g info ICP_CRITERIA) as [answer|]; [|discriminate].
  simpl in Ho. apply ICPResult_new_Some in Ho as [-> Hrange]. auto.
Qed.

(** The loop of [process] over names not yet scored. *)
Lemma validate_each_spec gemini (data : Schema.ConferenceData) (names : list string)
    (st : ICPValidatorAgent.State) :
  let good := λ r, 0 ≤ score r ≤ 100 ∧ final_score r = None ∧ disputed r = false in
  let agree := λ st : ICPValidatorAgent.State,
    ∀ name r, ICPValidatorAgent._pending_validations st !! name = Some r
              ↔ r ∈ ICPValidatorAgent.icp_results st ∧ company_name r = name in
  NoDup ((company_name <$> ICPValidatorAgent.icp_results st) ++ names) →
  agree st → (∀ r, r ∈ ICPValidatorAgent.icp_results st → good r) →
  ∃ st',
    ICPValidatorAgent.validate_each gemini ICP_CRITERIA ICP_THRESHOLDS data names st = Some st' ∧
    company_name <$> ICPValidatorAgent.icp_results st'
    = (company_name <$> ICPValidatorAgent.icp_results st) ++ names ∧
    agree st' ∧ (∀ r, r ∈ ICPValidatorAgent.icp_results st' → good r).
Proof.
  cbv zeta. revert st.
  induction names as [|name rest IH]; intros st Hnd Hagree Hgood.
  - exists st. rewrite app_nil_r. auto.
  - simpl. unfold ICPValidatorAgent.validate_one.
    destruct (validate_company_total gemini name
                (Details.get_company_details (Some data) name))
      as (r & Hr & Hname & Hr_good).
    rewrite Hr. simpl.
    assert (Hnew : company_name r ∉ (company_name <$> ICPValidatorAgent.icp_results st)).
    { rewrite Hname. apply NoDup_app in Hnd as (_ & Hdisj & _).
      intros Hin. apply (Hdisj name Hin). left. }
    destruct (add_icp_result_cases r (ICPValidatorAgent.icp_results st))
      as [[_ Hadd] | (i & e & Hi & He & _)].
    2:{ exfalso. apply Hnew. rewrite <- He. apply list_elem_of_fmap.
        exists e. split; [reflexivity|]. eapply list_elem_of_lookup_2. exact Hi. }
    rewrite Hadd. simpl.
    set (st1 := {| ICPValidatorAgent._pending_validations :=
                     <[name := r]> (ICPValidatorAgent._pending_validations st);
                   ICPValidatorAgent.icp_results := ICPValidatorAgent.icp_results st ++ [r] |}).
    destruct (IH st1) as (st' & Hrun & Hnames & Hagree' & Hgood').
    + simpl. rewrite fmap_app, <- app_assoc. simpl. rewrite Hname. exact Hnd.
    + intros name' r'. simpl. rewrite elem_of_app, list_elem_of_singleton.
      destruct (decide (name' = name)) as [->|Hne].
      * rewrite lookup_insert_eq. split.
        -- intros [= <-]. auto.
        -- intros [[Hin | ->] Hn]; [|reflexivity].
           exfalso. apply Hnew. rewrite Hname, <- Hn. apply list_elem_of_fmap. eauto.
      * rewrite lookup_insert_ne by congruence. rewrite Hagree. split.
        -- intros [Hin Hn]. auto.
        -- intros [[Hin | ->] Hn]; [auto | congruence].
    + intros r'. simpl. rewrite elem_of_app, list_elem_of_singleton.
      intros [Hin | ->]; [apply Hgood; exact Hin | exact Hr_good].
    + exists st'. split; [exact Hrun|]. split; [|auto].
      rewrite Hnames. simpl. rewrite fmap_app, <- app_assoc. simpl. rewrite Hname.
      reflexivity.
Qed.

(** X16. The validator's pass scores every name [get_companies] returns,
    whatever the oracle answers or fails to answer: it does not raise, the
    context ends with exactly one record per name, in the order the names
    were returned, the table of pending validations holds the same records
    under their names, and each record has a score within [0,100], no
    final score and no dispute mark. *)
Theorem every_company_is_validated gemini (data : Schema.ConferenceData) :
  ∃ st,
    ICPValidatorAgent.process gemini ICP_CRITERIA ICP_THRESHOLDS (Some data)
      ICPValidatorAgent.new = Some st ∧
    company_name <$> ICPValidatorAgent.icp_results st = Context.get_companies (Some data) ∧
    (∀ name r, ICPValidatorAgent._pending_validations st !! name = Some r
               ↔ r ∈ ICPValidatorAgent.icp_results st ∧ company_name r = name) ∧
    (∀ r, r ∈ ICPValidatorAgent.icp_results st →
          0 ≤ score r ≤ 100 ∧ final_score r = None ∧ disputed r = false).
Proof.
  destruct (validate_each_spec gemini data (Context.get_companies (Some data))
              ICPValidatorAgent.new) as (st & Hrun & Hnames & Hagree & Hgood).
  - simpl. unfold Context.get_companies. apply NoDup_elements.
  - intros name r. simpl. rewrite lookup_empty, elem_of_nil. split; [discriminate | tauto].
  - intros r Hr. inversion Hr.
  - exists st. split; [exact Hrun|]. split; [exact Hnames|]. split; [exact Hagree | exact Hgood].
Qed.

Lemma by_company_snoc (l : list ICPResult) (x : ICPResult) :
  OrchestratorAgent.by_company (l ++ [x])
  = <[company_name x := x]> (OrchestratorAgent.by_company l).
Proof. unfold OrchestratorAgent.by_company. rewrite foldl_app. reflexivity. Qed.

(** With one record per name, the export's table finds each record under
    its name. *)
Lemma by_company_lookup (l : list ICPResult) (r : ICPResult) :
  NoDup (company_name <$> l) → r ∈ l →
  OrchestratorAgent.by_company l !! company_name r = Some r.
Proof.
  induction l as [|x l IH] using rev_ind; intros Hnd Hin; [inversion Hin|].
  rewrite by_company_snoc. rewrite fmap_app in Hnd.
  apply NoDup_app in Hnd as (Hnd & Hdisj & _).
  apply elem_of_app in Hin as [Hin | Hin].
  - rewrite lookup_insert_ne; [apply IH; assumption|].
    intros Heq. apply (Hdisj (company_name r)).
    + apply list_elem_of_fmap. eauto.
    + rewrite <- Heq. simpl. left.
  - apply list_elem_of_singleton in Hin as ->. apply lookup_insert_eq.
Qed.

(** X17. After the validator's pass, the export leaves no affiliation
    without a score.  The CSV holds the header, one row per speaker, one
    per attendee and one per listed company no speaker or attendee is
    affiliated to; whatever the oracle did, every name [get_companies]
    returns is found in the export's table, so the row of every speaker and
    attendee with an affiliation and of every such company ends with the
    record's score, a number within [0,100], its fit level and its
    reasoning. *)
Theorem export_scores_every_affiliation gemini (data : Schema.ConferenceData)
    (st : ICPValidatorAgent.State) :
  ICPValidatorAgent.process gemini ICP_CRITERIA ICP_THRESHOLDS (Some data)
    ICPValidatorAgent.new = Some st →
  let icp_by_company := OrchestratorAgent.by_company (ICPValidatorAgent.icp_results st) in
  let rows := OrchestratorAgent.export_to_csv (Some data) (ICPValidatorAgent.icp_results st) in
  let unaffiliated :=
    filter (λ company, Schema.name company ∉ OrchestratorAgent.written_companies data)
      (Schema.companies data) in
  length rows
  = (1 + length (Schema.speakers data) + length (Schema.attendees data)
     + length unaffiliated)%nat ∧
  (∀ name, name ∈ Context.get_companies (Some data) →
     ∃ r, icp_by_company !! name = Some r ∧ company_name r = name ∧
          0 ≤ score r ≤ 100 ∧
          OrchestratorAgent.score_cells (icp_by_company !! name)
          = [OrchestratorAgent.Number (score r); OrchestratorAgent.Text (fit_level r);
             OrchestratorAgent.Text (reasoning r)]) ∧
  (∀ speaker, speaker ∈ Schema.speakers data →
     OrchestratorAgent.speaker_row icp_by_company speaker ∈ rows ∧
     (Schema.speaker_company speaker ≠ "" →
      Schema.speaker_company speaker ∈ Context.get_companies (Some data))) ∧
  (∀ attendee, attendee ∈ Schema.attendees data →
     OrchestratorAgent.attendee_row icp_by_company attendee ∈ rows ∧
     (Schema.attendee_company attendee ≠ "" →
      Schema.attendee_company attendee ∈ Context.get_companies (Some data))) ∧
  (∀ company, company ∈ unaffiliated →
     OrchestratorAgent.company_row icp_by_company company ∈ rows ∧
     Schema.name company ∈ Context.get_companies (Some data)).
Proof.
  intros Hprocess icp_by_company rows unaffiliated.
  destruct (validate_each_spec gemini data (Context.get_companies (Some data))
              ICPValidatorAgent.new) as (st' & Hrun & Hnames & _ & Hgood).
  { simpl. unfold Context.get_companies. apply NoDup_elements. }
  { intros name r. simpl. rewrite lookup_empty, elem_of_nil. split; [discriminate | tauto]. }
  { intros r Hr. inversion Hr. }
  simpl in Hprocess, Hnames. rewrite Hrun in Hprocess. injection Hprocess as ->.
  assert (Hnd : NoDup (company_name <$> ICPValidatorAgent.icp_results st)).
  { rewrite Hnames. unfold Context.get_companies. apply NoDup_elements. }
  assert (Hmember : ∀ name, name ∈ Context.get_companies (Some data) ↔
            (name ∈ (Schema.name <$> Schema.companies data)
             ∨ name ≠ "" ∧ name ∈ (Schema.speaker_company <$> Schema.speakers data))
            ∨ name ≠ "" ∧ name ∈ (Schema.attendee_company <$> Schema.attendees data)).
  { intros name. unfold Context.get_companies, Context.company_set.
    rewrite elem_of_elements, foldl_add_affiliations, foldl_add_affiliations,
      foldl_add_names, elem_of_empty. tauto. }
  split; [|split; [|split; [|split]]].
  - subst rows unaffiliated. unfold OrchestratorAgent.export_to_csv. cbn [length].
    rewrite !length_app, !length_fmap. lia.
  - intros name Hname. rewrite <- Hnames in Hname.
    apply list_elem_of_fmap in Hname as (r & -> & Hr).
    exists r. subst icp_by_company. rewrite (by_company_lookup _ _ Hnd Hr).
    destruct (Hgood r Hr) as (Hrange & Hfinal & _).
    split; [reflexivity|]. split; [reflexivity|]. split; [exact Hrange|].
    unfold OrchestratorAgent.score_cells, OrchestratorAgent.shown_score.
    rewrite Hfinal. reflexivity.
  - intros speaker Hin. split.
    + subst rows. unfold OrchestratorAgent.export_to_csv. right.
      apply elem_of_app. left. apply list_elem_of_fmap. eauto.
    + intros Hne. apply Hmember. left. right. split; [exact Hne|].
      apply list_elem_of_fmap. eauto.
  - intros attendee Hin. split.
    + subst rows. unfold OrchestratorAgent.export_to_csv. right.
      apply elem_of_app. right. apply elem_of_app. left. apply list_elem_of_fmap. eauto.
    + intros Hne. apply Hmember. right. split; [exact Hne|].
      apply list_elem_of_fmap. eauto.
  - intros company Hin. split.
    + subst rows. unfold OrchestratorAgent.export_to_csv. right.
      apply elem_of_app. right. apply elem_of_app. right. apply list_elem_of_fmap. eauto.
    + apply Hmember. left. left. apply list_elem_of_fmap. exists company.
      split; [reflexivity|]. subst unaffiliated. apply list_elem_of_filter in Hin as [_ Hin].
      exact Hin.
Qed.

Lemma export_scores_every_affiliation_witness :
  ∃ st r,
    ICPValidatorAgent.process None ICP_CRITERIA ICP_THRESHOLDS (Some Samples.mixed_case)
      ICPValidatorAgent.new = Some st ∧
    OrchestratorAgent.by_company (ICPValidatorAgent.icp_results st) !! "ACME" = Some r ∧
    0 ≤ score r ≤ 100 ∧
    length (OrchestratorAgent.export_to_csv (Some Samples.mixed_case)
              (ICPValidatorAgent.icp_results st)) = 3%nat.
Proof.
  destruct (ICPValidatorAgent.process None ICP_CRITERIA ICP_THRESHOLDS
              (Some Samples.mixed_case) ICPValidatorAgent.new) as [st|] eqn:E;
    [|vm_compute in E; discriminate].
  destruct (export_scores_every_affiliation None Samples.mixed_case st E)
    as (Hlen & Hall & _).
  destruct (Hall "ACME") as (r & Hr & _ & Hrange & _); [vm_compute; right; left|].
  exists st, r. split; [reflexivity|]. split; [exact Hr|]. split; [exact Hrange|].
  rewrite Hlen. vm_compute. reflexivity.
Defined.

(** ** Enrichment *)

Section Enrichment.

Import EnricherAgent.

Lemma basic_enrichment_applied (company_name : string) (known_info : CompanyInfo)
    (company : Schema.Company) :
  apply_enrichment (_basic_enrichment company_name known_info) company
  = {| Schema.name := Schema.name company;
       Schema.industry := industry_of_name company_name;
       Schema.size := Schema.size company |}.
Proof. reflexivity. Qed.

(** Without an oracle and with nothing cached for them, the companies
    are relabelled one by one and nothing is cached. *)
Lemma enrich_each_without_oracle speakers attendees (done todo : list Schema.Company) :
  enrich_each None speakers attendees done todo ∅
  = (done ++ ((λ c, {| Schema.name := Schema.name c;
                        Schema.industry := industry_of_name (Schema.name c);
                        Schema.size := Schema.size c |}) <$> todo), ∅).
Proof.
  revert done. induction todo as [|c rest IH]; intros done; simpl.
  - rewrite app_nil_r. reflexivity.
  - unfold _enrich_company. rewrite lookup_empty, basic_enrichment_applied, IH.
    rewrite <- app_assoc. reflexivity.
Qed.

Lemma apply_enrichment_name enriched company :
  Schema.name (apply_enrichment enriched company) = Schema.name company.
Proof. unfold apply_enrichment. destruct (nonempty enriched); reflexivity. Qed.

Lemma enrich_company_cache gemini company_name known_info (cache : gmap string Enrichment) :
  cache ⊆ (_enrich_company gemini company_name known_info cache).2.
Proof.
  unfold _enrich_company. destruct (cache !! company_name) eqn:Hc; [reflexivity|].
  destruct gemini as [g|]; [|reflexivity].
  destruct (g company_name known_info); [|reflexivity].
  simpl. apply insert_subseteq. exact Hc.
Qed.

Lemma enrich_each_names gemini speakers attendees (done todo : list Schema.Company)
    (cache : gmap string Enrichment) :
  Schema.name <$> (enrich_each gemini speakers attendees done todo cache).1
  = Schema.name <$> (done ++ todo) ∧
  cache ⊆ (enrich_each gemini speakers attendees done todo cache).2.
Proof.
  revert done cache. induction todo as [|c rest IH]; intros done cache; simpl.
  - rewrite app_nil_r. split; reflexivity.
  - pose proof (enrich_company_cache gemini (Schema.name c)
                  (Details.get_company_details
                     (Some {| Schema.speakers := speakers; Schema.attendees := attendees;
                              Schema.companies := done ++ c :: rest |}) (Schema.name c))
                  cache) as Hgrow.
    destruct (_enrich_company gemini _ _ cache) as [enriched cache1]. simpl in Hgrow.
    destruct (IH (done ++ [apply_enrichment enriched c]) cache1) as [Hnames Hcache].
    split; [|etrans; eassumption].
    rewrite Hnames, !fmap_app. simpl. rewrite apply_enrichment_name, <- app_assoc.
    reflexivity.
Qed.

End Enrichment.

Lemma company_set_names (data data' : Schema.ConferenceData) :
  Schema.speakers data' = Schema.speakers data →
  Schema.attendees data' = Schema.attendees data →
  Schema.name <$> Schema.companies data' = Schema.name <$> Schema.companies data →
  Context.company_set (Some data') = Context.company_set (Some data).
Proof.
  intros Hs Ha Hn. unfold Context.company_set. rewrite Hs, Ha. do 2 f_equal.
  assert (Hfold : ∀ (cs : list Schema.Company) (acc : gset string),
            foldl (λ acc company, acc ∪ {[ Schema.name company ]}) acc cs
            = foldl (λ acc n, acc ∪ {[ n ]}) acc (Schema.name <$> cs)).
  { induction cs as [|c cs IH]; intros acc; simpl; [reflexivity | apply IH]. }
  rewrite !Hfold, Hn. reflexivity.
Qed.

(** X18. Without an oracle the enricher's pass replaces the industry of
    every listed company by the one inferred from its name, "Unknown" when
    no keyword occurs in it, whatever industry the scrape recorded; names,
    sizes, order, speakers and attendees are kept and nothing is cached. *)
Theorem enrichment_without_oracle_relabels (data : Schema.ConferenceData) :
  EnricherAgent.process None (Some data) ∅
  = (Some {| Schema.speakers := Schema.speakers data;
             Schema.attendees := Schema.attendees data;
             Schema.companies :=
               (λ c, {| Schema.name := Schema.name c;
                        Schema.industry := EnricherAgent.industry_of_name (Schema.name c);
                        Schema.size := Schema.size c |}) <$> Schema.companies data |}, ∅).
Proof.
  unfold EnricherAgent.process. rewrite enrich_each_without_oracle. reflexivity.
Qed.

(** X19. Whatever the oracle answers and whatever is cached, the
    enricher's pass keeps the speakers, the attendees and the names and
    order of the listed companies, so that [get_companies] returns the same
    names before and after it; the cache only grows. *)
Theorem enrichment_keeps_the_names
    (gemini : option (string → CompanyInfo → option EnricherAgent.Enrichment))
    (data : Schema.ConferenceData) (cache : gmap string EnricherAgent.Enrichment) :
  ∃ data' cache',
    EnricherAgent.process gemini (Some data) cache = (Some data', cache') ∧
    Schema.speakers data' = Schema.speakers data ∧
    Schema.attendees data' = Schema.attendees data ∧
    Schema.name <$> Schema.companies data' = Schema.name <$> Schema.companies data ∧
    Context.get_companies (Some data') = Context.get_companies (Some data) ∧
    cache ⊆ cache'.
Proof.
  unfold EnricherAgent.process.
  destruct (enrich_each_names gemini (Schema.speakers data) (Schema.attendees data) []
              (Schema.companies data) cache) as [Hnames Hcache].
  destruct (EnricherAgent.enrich_each gemini _ _ [] _ cache) as [companies cache'].
  simpl in Hnames, Hcache. eexists _, cache'. split; [reflexivity|]. simpl.
  split; [reflexivity|]. split; [reflexivity|]. split; [exact Hnames|].
  split; [|exact Hcache].
  unfold Context.get_companies. f_equal. apply company_set_names; auto.
Qed.

(** The industry [_basic_enrichment] names: the first entry of the table
    with a keyword in the lowered name. *)
Lemma industry_of_name_cases (company_name : string) :
  let hit := λ keywords : list string,
    any (λ kw, Str.contains kw (Str.lower company_name)) keywords in
  EnricherAgent.industry_of_name company_name
  = if hit ["manufacturing"; "industrial"; "equipment"; "machinery"] then "Manufacturing"
    else if hit ["medical"; "health"; "pharma"; "biotech"; "hospital"]
    then "Healthcare/Medical"
    else if hit ["tech"; "software"; "digital"; "data"; "cloud"] then "Technology"
    else if hit ["energy"; "power"; "utility"; "electric"; "gas"; "oil"]
    then "Energy/Utilities"
    else if hit ["telecom"; "wireless"; "network"; "communications"]
    then "Telecommunications"
    else if hit ["logistics"; "transport"; "shipping"; "freight"] then "Transportation"
    else if hit ["construction"; "building"; "hvac"; "elevator"]
    then "Building/Construction"
    else "Unknown".
Proof.
  intros hit. subst hit. cbv beta.
  unfold EnricherAgent.industry_of_name, EnricherAgent.industry_keywords.
  cbn [for_break].
  destruct (any _ ("manufacturing" :: _)); [reflexivity|].
  destruct (any _ ("medical" :: _)); [reflexivity|].
  destruct (any _ ("tech" :: _)); [reflexivity|].
  destruct (any _ ("energy" :: _)); [reflexivity|].
  destruct (any _ ("telecom" :: _)); [reflexivity|].
  destruct (any _ ("logistics" :: _)); [reflexivity|].
  destruct (any _ ("construction" :: _)); reflexivity.
Qed.

Lemma industry_of_name_lower (a b : string) :
  Str.lower a = Str.lower b →
  EnricherAgent.industry_of_name a = EnricherAgent.industry_of_name b.
Proof. intros H. unfold EnricherAgent.industry_of_name. rewrite H. reflexivity. Qed.

Lemma any_hit {A} (p : A → bool) (x : A) (xs : list A) :
  x ∈ xs → p x = true → any p xs = true.
Proof.
  intros Hin Hp. unfold any. apply existsb_exists. exists x.
  split; [apply list_elem_of_In; exact Hin | exact Hp].
Qed.

(** X20. What the quick inference of [_infer_industry] recognises, the
    table of [_basic_enrichment] recognises too: when nothing is cached for
    a name and the quick inference does not answer "Unknown", neither does
    the basic enrichment, and the two agree on "Manufacturing".  They need
    not agree otherwise, the two tests running in different orders. *)
Theorem quick_inference_is_covered (company_name : string)
    (cache : gmap string EnricherAgent.Enrichment) :
  cache !! company_name = None →
  EnricherAgent._infer_industry company_name cache ≠ "Unknown" →
  EnricherAgent.industry_of_name company_name ≠ "Unknown" ∧
  (EnricherAgent._infer_industry company_name cache = "Manufacturing" →
   EnricherAgent.industry_of_name company_name = "Manufacturing").
Proof.
  intros Hcache. unfold EnricherAgent._infer_industry. rewrite Hcache. cbv zeta.
  rewrite industry_of_name_cases. cbv zeta.
  set (hit := λ keywords : list string,
         any (λ kw, Str.contains kw (Str.lower company_name)) keywords).
  change (any (λ x, Str.contains x (Str.lower company_name)) ?k) with (hit k).
  assert (Hsub : ∀ small big : list string,
            (∀ kw, kw ∈ small → kw ∈ big) → hit small = true → hit big = true).
  { intros small big Hincl Hsmall. unfold hit, any in *.
    apply existsb_exists in Hsmall as (kw & Hin & Hkw).
    apply existsb_exists. exists kw. split; [|exact Hkw].
    apply list_elem_of_In, Hincl, list_elem_of_In, Hin. }
  destruct (hit ["manufacturing"; "industrial"; "equipment"; "machinery"]) eqn:E1.
  { intros _. split; [discriminate | reflexivity]. }
  destruct (hit ["medical"; "health"; "pharma"]) eqn:Q1.
  { rewrite (Hsub ["medical"; "health"; "pharma"] ["medical"; "health"; "pharma"; "biotech"; "hospital"]
               ltac:(intros kw; rewrite !elem_of_cons; tauto) Q1).
    intros _. split; discriminate. }
  destruct (hit ["tech"; "software"; "digital"]) eqn:Q2.
  { destruct (hit ["medical"; "health"; "pharma"; "biotech"; "hospital"]);
      [intros _; split; discriminate|].
    rewrite (Hsub ["tech"; "software"; "digital"] ["tech"; "software"; "digital"; "data"; "cloud"]
               ltac:(intros kw; rewrite !elem_of_cons; tauto) Q2).
    intros _. split; discriminate. }
  destruct (hit ["energy"; "power"; "electric"]) eqn:Q3.
  { destruct (hit ["medical"; "health"; "pharma"; "biotech"; "hospital"]);
      [intros _; split; discriminate|].
    destruct (hit ["tech"; "software"; "digital"; "data"; "cloud"]);
      [intros _; split; discriminate|].
    rewrite (Hsub ["energy"; "power"; "electric"] ["energy"; "power"; "utility"; "electric"; "gas"; "oil"]
               ltac:(intros kw; rewrite !elem_of_cons; tauto) Q3).
    intros _. split; discriminate. }
  destruct (hit ["manufacturing"; "industrial"]) eqn:Q4.
  { rewrite (Hsub ["manufacturing"; "industrial"] ["manufacturing"; "industrial"; "equipment"; "machinery"]
               ltac:(intros kw; rewrite !elem_of_cons; tauto) Q4) in E1.
    discriminate. }
  intros H. contradiction.
Qed.

Lemma quick_inference_is_covered_witness :
  EnricherAgent._infer_industry "Acme Medical Equipment" ∅ = "Healthcare/Medical" ∧
  EnricherAgent.industry_of_name "Acme Medical Equipment" = "Manufacturing".
Proof.
  destruct (quick_inference_is_covered "Acme Medical Equipment" ∅) as [H _].
  - reflexivity.
  - vm_compute. discriminate.
  - split; reflexivity.
Defined.

Lemma industry_of_name_labels (company_name : string) :
  EnricherAgent.industry_of_name company_name
  ∈ ["Manufacturing"; "Healthcare/Medical"; "Technology"; "Energy/Utilities";
     "Telecommunications"; "Transportation"; "Building/Construction"; "Unknown"].
Proof.
  rewrite industry_of_name_cases. cbv zeta.
  repeat match goal with
         | |- context [if ?c then _ else _] => destruct c
         end;
    rewrite !elem_of_cons; tauto.
Qed.

Lemma find_relabelled (f : Schema.Company → Schema.Company) (p : Schema.Company → bool)
    (companies : list Schema.Company) :
  (∀ c, p (f c) = p c) →
  List.find p (f <$> companies) = f <$> List.find p companies.
Proof.
  intros Hp. induction companies as [|c cs IH]; simpl; [reflexivity|].
  rewrite Hp. destruct (p c); [reflexivity | exact IH].
Qed.

(** X21. In the pipeline without an oracle, the industry points of a
    listed company follow from its name alone.  After the enricher's pass
    the details of any name that is listed, up to letter case, carry the
    industry inferred from that name, and rule-based scoring gives the
    industry weight exactly when that industry is "Manufacturing",
    "Technology", "Energy/Utilities" or "Telecommunications"; the industry
    the scrape recorded plays no part. *)
Theorem industry_points_follow_the_name (data : Schema.ConferenceData) (name : string) :
  (∃ c, c ∈ Schema.companies data ∧ Details.same_name (Schema.name c) name = true) →
  let enriched := (EnricherAgent.process None (Some data) ∅).1 in
  let details := Details.get_company_details enriched name in
  info_industry details = Some (EnricherAgent.industry_of_name name) ∧
  ∃ r, Validator._rule_based_validation ICP_CRITERIA ICP_THRESHOLDS name details = Some r ∧
       industry_score r
       = if bool_decide (EnricherAgent.industry_of_name name
                         ∈ EnricherAgent.scoring_industries)
         then 30 else 0.
Proof.
  intros (c & Hc & Hsame). cbv zeta.
  unfold EnricherAgent.process. rewrite enrich_each_without_oracle. simpl.
  set (relabel := λ c : Schema.Company,
         {| Schema.name := Schema.name c;
            Schema.industry := EnricherAgent.industry_of_name (Schema.name c);
            Schema.size := Schema.size c |}).
  assert (Hindustry :
    info_industry
      (Details.get_company_details
         (Some {| Schema.speakers := Schema.speakers data;
                  Schema.attendees := Schema.attendees data;
                  Schema.companies := relabel <$> Schema.companies data |}) name)
    = Some (EnricherAgent.industry_of_name name)).
  { rewrite get_company_details_closed. cbv zeta. simpl.
    rewrite (find_relabelled relabel) by reflexivity.
    destruct (List.find (λ c, Details.same_name (Schema.name c) name) (Schema.companies data))
      as [first|] eqn:Hfind.
    - simpl. f_equal. apply industry_of_name_lower.
      apply find_some in Hfind as [_ Hfirst]. apply same_name_lower. exact Hfirst.
    - exfalso. eapply find_none in Hfind; [|apply list_elem_of_In; exact Hc].
      simpl in Hfind. congruence. }
  split; [exact Hindustry|].
  destruct (rule_based_shape name
              (Details.get_company_details
                 (Some {| Schema.speakers := Schema.speakers data;
                          Schema.attendees := Schema.attendees data;
                          Schema.companies := relabel <$> Schema.companies data |}) name))
    as (r & Hr & _ & Hi & _).
  exists r. split; [exact Hr|]. rewrite Hi.
  unfold Rules.industry_matches. rewrite Hindustry. simpl default.
  pose proof (industry_of_name_labels name) as Hlabel.
  rewrite !elem_of_cons, elem_of_nil in Hlabel.
  destruct Hlabel as [-> | [-> | [-> | [-> | [-> | [-> | [-> | [-> | []]]]]]]]];
    vm_compute; reflexivity.
Qed.

Lemma industry_points_follow_the_name_witness :
  ∃ r, Validator._rule_based_validation ICP_CRITERIA ICP_THRESHOLDS "Initech"
         (Details.get_company_details
            (EnricherAgent.process None (Some Samples.attendee_only) ∅).1 "Initech")
       = Some r ∧ industry_score r = 30.
Proof.
  destruct (industry_points_follow_the_name Samples.attendee_only "Initech")
    as (_ & r & Hr & Hi).
  - eexists. split; [left | reflexivity].
  - exists r. split; [exact Hr|]. rewrite Hi. vm_compute. reflexivity.
Defined.

(** ** The pending records and the context *)

Section PendingFacts.

Import Store Pending.

Lemma ICPResult_at_obj (h : heap) (l : loc) (r : ICPResult) :
  h !! l = Some (ICPResult_obj r) → ICPResult_at h l = Some r.
Proof.
  intros Hl. unfold ICPResult_at, str_field, int_field, bool_field, field.
  rewrite Hl. destruct r as [? ? ? ? ? ? ? ? ? ? ? ? [f|]]; reflexivity.
Qed.

Lemma int_field_obj (h : heap) (l : loc) (r : ICPResult) :
  h !! l = Some (ICPResult_obj r) →
  int_field h l attr_score = Some (score r) ∧
  int_field h l attr_industry_score = Some (industry_score r).
Proof. intros Hl. unfold int_field, field. rewrite Hl. split; reflexivity. Qed.

Lemma str_field_obj (h : heap) (l : loc) (r : ICPResult) :
  h !! l = Some (ICPResult_obj r) →
  str_field h l attr_company_name = Some (company_name r) ∧
  str_field h l attr_fit_level = Some (fit_level r) ∧
  str_field h l attr_reasoning = Some (reasoning r).
Proof. intros Hl. unfold str_field, field. rewrite Hl. repeat split; reflexivity. Qed.

(** Assignments to the fields of an [ICPResult] instance. *)
Lemma assign_obj (h : heap) (l : loc) (r : ICPResult) :
  h !! l = Some (ICPResult_obj r) →
  (∀ v, assign h l attr_score (VInt v) = Some (<[l := ICPResult_obj (set_score v r)]> h)) ∧
  (∀ v, assign h l attr_final_score (VInt v)
        = Some (<[l := ICPResult_obj (set_final_score (Some v) r)]> h)) ∧
  (∀ v, assign h l attr_fit_level (VStr v)
        = Some (<[l := ICPResult_obj (set_fit_level v r)]> h)) ∧
  (∀ v, assign h l attr_reasoning (VStr v)
        = Some (<[l := ICPResult_obj (set_reasoning v r)]> h)) ∧
  (∀ v, assign h l attr_industry_score (VInt v)
        = Some (<[l := ICPResult_obj (set_industry_score v r)]> h)).
Proof.
  intros Hl. unfold assign. rewrite Hl. repeat split; reflexivity.
Qed.

(** The instance at [l] holds [r]; the rest of the store is [h]. *)
Lemma at_insert (h : heap) (l : loc) (r : ICPResult) :
  <[l := ICPResult_obj r]> h !! l = Some (ICPResult_obj r).
Proof. apply lookup_insert_eq. Qed.

(** [_update_with_enrichment] on the store is the update of the record
    the instance holds, written back to the same instance. *)
Lemma update_with_enrichment_in_place crit thr (self : Agent) (name industry : string)
    (l : loc) (r : ICPResult) :
  _pending_validations self !! name = Some l →
  objects self !! l = Some (ICPResult_obj r) →
  Pending._update_with_enrichment crit thr name industry self
  = Some {| _pending_validations := _pending_validations self;
            objects := <[l := ICPResult_obj
                                 (Validator._update_with_enrichment crit thr r industry)]>
                         (objects self) |}.
Proof.
  intros Hname Hl. unfold Pending._update_with_enrichment. rewrite Hname.
  destruct (int_field_obj _ _ _ Hl) as [Hscore Hind]. rewrite Hind. simpl.
  rewrite update_with_enrichment_shape.
  unfold Sequences.confirms_industry, any.
  set (guard := negb (String.eqb industry "") && (industry_score r =? 0)).
  assert (Hloop :
    (if guard then
       for_break (target_industries crit)
         (λ target (h : option heap),
            if Str.contains (Str.lower target) (Str.lower industry) then
              (h ← h;
               h ← assign h l attr_industry_score (VInt (w_industry_match (score_weights crit)));
               score ← int_field h l attr_score;
               industry_score ← int_field h l attr_industry_score;
               h ← assign h l attr_score (VInt (score + industry_score));
               reasoning ← str_field h l attr_reasoning;
               assign h l attr_reasoning
                 (VStr (reasoning +:+ "; Industry confirmed: " +:+ industry)),
               true)
            else (h, false))
         (Some (objects self))
     else Some (objects self))
    = Some (<[l := ICPResult_obj
                     (if guard && existsb (λ target, Str.contains (Str.lower target)
                                                       (Str.lower industry))
                                    (target_industries crit)
                      then Sequences.confirmed crit industry r else r)]> (objects self))).
  { destruct guard; simpl; [|rewrite insert_id by exact Hl; reflexivity].
    rewrite (for_break_first
               (λ target, Str.contains (Str.lower target) (Str.lower industry))
               (λ _ (h : option heap),
                  h ← h;
                  h ← assign h l attr_industry_score
                        (VInt (w_industry_match (score_weights crit)));
                  score ← int_field h l attr_score;
                  industry_score ← int_field h l attr_industry_score;
                  h ← assign h l attr_score (VInt (score + industry_score));
                  reasoning ← str_field h l attr_reasoning;
                  assign h l attr_reasoning
                    (VStr (reasoning +:+ "; Industry confirmed: " +:+ industry)))).
    destruct (List.find _ _) as [t|] eqn:Efind.
    - rewrite (find_some_existsb _ _ _ Efind). simpl.
      destruct (assign_obj _ _ _ Hl) as (_ & _ & _ & _ & ->). simpl.
      pose proof (at_insert (objects self) l
                    (set_industry_score (w_industry_match (score_weights crit)) r)) as H1.
      destruct (int_field_obj _ _ _ H1) as [-> ->]. simpl.
      destruct (assign_obj _ _ _ H1) as (-> & _). simpl.
      rewrite insert_insert_eq.
      pose proof (at_insert (objects self) l
                    (set_score (score r + w_industry_match (score_weights crit))
                       (set_industry_score (w_industry_match (score_weights crit)) r)))
        as H2.
      destruct (str_field_obj _ _ _ H2) as (_ & _ & ->). simpl.
      destruct (assign_obj _ _ _ H2) as (_ & _ & _ & -> & _).
      rewrite insert_insert_eq. reflexivity.
    - apply find_none_existsb in Efind. rewrite Efind.
      rewrite insert_id by exact Hl. reflexivity. }
  rewrite Hloop. simpl.
  set (mid := if guard && existsb _ _ then Sequences.confirmed crit industry r else r).
  pose proof (at_insert (objects self) l mid) as Hmid.
  destruct (int_field_obj _ _ _ Hmid) as [-> _]. simpl.
  unfold Sequences.ladder.
  destruct (assign_obj _ _ _ Hmid) as (_ & _ & Hfit & _).
  destruct (high thr <=? score mid); [|destruct (medium thr <=? score mid)].
  - rewrite Hfit. simpl. rewrite insert_insert_eq. reflexivity.
  - rewrite Hfit. simpl. rewrite insert_insert_eq. reflexivity.
  - reflexivity.
Qed.

End PendingFacts.

Section DisputeFacts.

Import Store Pending.

(** [_handle_dispute] on the store allocates one instance, holding the
    record [_handle_dispute] computes from the original's fields, binds it
    under the original's name and writes to nothing else. *)
Lemma handle_dispute_allocates gemini thr (self : Agent) (original : loc)
    (reason : string) (suggested : option Z) (r : ICPResult) :
  objects self !! original = Some (ICPResult_obj r) →
  Pending._handle_dispute gemini thr original reason suggested self
  = match Validator._handle_dispute gemini thr r reason suggested with
    | Some revised =>
        let l := fresh (dom (objects self)) in
        Some (l, {| _pending_validations :=
                      <[company_name r := l]> (_pending_validations self);
                    objects := <[l := ICPResult_obj revised]> (objects self) |})
    | None => None
    end.
Proof.
  intros Hl. unfold Pending._handle_dispute, Validator._handle_dispute.
  rewrite (ICPResult_at_obj _ _ _ Hl). simpl.
  destruct (ICPResult_new _) as [built|] eqn:Hnew; [|reflexivity]. simpl.
  unfold alloc. set (l := fresh (dom (objects self))).
  assert (Hne : original ≠ l).
  { intros ->. apply (is_fresh (dom (objects self))). apply elem_of_dom. eauto. }
  assert (Hkeep : ∀ o, <[l := o]> (objects self) !! original = Some (ICPResult_obj r)).
  { intros o. rewrite lookup_insert_ne by congruence. exact Hl. }
  assert (Hfinish : ∀ revised : ICPResult,
    (revised_score ← int_field (<[l := ICPResult_obj revised]> (objects self)) l attr_score;
     h ← assign (<[l := ICPResult_obj revised]> (objects self)) l attr_fit_level
           (VStr (Validator.fit_of thr revised_score));
     name ← str_field h original attr_company_name;
     Some (l, {| _pending_validations := <[name := l]> (_pending_validations self);
                 objects := h |}))
    = Some (l, {| _pending_validations :=
                    <[company_name r := l]> (_pending_validations self);
                  objects := <[l := ICPResult_obj (Validator.update_fit_level thr revised)]>
                               (objects self) |})).
  { intros revised.
    pose proof (at_insert (objects self) l revised) as Hrev.
    destruct (int_field_obj _ _ _ Hrev) as [-> _]. simpl.
    destruct (assign_obj _ _ _ Hrev) as (_ & _ & -> & _). simpl.
    rewrite insert_insert_eq.
    match goal with
    | |- context [<[l := ?o]> (objects self)] =>
        destruct (str_field_obj _ _ _ (Hkeep o)) as (-> & _)
    end. reflexivity. }
  assert (Hfallback : ∀ revised : ICPResult,
    Pending.accept_if_reasonable r suggested l (<[l := ICPResult_obj revised]> (objects self))
    = Some (<[l := ICPResult_obj (Validator.accept_if_reasonable r suggested revised)]>
              (objects self))).
  { intros revised. unfold Pending.accept_if_reasonable, Validator.accept_if_reasonable.
    destruct suggested as [s|]; [|reflexivity].
    destruct (Validator.accepts r (Some s)); [|reflexivity].
    pose proof (at_insert (objects self) l revised) as Hrev.
    destruct (assign_obj _ _ _ Hrev) as (-> & _). simpl. rewrite insert_insert_eq.
    pose proof (at_insert (objects self) l (set_score s revised)) as Hrev'.
    destruct (assign_obj _ _ _ Hrev') as (_ & -> & _). rewrite insert_insert_eq.
    reflexivity. }
  destruct gemini as [g|].
  - destruct (Validator.resolve_dispute g r reason suggested) as [resolution|].
    + destruct (int_field_obj _ _ _ (Hkeep (ICPResult_obj built))) as [-> _]. simpl.
      pose proof (at_insert (objects self) l built) as H0.
      destruct (assign_obj _ _ _ H0) as (_ & -> & _). simpl. rewrite insert_insert_eq.
      set (fs := default (score r) (Validator.o_final_score resolution)).
      pose proof (at_insert (objects self) l (set_final_score (Some fs) built)) as H1.
      unfold field at 1. rewrite H1. simpl.
      destruct (assign_obj _ _ _ H1) as (-> & _). simpl. rewrite insert_insert_eq.
      destruct (str_field_obj _ _ _
                  (Hkeep (ICPResult_obj (set_score fs (set_final_score (Some fs) built)))))
        as (_ & -> & _). simpl.
      pose proof (at_insert (objects self) l
                    (set_score fs (set_final_score (Some fs) built))) as H2.
      destruct (assign_obj _ _ _ H2) as (_ & _ & -> & _). simpl. rewrite insert_insert_eq.
      match goal with
      | |- context [<[l := ICPResult_obj ?x]> (objects self)] =>
          destruct (str_field_obj _ _ _ (Hkeep (ICPResult_obj x))) as (_ & _ & ->);
          pose proof (at_insert (objects self) l x) as H3
      end. simpl.
      destruct (assign_obj _ _ _ H3) as (_ & _ & _ & -> & _). simpl.
      rewrite insert_insert_eq. rewrite Hfinish. reflexivity.
    + rewrite Hfallback. simpl. rewrite Hfinish. reflexivity.
  - rewrite Hfallback. simpl. rewrite Hfinish. reflexivity.
Qed.

End DisputeFacts.

(** X22. A dispute never reaches the context.  [_handle_dispute] builds a
    new instance for the revised record and rebinds the validator's table
    to it; the instance the context holds, which the table shared until
    then, is only read.  Whatever the oracle and the suggestion, every
    object that existed before the dispute is unchanged after it, the
    context's list still reads as the same records, and the answer reports
    the scores of the two instances. *)
Theorem dispute_leaves_the_context_record gemini thr (self : Pending.Agent)
    (name reason : string) (suggested : option Z) (l : Store.loc) (r : ICPResult)
    (items : list Store.pyval) (rs : list ICPResult)
    (answer : option Pending.Resolved) (self' : Pending.Agent) :
  Pending._pending_validations self !! name = Some l →
  Pending.objects self !! l = Some (Store.ICPResult_obj r) →
  Store.represents (Pending.objects self) items rs →
  Pending.dispute_score gemini thr name reason suggested self = Some (answer, self') →
  (∀ k, k ∈ dom (Pending.objects self) →
        Pending.objects self' !! k = Pending.objects self !! k) ∧
  Store.represents (Pending.objects self') items rs ∧
  ∃ revised l',
    Validator._handle_dispute gemini thr r reason suggested = Some revised ∧
    (l' ∉ dom (Pending.objects self)) ∧
    Pending._pending_validations self' !! company_name r = Some l' ∧
    Pending.objects self' !! l' = Some (Store.ICPResult_obj revised) ∧
    answer = Some {| Pending.resolved_company_name := name;
                     Pending.original_score := score r;
                     Pending.revised_score := score revised;
                     Pending.accepted := negb (score revised =? score r) |}.
Proof.
  intros Hname Hl Hitems. unfold Pending.dispute_score. rewrite Hname.
  rewrite (handle_dispute_allocates gemini thr self l reason suggested r Hl).
  destruct (Validator._handle_dispute gemini thr r reason suggested) as [revised|];
    [|discriminate].
  cbv zeta. set (l' := fresh (dom (Pending.objects self))). simpl.
  assert (Hfresh : l' ∉ dom (Pending.objects self)) by apply is_fresh.
  assert (Hold : ∀ k, k ∈ dom (Pending.objects self) →
            <[l' := Store.ICPResult_obj revised]> (Pending.objects self) !! k
            = Pending.objects self !! k).
  { intros k Hk. apply lookup_insert_ne. intros <-. contradiction. }
  assert (Hl' : <[l' := Store.ICPResult_obj revised]> (Pending.objects self) !! l
                = Some (Store.ICPResult_obj r)).
  { rewrite Hold; [exact Hl|]. apply elem_of_dom. eauto. }
  destruct (int_field_obj _ _ _ Hl') as [-> _].
  destruct (int_field_obj _ _ _ (at_insert (Pending.objects self) l' revised)) as [-> _].
  simpl. intros [= <- <-]. simpl.
  split; [exact Hold|]. split.
  - eapply represents_frame; [exact Hitems|].
    intros i x Hi. rewrite Hold; [exact Hi|]. apply elem_of_dom. eauto.
  - exists revised, l'. split; [reflexivity|]. split; [exact Hfresh|].
    split; [apply lookup_insert_eq|]. split; [apply lookup_insert_eq | reflexivity].
Qed.

Lemma dispute_leaves_the_context_record_witness :
  let r := Disputes.scored "Acme" 40 "Low" in
  let self := {| Pending._pending_validations := {[ "Acme" := 1%positive ]};
                 Pending.objects := {[ 1%positive := Store.ICPResult_obj r ]} |} in
  ∃ answer self',
    Pending.dispute_score None ICP_THRESHOLDS "Acme" "too low" (Some 55) self
    = Some (answer, self') ∧
    Store.represents (Pending.objects self') [Store.VRef 1%positive] [r] ∧
    Pending.revised_score <$> answer = Some 55.
Proof.
  intros r self.
  destruct (Pending.dispute_score None ICP_THRESHOLDS "Acme" "too low" (Some 55) self)
    as [[answer self']|] eqn:E; [|vm_compute in E; discriminate].
  destruct (dispute_leaves_the_context_record None ICP_THRESHOLDS self "Acme" "too low"
              (Some 55) 1%positive r [Store.VRef 1%positive] [r] answer self')
    as (_ & Hkept & revised & l' & Hrevised & _ & _ & _ & Hanswer).
  - reflexivity.
  - reflexivity.
  - constructor; [|constructor]. exists 1%positive. split; reflexivity.
  - exact E.
  - exists answer, self'. split; [reflexivity|]. split; [exact Hkept|].
    rewrite Hanswer. simpl. f_equal.
    vm_compute in Hrevised. injection Hrevised as <-. reflexivity.
Defined.

Lemma represents_update (h : Store.heap) (l : Store.loc) (r' : ICPResult)
    (items : list Store.pyval) (rs : list ICPResult) :
  Store.represents h items rs →
  Store.represents (<[l := Store.ICPResult_obj r']> h) items
    (zip_with (λ item old, if decide (item = Store.VRef l) then r' else old) items rs).
Proof.
  unfold Store.represents. induction 1 as [|item r items rs (i & -> & Hi) _ IH]; simpl.
  - constructor.
  - constructor; [|exact IH]. exists i. split; [reflexivity|].
    destruct (decide (Store.VRef i = Store.VRef l)) as [[= ->]|Hne].
    + apply lookup_insert_eq.
    + rewrite lookup_insert_ne by congruence. exact Hi.
Qed.

(** X23. Enrichment reaches the context.  [_update_with_enrichment]
    assigns to the fields of the instance bound in the validator's table;
    when the context's list refers to that instance, as it does after
    [process], the context reads the updated record at every such item and
    the other records as before, and the table is not rebound. *)
Theorem enrichment_updates_the_shared_record crit thr (self : Pending.Agent)
    (name industry : string) (l : Store.loc) (r : ICPResult)
    (items : list Store.pyval) (rs : list ICPResult) :
  Pending._pending_validations self !! name = Some l →
  Pending.objects self !! l = Some (Store.ICPResult_obj r) →
  Store.represents (Pending.objects self) items rs →
  let r' := Validator._update_with_enrichment crit thr r industry in
  ∃ self',
    Pending.company_enriched crit thr name industry self = Some self' ∧
    Pending._pending_validations self' = Pending._pending_validations self ∧
    Pending.objects self' !! l = Some (Store.ICPResult_obj r') ∧
    (∀ k, k ≠ l → Pending.objects self' !! k = Pending.objects self !! k) ∧
    Store.represents (Pending.objects self') items
      (zip_with (λ item old, if decide (item = Store.VRef l) then r' else old) items rs).
Proof.
  intros Hname Hl Hitems r'. unfold Pending.company_enriched. rewrite Hname.
  rewrite (update_with_enrichment_in_place crit thr self name industry l r Hname Hl).
  eexists. split; [reflexivity|]. simpl. split; [reflexivity|].
  split; [apply lookup_insert_eq|]. split.
  - intros k Hk. apply lookup_insert_ne. congruence.
  - apply represents_update. exact Hitems.
Qed.

Lemma enrichment_updates_the_shared_record_witness :
  let r := Disputes.scored "Acme" 40 "Low" in
  let self := {| Pending._pending_validations := {[ "Acme" := 1%positive ]};
                 Pending.objects := {[ 1%positive := Store.ICPResult_obj r ]} |} in
  ∃ self' r',
    Pending.company_enriched ICP_CRITERIA ICP_THRESHOLDS "Acme" "Manufacturing" self
    = Some self' ∧
    Store.represents (Pending.objects self') [Store.VRef 1%positive] [r'] ∧
    score r' = 70 ∧ fit_level r' = "Medium".
Proof.
  intros r self.
  destruct (enrichment_updates_the_shared_record ICP_CRITERIA ICP_THRESHOLDS self
              "Acme" "Manufacturing" 1%positive r [Store.VRef 1%positive] [r])
    as (self' & Hrun & _ & _ & _ & Hreads).
  - reflexivity.
  - reflexivity.
  - constructor; [|constructor]. exists 1%positive. split; reflexivity.
  - exists self', (Validator._update_with_enrichment ICP_CRITERIA ICP_THRESHOLDS r
                     "Manufacturing").
    split; [exact Hrun|]. split; [exact Hreads|]. split; reflexivity.
Defined.

(** ** A checkpoint under later calls *)

Section Survival.

Import Store.

Variable fuel : nat.
Variable h0 : heap.
Variable c : loc.
Variable t : pytree.
Hypothesis copy_reads : reify fuel h0 (VRef c) = Some t.

(** The objects of the copy are allocated wherever they are kept. *)
Lemma region_allocated (h : heap) (l : loc) :
  (∀ l, reach h0 c l → h !! l = h0 !! l) → reach h0 c l → l ∈ dom h.
Proof.
  intros Hframe Hl.
  assert (Hin : l ∈ dom h0) by (eapply reach_old; [exact copy_reads | reflexivity | exact Hl]).
  apply elem_of_dom. rewrite (Hframe l Hl). apply elem_of_dom. exact Hin.
Qed.

(** Copies made while the region is kept are allocated outside it, and
    what they return refers outside it. *)
Lemma copy_all_outside (n : nat)
    (IH : ∀ x h m y h' m',
        (∀ l, reach h0 c l → l ∈ dom h) →
        (∀ l l', m !! l = Some l' → ¬ reach h0 c l') →
        deepcopy n x h m = Some (y, h', m') →
        h ⊆ h' ∧ (∀ l l', m' !! l = Some l' → ¬ reach h0 c l') ∧ Checkpoints.outside h0 c x y) :
  ∀ xs h m ys h' m',
    (∀ l, reach h0 c l → l ∈ dom h) →
    (∀ l l', m !! l = Some l' → ¬ reach h0 c l') →
    copy_all (deepcopy n) xs h m = Some (ys, h', m') →
    h ⊆ h' ∧ (∀ l l', m' !! l = Some l' → ¬ reach h0 c l') ∧
    (∀ l, VRef l ∈ ys → ¬ reach h0 c l).
Proof.
  induction xs as [|x xs IHxs]; intros h m ys h' m' Hdom Hmemo Hcopy; simpl in Hcopy.
  - injection Hcopy as <- <- <-. split; [reflexivity|]. split; [exact Hmemo|].
    intros l Hl. inversion Hl.
  - destruct (deepcopy n x h m) as [[[y h1] m1]|] eqn:Hx; [|discriminate].
    simpl in Hcopy.
    destruct (copy_all (deepcopy n) xs h1 m1) as [[[ys' h2] m2]|] eqn:Hxs; [|discriminate].
    simpl in Hcopy. injection Hcopy as <- <- <-.
    destruct (IH _ _ _ _ _ _ Hdom Hmemo Hx) as (Hsub1 & Hmemo1 & Hy).
    assert (Hdom1 : ∀ l, reach h0 c l → l ∈ dom h1).
    { intros l Hl. eapply subseteq_dom; [exact Hsub1 | apply Hdom; exact Hl]. }
    destruct (IHxs _ _ _ _ _ Hdom1 Hmemo1 Hxs) as (Hsub2 & Hmemo2 & Hys).
    split; [etrans; eassumption|]. split; [exact Hmemo2|].
    intros l Hl. apply elem_of_cons in Hl as [Hl | Hl]; [|apply Hys; exact Hl].
    destruct (Hy l (eq_sym Hl)) as [Hout | [Hxy Hscalar]]; [exact Hout|].
    exfalso. apply (Hscalar l). congruence.
Qed.

Lemma deepcopy_outside (n : nat) :
  ∀ x h m y h' m',
    (∀ l, reach h0 c l → l ∈ dom h) →
    (∀ l l', m !! l = Some l' → ¬ reach h0 c l') →
    deepcopy n x h m = Some (y, h', m') →
    h ⊆ h' ∧ (∀ l l', m' !! l = Some l' → ¬ reach h0 c l') ∧ Checkpoints.outside h0 c x y.
Proof.
  induction n as [|n IH]; intros x h m y h' m' Hdom Hmemo Hcopy; [discriminate|].
  simpl in Hcopy. destruct x as [| b | z | s | l].
  1-4: injection Hcopy as <- <- <-; split; [reflexivity|]; split; [exact Hmemo|];
       intros l' Hl'; right; split; [reflexivity | intros l0; discriminate].
  destruct (m !! l) as [l'|] eqn:Hm.
  - injection Hcopy as <- <- <-. split; [reflexivity|]. split; [exact Hmemo|].
    intros l0 [= <-]. left. eapply Hmemo. exact Hm.
  - destruct (h !! l) as [o|]; [|discriminate]. simpl in Hcopy.
    destruct (copy_all (deepcopy n) (py_slots o) h m) as [[[ys h1] m1]|] eqn:Hslots;
      [|discriminate].
    simpl in Hcopy. injection Hcopy as <- <- <-.
    destruct (copy_all_outside n IH _ _ _ _ _ _ Hdom Hmemo Hslots) as (Hsub & Hmemo1 & _).
    assert (Hfresh : ¬ reach h0 c (fresh (dom h1))).
    { intros Hr. apply (is_fresh (dom h1)).
      eapply subseteq_dom; [exact Hsub | apply Hdom; exact Hr]. }
    split; [|split].
    + etrans; [exact Hsub|]. apply insert_subseteq. apply not_elem_of_dom. apply is_fresh.
    + intros k k' Hk. destruct (decide (k = l)) as [->|Hne].
      * rewrite lookup_insert_eq in Hk. injection Hk as <-. exact Hfresh.
      * rewrite lookup_insert_ne in Hk by congruence. eapply Hmemo1. exact Hk.
    + intros l0 [= <-]. left. exact Hfresh.
Qed.

(** The root of a copy started with an empty memo table. *)
Lemma deepcopy_root (n : nat) (l : loc) (h : heap) y h' m' :
  (∀ l, reach h0 c l → l ∈ dom h) →
  deepcopy n (VRef l) h ∅ = Some (y, h', m') →
  ∃ l' o', y = VRef l' ∧ h ⊆ h' ∧ ¬ reach h0 c l' ∧ h' !! l' = Some o' ∧
           ∀ v, VRef v ∈ py_slots o' → ¬ reach h0 c v.
Proof.
  intros Hdom Hcopy. destruct n as [|n]; [discriminate|]. simpl in Hcopy.
  rewrite lookup_empty in Hcopy.
  destruct (h !! l) as [o|]; [|discriminate]. simpl in Hcopy.
  destruct (copy_all (deepcopy n) (py_slots o) h ∅) as [[[ys h1] m1]|] eqn:Hslots;
    [|discriminate].
  simpl in Hcopy. injection Hcopy as <- <- <-.
  destruct (copy_all_outside n (deepcopy_outside n) _ _ _ _ _ _ Hdom
              ltac:(intros k k'; rewrite lookup_empty; discriminate) Hslots)
    as (Hsub & _ & Hys).
  exists (fresh (dom h1)), (PyObj (py_class o) ys). split; [reflexivity|].
  split; [|split; [|split]].
  - etrans; [exact Hsub|]. apply insert_subseteq. apply not_elem_of_dom. apply is_fresh.
  - intros Hr. apply (is_fresh (dom h1)).
    eapply subseteq_dom; [exact Hsub | apply Hdom; exact Hr].
  - apply lookup_insert_eq.
  - exact Hys.
Qed.


Lemma elem_of_insert_cases {A} (l : list A) (i : nat) (x y : A) :
  x ∈ <[i := y]> l → x = y ∨ x ∈ l.
Proof.
  revert i. induction l as [|z l IH]; intros i Hx; simpl in Hx; [inversion Hx|].
  destruct i as [|i]; simpl in Hx.
  - apply elem_of_cons in Hx as [-> | Hx]; [left; reflexivity | right; right; exact Hx].
  - apply elem_of_cons in Hx as [-> | Hx]; [right; left|].
    destruct (IH i Hx) as [-> | Hin]; [left; reflexivity | right; right; exact Hin].
Qed.

(** Writing to an object outside the copy, after allocating a new one,
    keeps the copy. *)
Lemma keeps_write name (self : SharedContext) (new : loc) (onew : pyobj) (l : loc)
    (o : pyobj) :
  Checkpoints.keeps h0 c name self →
  new ∉ dom (store self) → context self ≠ new →
  ¬ reach h0 c l →
  (l = context self → ∀ v, VRef v ∈ py_slots o → ¬ reach h0 c v) →
  Checkpoints.keeps h0 c name
    {| store := <[l := o]> (<[new := onew]> (store self));
       context := context self; _checkpoints := _checkpoints self |}.
Proof.
  intros (Htable & Hframe & Hctx & Hrefs) Hnew Hne Hl Ho.
  split; [exact Htable|]. split; [|split; [exact Hctx|]]; simpl.
  - intros k Hk. rewrite lookup_insert_ne by (intros <-; contradiction).
    rewrite lookup_insert_ne; [apply Hframe; exact Hk|].
    intros <-. apply Hnew. apply (region_allocated _ _ Hframe Hk).
  - intros o' v. destruct (decide (l = context self)) as [->|Hlne].
    + rewrite lookup_insert_eq. intros [= <-]. apply Ho. reflexivity.
    + rewrite lookup_insert_ne by exact Hlne.
      rewrite lookup_insert_ne by congruence. apply Hrefs.
Qed.

(** The same without an allocation. *)
Lemma keeps_assign name (self : SharedContext) (l : loc) (o : pyobj) :
  Checkpoints.keeps h0 c name self →
  ¬ reach h0 c l →
  (l = context self → ∀ v, VRef v ∈ py_slots o → ¬ reach h0 c v) →
  Checkpoints.keeps h0 c name
    {| store := <[l := o]> (store self);
       context := context self; _checkpoints := _checkpoints self |}.
Proof.
  intros (Htable & Hframe & Hctx & Hrefs) Hl Ho.
  split; [exact Htable|]. split; [|split; [exact Hctx|]]; simpl.
  - intros k Hk. rewrite lookup_insert_ne by (intros <-; contradiction).
    apply Hframe. exact Hk.
  - intros o' v. destruct (decide (l = context self)) as [->|Hlne].
    + rewrite lookup_insert_eq. intros [= <-]. apply Ho. reflexivity.
    + rewrite lookup_insert_ne by exact Hlne. apply Hrefs.
Qed.

Lemma setattr_keeps name (self self' : SharedContext) (attr : nat) (s : string) :
  Checkpoints.keeps h0 c name self →
  setattr self attr (VStr s) = Some self' →
  Checkpoints.keeps h0 c name self'.
Proof.
  intros Hkeeps. unfold setattr.
  destruct (store self !! context self) as [o|] eqn:Ho; [|discriminate].
  intros [= <-]. apply keeps_assign; [exact Hkeeps | apply Hkeeps|].
  intros _ v Hv. simpl in Hv. apply elem_of_insert_cases in Hv as [Hv | Hv]; [discriminate|].
  destruct Hkeeps as (_ & _ & _ & Hrefs). eapply Hrefs; eassumption.
Qed.

Lemma append_to_keeps name (self self' : SharedContext) (attr : nat) (s : string) :
  Checkpoints.keeps h0 c name self →
  append_to self attr (VStr s) = Some self' →
  Checkpoints.keeps h0 c name self'.
Proof.
  intros Hkeeps. unfold append_to, getattr.
  destruct (store self !! context self) as [ctx|] eqn:Hctx; [|discriminate]. simpl.
  destruct (py_slots ctx !! attr) as [[| | | |l]|] eqn:Hslot; try discriminate. simpl.
  destruct (store self !! l) as [lst|] eqn:Hlst; [|discriminate].
  intros [= <-].
  assert (Hl : ¬ reach h0 c l).
  { destruct Hkeeps as (_ & _ & _ & Hrefs). eapply Hrefs; [exact Hctx|].
    eapply list_elem_of_lookup_2. exact Hslot. }
  apply keeps_assign; [exact Hkeeps | exact Hl|].
  intros -> v Hv. simpl in Hv. apply elem_of_app in Hv as [Hv | Hv].
  - destruct Hkeeps as (_ & _ & _ & Hrefs). eapply Hrefs; eassumption.
  - apply list_elem_of_singleton in Hv. discriminate.
Qed.

Lemma add_new_icp_result_keeps name (self self' : SharedContext) (r : ICPResult) :
  Checkpoints.keeps h0 c name self →
  add_new_icp_result r self = Some self' →
  Checkpoints.keeps h0 c name self'.
Proof.
  intros Hkeeps. unfold add_new_icp_result, alloc.
  set (new := fresh (dom (store self))).
  assert (Hnew : new ∉ dom (store self)) by apply is_fresh.
  assert (Hout : ¬ reach h0 c new).
  { intros Hr. apply Hnew. destruct Hkeeps as (_ & Hframe & _).
    apply (region_allocated _ _ Hframe Hr). }
  unfold add_icp_result, append_to, getattr. simpl.
  destruct (decide (context self = new)) as [Heq|Hne].
  { rewrite Heq, lookup_insert_eq. simpl. discriminate. }
  rewrite lookup_insert_ne by congruence.
  destruct (store self !! context self) as [ctx|] eqn:Hctx; [|discriminate]. simpl.
  destruct (py_slots ctx !! attr_icp_results) as [v|] eqn:Hslot; [|discriminate].
  simpl. rewrite lookup_insert_eq. simpl.
  destruct v as [| | | |l]; try discriminate.
  assert (Hl : ¬ reach h0 c l).
  { destruct Hkeeps as (_ & _ & _ & Hrefs). eapply Hrefs; [exact Hctx|].
    eapply list_elem_of_lookup_2. exact Hslot. }
  destruct (<[new:=ICPResult_obj r]> (store self) !! l) as [lst|] eqn:Hlst; [|discriminate].
  simpl.
  assert (Hitems : l = context self → ∀ v, VRef v ∈ py_slots lst → ¬ reach h0 c v).
  { intros -> v Hv. rewrite lookup_insert_ne in Hlst by congruence.
    destruct Hkeeps as (_ & _ & _ & Hrefs). eapply Hrefs; eassumption. }
  destruct (List.find _ (py_slots lst)) as [[| | | |e]|]; try discriminate.
  - destruct (<[new:=ICPResult_obj r]> (store self) !! e) as [existing|]; [|discriminate].
    simpl. destruct (first_index _ _) as [idx|]; [|discriminate]. simpl.
    intros [= <-]. apply keeps_write; try assumption.
    intros Heq v Hv. simpl in Hv. apply elem_of_insert_cases in Hv as [[= ->] | Hv];
      [exact Hout | apply (Hitems Heq v Hv)].
  - simpl. intros [= <-]. apply keeps_write; try assumption.
    intros Heq v Hv. simpl in Hv. apply elem_of_app in Hv as [Hv | Hv].
    + apply (Hitems Heq v Hv).
    + apply list_elem_of_singleton in Hv. injection Hv as ->. exact Hout.
Qed.

Lemma create_checkpoint_keeps name (self self' : SharedContext) (other : string) :
  Checkpoints.keeps h0 c name self → other ≠ name →
  create_checkpoint fuel other self = Some self' →
  Checkpoints.keeps h0 c name self'.
Proof.
  intros (Htable & Hframe & Hctx & Hrefs) Hother. unfold create_checkpoint.
  destruct (deepcopy fuel (VRef (context self)) (store self) ∅) as [[[copy h] m]|] eqn:Hcopy;
    [|discriminate].
  simpl. destruct (deepcopy_VRef _ _ _ _ _ _ _ Hcopy) as [c' ->]. intros [= <-].
  destruct (deepcopy_root fuel _ _ _ _ _ (λ k, region_allocated _ k Hframe) Hcopy)
    as (l' & o' & _ & Hsub & _).
  assert (Hlive : is_Some (store self !! context self)).
  { destruct fuel as [|n]; [discriminate|]. simpl in Hcopy. rewrite lookup_empty in Hcopy.
    destruct (store self !! context self); [eauto | discriminate]. }
  split; [|split; [|split; [exact Hctx|]]]; simpl.
  - rewrite lookup_insert_ne by exact Hother. exact Htable.
  - intros k Hk. rewrite <- (Hframe k Hk).
    pose proof (region_allocated _ k Hframe Hk) as Hin. apply elem_of_dom in Hin as [o Ho].
    rewrite Ho. eapply lookup_weaken; eassumption.
  - intros o v Ho. destruct Hlive as [o1 Ho1].
    rewrite (lookup_weaken _ _ _ _ Ho1 Hsub) in Ho. injection Ho as <-.
    apply Hrefs. exact Ho1.
Qed.

Lemma restore_checkpoint_keeps name (self self' : SharedContext) (other : string)
    (found : bool) :
  Checkpoints.keeps h0 c name self →
  restore_checkpoint fuel other self = Some (found, self') →
  Checkpoints.keeps h0 c name self'.
Proof.
  intros Hkeeps. pose proof Hkeeps as (Htable & Hframe & Hctx & Hrefs).
  unfold restore_checkpoint.
  destruct (_checkpoints self !! other) as [c'|]; [|intros [= <- <-]; exact Hkeeps].
  destruct (deepcopy fuel (VRef c') (store self) ∅) as [[[copy h] m]|] eqn:Hcopy;
    [|discriminate].
  simpl.
  destruct (deepcopy_root fuel _ _ _ _ _ (λ k, region_allocated _ k Hframe) Hcopy)
    as (l' & o' & -> & Hsub & Hl' & Ho' & Hslots).
  intros [= <- <-].
  split; [exact Htable|]. split; [|split; [exact Hl'|]]; simpl.
  - intros k Hk. rewrite <- (Hframe k Hk).
    pose proof (region_allocated _ k Hframe Hk) as Hin. apply elem_of_dom in Hin as [o Ho].
    rewrite Ho. eapply lookup_weaken; eassumption.
  - intros o v Ho. rewrite Ho' in Ho. injection Ho as <-. apply Hslots.
Qed.

Lemma run_keeps name (calls : list call) (self self' : SharedContext) :
  Checkpoints.keeps h0 c name self →
  CreateCheckpoint name ∉ calls →
  run fuel calls self = Some self' →
  Checkpoints.keeps h0 c name self'.
Proof.
  revert self. induction calls as [|call rest IH]; intros self Hkeeps Hnot; simpl.
  - intros [= <-]. exact Hkeeps.
  - apply not_elem_of_cons in Hnot as [Hcall Hrest].
    destruct (perform fuel call self) as [self1|] eqn:Hperform; [|discriminate]. simpl.
    apply IH; [|exact Hrest].
    destruct call as [n | n | s | a | e | r]; simpl in Hperform.
    + eapply create_checkpoint_keeps; [exact Hkeeps | | exact Hperform]. congruence.
    + destruct (restore_checkpoint fuel n self) as [[found self2]|] eqn:Hrestore;
        [|discriminate].
      injection Hperform as <-. eapply restore_checkpoint_keeps; eassumption.
    + eapply setattr_keeps; eassumption.
    + eapply setattr_keeps; eassumption.
    + eapply append_to_keeps; eassumption.
    + eapply add_new_icp_result_keeps; eassumption.
Qed.

(** A kept copy still reads as it did. *)
Lemma keeps_reads name (self : SharedContext) :
  Checkpoints.keeps h0 c name self →
  reify fuel (store self) (VRef c) = Some t.
Proof.
  intros (_ & Hframe & _). eapply reify_frame; [exact copy_reads|].
  intros l k [= <-] Hk. apply Hframe. exact Hk.
Qed.

End Survival.

(** X24. A checkpoint survives the calls made on the context after it.
    Whatever sequence of calls follows [create_checkpoint] (status and
    agent updates, recorded errors, added score records, checkpoints under
    other names, restores of any checkpoint), as long as none of them
    creates a checkpoint under the same name again, the objects of the
    stored copy are untouched and out of the live context's reach, and
    restoring the name then yields a context that reads as the one
    checkpointed. *)
Theorem checkpoint_survives_calls (fuel : nat) (name : string)
    (self : Store.SharedContext) (t : Store.pytree) (calls : list Store.call) :
  Store.reify fuel (Store.store self) (Store.VRef (Store.context self)) = Some t →
  Store.CreateCheckpoint name ∉ calls →
  ∃ saved c,
    Store.create_checkpoint fuel name self = Some saved ∧
    Checkpoints.keeps (Store.store saved) c name saved ∧
    ∀ later,
      Store.run fuel calls saved = Some later →
      Checkpoints.keeps (Store.store saved) c name later ∧
      ∃ restored,
        Store.restore_checkpoint fuel name later = Some (true, restored) ∧
        Store.reify fuel (Store.store restored) (Store.VRef (Store.context restored))
        = Some t.
Proof.
  intros Hlive Hnot.
  destruct (deepcopy_fresh fuel (Store.store self) (Store.context self) t Hlive)
    as (c & h1 & m1 & Hcopy & Hsub & Hreads & Hnew).
  eexists _, c. unfold Store.create_checkpoint. rewrite Hcopy. simpl.
  split; [reflexivity|].
  assert (Hctx : ∃ o, Store.store self !! Store.context self = Some o).
  { destruct fuel as [|n]; [discriminate|]. simpl in Hlive.
    destruct (Store.store self !! Store.context self); [eauto | discriminate]. }
  destruct Hctx as [ctx Hctx].
  assert (Hkeeps : Checkpoints.keeps h1 c name
            {| Store.store := h1; Store.context := Store.context self;
               Store._checkpoints := <[name := c]> (Store._checkpoints self) |}).
  { split; [apply lookup_insert_eq|]. split; [reflexivity|]. simpl. split.
    - intros Hr. apply (Hnew _ Hr). apply elem_of_dom. eauto.
    - intros o v Ho Hv Hr. apply (Hnew _ Hr).
      rewrite (lookup_weaken _ _ _ _ Hctx Hsub) in Ho. injection Ho as <-.
      eapply reach_old; [exact Hlive | reflexivity|].
      eapply Store.reach_slot; [exact Hctx | exact Hv | apply Store.reach_here]. }
  split; [exact Hkeeps|].
  intros later Hrun.
  pose proof (run_keeps fuel h1 c t Hreads name calls _ later Hkeeps Hnot Hrun) as Hlater.
  split; [exact Hlater|].
  pose proof (keeps_reads fuel h1 c t Hreads name later Hlater) as Hc.
  destruct (deepcopy_fresh fuel (Store.store later) c t Hc)
    as (l2 & h2 & m2 & Hcopy2 & _ & Hl2 & _).
  unfold Store.restore_checkpoint. destruct Hlater as (-> & _).
  rewrite Hcopy2. simpl. eexists. split; [reflexivity | exact Hl2].
Qed.

Lemma checkpoint_survives_calls_witness :
  let self := Store.init "https://conf.example" false in
  let calls :=
    [Store.AddIcpResult (Disputes.scored "Acme" 40 "Low"); Store.SetStatus "validating";
     Store.CreateCheckpoint "mid"; Store.AddError "failed"; Store.RestoreCheckpoint "mid"] in
  ∃ saved later restored,
    Store.create_checkpoint 5 "start" self = Some saved ∧
    Store.run 5 calls saved = Some later ∧
    Store.icp_results_len later = Some 1%nat ∧
    Store.restore_checkpoint 5 "start" later = Some (true, restored) ∧
    Store.reify 5 (Store.store restored) (Store.VRef (Store.context restored))
    = Store.reify 5 (Store.store self) (Store.VRef (Store.context self)).
Proof.
  intros self calls.
  destruct (Store.reify 5 (Store.store self) (Store.VRef (Store.context self)))
    as [t|] eqn:Hlive; [|vm_compute in Hlive; discriminate].
  destruct (checkpoint_survives_calls 5 "start" self t calls Hlive)
    as (saved & c & Hcreate & _ & Hlater).
  { subst calls. rewrite !not_elem_of_cons. repeat split; try discriminate.
    apply not_elem_of_nil. }
  pose proof Hcreate as Hsaved. vm_compute in Hsaved. injection Hsaved as Hsaved.
  destruct (Store.run 5 calls saved) as [later|] eqn:Hrun;
    [|rewrite <- Hsaved in Hrun; vm_compute in Hrun; discriminate].
  destruct (Hlater later eq_refl) as (_ & restored & Hrestore & Hreads).
  exists saved, later, restored.
  split; [exact Hcreate|]. split; [exact Hrun|].
  split; [|split; [exact Hrestore | exact Hreads]].
  rewrite <- Hsaved in Hrun. vm_compute in Hrun. injection Hrun as <-.
  vm_compute. reflexivity.
Defined.
